(** * Grid pathfinding and steering: a shallow embedding

    The development follows the two source classes of the
    [sc2-pathfinding] demo, [Pathfinder] (pathfinding.js) and [Unit]
    (unit.js), and the parts of its main script that compute: the group
    command [moveSelectedUnits], the obstacle map of [generateMap], the
    spawning of [init] and [resetScene], and the frame loop [animate].

    Numbers.  The JavaScript code computes on IEEE doubles.  For the grid
    code a world coordinate is modelled by an exact rational ([Q]): the
    finite doubles are rationals, and rounding is not modelled.  Cell
    coordinates and flat indices are integers ([Z]); the occupancy array
    ([Uint8Array]) is a list of integers read and written by index. *)

From Stdlib Require Import ZArith QArith Qabs Qround Lia List Bool PrimFloat Uint63.
From Stdlib Require Import Reals Lra Psatz.
From stdpp Require Import base option list gmap.

Local Open Scope Z_scope.

(** ** The obstacle grid *)

Module Pathfinder.

(** [new THREE.Vector3(x, y, z)], as far as this class uses it. *)
Record Vector3 : Type := mkVector3 { vx : Q; vy : Q; vz : Q }.

(** The fields assigned by the constructor. *)
Record t : Type := mk {
  width : Z;
  height : Z;
  scale : Q;
  grid : list Z (* Uint8Array: 0 = empty, 1 = obstacle *)
}.

(** [constructor(width, height, scale)]: a zero-filled array of
    [width * height] cells. *)
Definition new (w h : Z) (s : Q) : t :=
  {| width := w; height := h; scale := s;
     grid := replicate (Z.to_nat (w * h)) 0 |}.

(** What the constructor establishes and [setObstacle] keeps.  A scale of
    zero is left out: there the division of the coordinate mapping is not
    a finite number. *)
Definition wf (g : t) : Prop :=
  0 <= width g /\ 0 <= height g /\
  length (grid g) = Z.to_nat (width g * height g) /\
  ~ (scale g == 0)%Q.

(** [Math.floor(x / this.scale + this.width / 2)], computed exactly: the
    source rounds the quotient and the sum to doubles, so that a point
    within a rounding error of a cell border can fall into the next cell
    there; at a scale of zero, and where the quotient overflows, the
    source gets NaN or an infinity, which is no cell index. *)
Definition toCell (s : Q) (dim : Z) (x : Q) : Z :=
  Qfloor (x / s + inject_Z dim / 2)%Q.

(** [(c - this.width / 2) * this.scale + this.scale / 2] *)
Definition toWorld (s : Q) (dim : Z) (c : Z) : Q :=
  ((inject_Z c - inject_Z dim / 2) * s + s / 2)%Q.

(** [this.grid[i]] for an integer [i]: reading a typed array outside
    [0 .. length-1] gives [undefined], here [None]. *)
Definition gridAt (g : t) (i : Z) : option Z :=
  if i <? 0 then None else grid g !! Z.to_nat i.

Definition isValid (g : t) (x y : Z) : bool :=
  (0 <=? x) && (x <? width g) && (0 <=? y) && (y <? height g).

(** [this.grid[y * this.width + x] === 1]: no bounds check. *)
Definition isBlocked (g : t) (x y : Z) : bool :=
  match gridAt g (y * width g + x) with
  | Some v => v =? 1
  | None => false
  end.

Definition setObstacle (g : t) (x z : Q) (isObstacle : bool) : t :=
  let gx := toCell (scale g) (width g) x in
  let gz := toCell (scale g) (height g) z in
  if (0 <=? gx) && (gx <? width g) && (0 <=? gz) && (gz <? height g) then
    {| width := width g; height := height g; scale := scale g;
       grid := <[Z.to_nat (gz * width g + gx) := if isObstacle then 1 else 0]>
                 (grid g) |}
  else g.

Definition isWalkableAt (g : t) (x z : Q) : bool :=
  let gx := toCell (scale g) (width g) x in
  let gz := toCell (scale g) (height g) z in
  if (gx <? 0) || (width g <=? gx) || (gz <? 0) || (height g <=? gz) then false
  else match gridAt g (gz * width g + gx) with
       | Some v => v =? 0
       | None => false
       end.

(** The cell of a world point lies inside the grid bounds. *)
Definition inRange (g : t) (x z : Q) : bool :=
  isValid g (toCell (scale g) (width g) x) (toCell (scale g) (height g) z).

(** *** Line of sight

    [hasLineOfSight] walks the cells of Bresenham's line from the cell of
    [start] to the cell of [end].  The source loop is [while (true)]; the
    model runs it on a step budget.  [fuel] steps with [fuel] above
    [dx + dy] always suffice ([cellLineOfSight_cells] below), so the budget
    never runs out and the default of [hasLineOfSight] is never taken. *)

Fixpoint losLoop (g : t) (x1 y1 dx dy sx sy : Z) (fuel : nat)
    (x0 y0 err : Z) : option bool :=
  match fuel with
  | O => None
  | S fuel' =>
      if isBlocked g x0 y0 then Some false
      else if (x0 =? x1) && (y0 =? y1) then Some true
      else
        let e2 := 2 * err in
        let '(err1, x0') :=
          if - dy <? e2 then (err - dy, x0 + sx) else (err, x0) in
        let '(err2, y0') :=
          if e2 <? dx then (err1 + dx, y0 + sy) else (err1, y0) in
        losLoop g x1 y1 dx dy sx sy fuel' x0' y0' err2
  end.

(** The loop between two cells, with the set-up of the source. *)
Definition cellLineOfSight (g : t) (x0 y0 x1 y1 : Z) : option bool :=
  let dx := Z.abs (x1 - x0) in
  let dy := Z.abs (y1 - y0) in
  let sx := if x0 <? x1 then 1 else -1 in
  let sy := if y0 <? y1 then 1 else -1 in
  losLoop g x1 y1 dx dy sx sy (S (Z.to_nat (dx + dy))) x0 y0 (dx - dy).

Definition hasLineOfSight (g : t) (a b : Vector3) : bool :=
  let x0 := toCell (scale g) (width g) (vx a) in
  let y0 := toCell (scale g) (height g) (vz a) in
  let x1 := toCell (scale g) (width g) (vx b) in
  let y1 := toCell (scale g) (height g) (vz b) in
  match cellLineOfSight g x0 y0 x1 y1 with
  | Some r => r
  | None => false
  end.

(** *** String pulling

    [lookAhead g path cur k] is the [for] loop of [smoothPath] started at
    [i = cur + 1 + k], running down to [i = cur + 2]; its result is
    [nextIdx].  [None] stands for a read outside the array, which the
    loop bounds exclude. *)
Fixpoint lookAhead (g : t) (path : list Vector3) (cur k : nat) : option nat :=
  match k with
  | O => Some (cur + 1)%nat
  | S k' =>
      match path !! cur, path !! (cur + 1 + k)%nat with
      | Some a, Some b =>
          if hasLineOfSight g a b then Some (cur + 1 + k)%nat
          else lookAhead g path cur k'
      | _, _ => None
      end
  end.

(** The [while (currentIdx < path.length - 1)] loop; [acc] is the array
    [smoothPath] of the source.  [None]: the budget ran out (it does not:
    [smoothLoop_spec] below). *)
Fixpoint smoothLoop (g : t) (path : list Vector3) (fuel : nat)
    (currentIdx : nat) (acc : list Vector3) : option (list Vector3) :=
  if (currentIdx <? length path - 1)%nat then
    match fuel with
    | O => None
    | S fuel' =>
        match lookAhead g path currentIdx (length path - currentIdx - 2) with
        | Some nextIdx =>
            match path !! nextIdx with
            | Some p => smoothLoop g path fuel' nextIdx (acc ++ [p])
            | None => None
            end
        | None => None
        end
    end
  else Some acc.

Definition smoothPath (g : t) (path : list Vector3) : option (list Vector3) :=
  if (length path <=? 2)%nat then Some path
  else match path with
       | p0 :: _ => smoothLoop g path (length path) 0 [p0]
       | [] => None
       end.

(** *** A* search

    The search compares and adds path costs: doubles, with the constant
    [1.414] and [Math.sqrt].  The model takes that arithmetic as an
    interface, so that what is proved of the search holds for every
    arithmetic, the doubles of the source among them. *)
Class Cost (F : Type) : Type := {
  czero : F;                 (* 0 *)
  cone : F;                  (* 1 *)
  cdiag : F;                 (* 1.414 *)
  cadd : F -> F -> F;        (* a + b *)
  clt : F -> F -> bool;      (* a < b *)
  cdist : Z -> Z -> F        (* Math.sqrt(Math.pow(dx, 2) + Math.pow(dy, 2)) *)
}.

Section Search.
Context {F : Type} `{Cost F}.

(** A search node [{ x, y, g, h, f, parent }].  A node is the [parent] of
    another only once it has left the open list, and the source writes to
    a node ([g], [parent], [f]) only while it is on the open list, so the
    parent reference can be held as a value. *)
#[warnings="-register-all"]
Inductive node : Type :=
  Node (x y : Z) (g h f : F) (parent : option node).

Definition node_x (n : node) : Z := let 'Node x _ _ _ _ _ := n in x.
Definition node_y (n : node) : Z := let 'Node _ y _ _ _ _ := n in y.
Definition node_g (n : node) : F := let 'Node _ _ g _ _ _ := n in g.
Definition node_h (n : node) : F := let 'Node _ _ _ h _ _ := n in h.
Definition node_f (n : node) : F := let 'Node _ _ _ _ f _ := n in f.
Definition node_parent (n : node) : option node :=
  let 'Node _ _ _ _ _ p := n in p.

Definition cell (n : node) : Z * Z := (node_x n, node_y n).

(** The eight directions, in the order of the source. *)
Definition neighbors : list (Z * Z) :=
  [(0, -1); (1, -1); (1, 0); (1, 1); (0, 1); (-1, 1); (-1, 0); (-1, -1)].

(** The scan for the lowest [f]: [i] is the index of the head of [l]. *)
Fixpoint lowestScan (l : list node) (i lowestIndex : nat) (lowestF : F) : nat :=
  match l with
  | [] => lowestIndex
  | n :: l' =>
      if clt (node_f n) lowestF then lowestScan l' (S i) i (node_f n)
      else lowestScan l' (S i) lowestIndex lowestF
  end.

Definition lowestIndex (openList : list node) : nat :=
  match openList with
  | [] => O
  | n0 :: l => lowestScan l 1 O (node_f n0)
  end.

(** [openList.find(n => n.x === nx && n.y === ny)], as the index of the
    first match. *)
Fixpoint findIndex (nx ny : Z) (l : list node) : option nat :=
  match l with
  | [] => None
  | n :: l' =>
      if (node_x n =? nx) && (node_y n =? ny) then Some O
      else S <$> findIndex nx ny l'
  end.

(** One turn of [for (let offset of neighbors)]. *)
Definition visit (g : t) (ex ey : Z) (closedList : gset (Z * Z))
    (current : node) (openList : list node) (offset : Z * Z) : list node :=
  let nx := node_x current + offset.1 in
  let ny := node_y current + offset.2 in
  if negb (isValid g nx ny) || isBlocked g nx ny
     || bool_decide ((nx, ny) ∈ closedList)
  then openList
  else if (Z.abs offset.1 =? 1) && (Z.abs offset.2 =? 1)
          && (isBlocked g (node_x current + offset.1) (node_y current)
              || isBlocked g (node_x current) (node_y current + offset.2))
  then openList
  else
    let gScore :=
      cadd (node_g current)
           (if (offset.1 =? 0) || (offset.2 =? 0) then cone else cdiag) in
    match findIndex nx ny openList with
    | None =>
        let h := cdist (nx - ex) (ny - ey) in
        openList ++ [Node nx ny gScore h (cadd gScore h) (Some current)]
    | Some i =>
        match openList !! i with
        | Some neighbor =>
            if clt gScore (node_g neighbor) then
              <[i := Node (node_x neighbor) (node_y neighbor) gScore
                          (node_h neighbor) (cadd gScore (node_h neighbor))
                          (Some current)]> openList
            else openList
        | None => openList
        end
    end.

(** The [while (openList.length > 0)] loop.  [None]: the budget ran out
    (it does not: [searchLoop_ok] below); [Some None]: the open list
    emptied; [Some (Some n)]: [n] is the node taken from the open list
    that lies on the goal cell. *)
Fixpoint searchLoop (g : t) (ex ey : Z) (fuel : nat)
    (openList : list node) (closedList : gset (Z * Z)) : option (option node) :=
  match fuel with
  | O => None
  | S fuel' =>
      if (0 <? length openList)%nat then
        match openList !! lowestIndex openList with
        | None => None (* the scan stays inside the list *)
        | Some current =>
            if (node_x current =? ex) && (node_y current =? ey)
            then Some (Some current)
            else
              let openList' := delete (lowestIndex openList) openList in
              let closedList' := {[ cell current ]} ∪ closedList in
              searchLoop g ex ey fuel'
                (foldl (visit g ex ey closedList' current) openList' neighbors)
                closedList'
        end
      else Some None
  end.

(** [while (curr) { path.push(...); curr = curr.parent; }]: the nodes from
    the goal back to the start. *)
Fixpoint chain (n : node) : list node :=
  n :: match node_parent n with
       | Some p => chain p
       | None => []
       end.

Definition center (g : t) (c : Z * Z) : Vector3 :=
  mkVector3 (toWorld (scale g) (width g) c.1) 0
            (toWorld (scale g) (height g) c.2).

(** The cells of the path before smoothing, from start to goal: the
    reversed parent chain.  [Some []]: there is no path. *)
Definition rawPath (g : t) (startX startZ endX endZ : Q) : option (list (Z * Z)) :=
  let sx := toCell (scale g) (width g) startX in
  let sy := toCell (scale g) (height g) startZ in
  let ex := toCell (scale g) (width g) endX in
  let ey := toCell (scale g) (height g) endZ in
  if negb (isValid g sx sy) || negb (isValid g ex ey) then Some []
  else if isBlocked g ex ey then Some []
  else
    match searchLoop g ex ey (S (Z.to_nat (width g * height g)))
                     [Node sx sy czero czero czero None] ∅ with
    | None => None
    | Some None => Some []
    | Some (Some current) => Some (reverse (cell <$> chain current))
    end.

(** [findPath]: the raw path, as cell centers, smoothed.  In the source
    the two early exits and the exit of an emptied open list return [[]]
    without smoothing; [smoothPath] leaves [[]] as it is. *)
Definition findPath (g : t) (startX startZ endX endZ : Q) : option (list Vector3) :=
  match rawPath g startX startZ endX endZ with
  | None => None
  | Some cells => smoothPath g (center g <$> cells)
  end.

End Search.

Arguments node F : clear implicits.

(** The arithmetic of the source: IEEE binary64. *)
Definition floatOfZ (z : Z) : float :=
  if z <? 0 then PrimFloat.opp (PrimFloat.of_uint63 (Uint63.of_Z (- z)))
  else PrimFloat.of_uint63 (Uint63.of_Z z).

#[export] Instance floatCost : Cost float := {|
  czero := 0%float;
  cone := 1%float;
  cdiag := 0x1.69fbe76c8b439p+0%float; (* the double written 1.414 *)
  cadd := PrimFloat.add;
  clt := PrimFloat.ltb;
  cdist := fun dx dy =>
    PrimFloat.sqrt (PrimFloat.add (PrimFloat.mul (floatOfZ dx) (floatOfZ dx))
                                  (PrimFloat.mul (floatOfZ dy) (floatOfZ dy)))
|}.

End Pathfinder.

(** ** The steering agent

    [Unit.update] divides, takes square roots and compares, and what it
    does on a division by zero matters.  Its numbers are modelled as the
    reals extended with the two infinities and NaN: arithmetic on finite
    values is exact (no rounding, no overflow), and the special values
    follow the IEEE rules that JavaScript applies.  Zero carries no sign;
    the divisors of the source are square roots and counts, which are
    never the negative zero.  An equation or a bound between finite
    values that is proved here holds of the doubles up to rounding, and
    only where no intermediate result underflows or overflows; the signs
    of the results, the branches taken away from their thresholds and the
    special values do not depend on the rounding. *)

Module Unit.
Local Open Scope R_scope.

Inductive num : Type :=
| Fin (r : R)
| PInf
| NInf
| NaN.

Definition nneg (a : num) : num :=
  match a with
  | Fin r => Fin (- r)
  | PInf => NInf
  | NInf => PInf
  | NaN => NaN
  end.

Definition nadd (a b : num) : num :=
  match a, b with
  | Fin x, Fin y => Fin (x + y)
  | NaN, _ | _, NaN => NaN
  | PInf, NInf | NInf, PInf => NaN
  | PInf, _ | _, PInf => PInf
  | NInf, _ | _, NInf => NInf
  end.

Definition nsub (a b : num) : num := nadd a (nneg b).

(** An infinity times [r]: NaN when [r] is zero, else the infinity of the
    product's sign. *)
Definition infTimes (positive : bool) (r : R) : num :=
  if Req_dec_T r 0 then NaN
  else if Rlt_dec 0 r then (if positive then PInf else NInf)
  else (if positive then NInf else PInf).

Definition nmul (a b : num) : num :=
  match a, b with
  | Fin x, Fin y => Fin (x * y)
  | NaN, _ | _, NaN => NaN
  | PInf, Fin r | Fin r, PInf => infTimes true r
  | NInf, Fin r | Fin r, NInf => infTimes false r
  | PInf, PInf | NInf, NInf => PInf
  | PInf, NInf | NInf, PInf => NInf
  end.

Definition ndiv (a b : num) : num :=
  match a, b with
  | Fin x, Fin y =>
      if Req_dec_T y 0 then
        (if Req_dec_T x 0 then NaN else if Rlt_dec 0 x then PInf else NInf)
      else Fin (x / y)
  | NaN, _ | _, NaN => NaN
  | Fin _, (PInf | NInf) => Fin 0
  | (PInf | NInf), (PInf | NInf) => NaN
  | PInf, Fin y => if Rlt_dec y 0 then NInf else PInf
  | NInf, Fin y => if Rlt_dec y 0 then PInf else NInf
  end.

(** [Math.sqrt] *)
Definition nsqrt (a : num) : num :=
  match a with
  | Fin r => if Rlt_dec r 0 then NaN else Fin (sqrt r)
  | PInf => PInf
  | NInf | NaN => NaN
  end.

(** [a < b]; a comparison with NaN is false. *)
Definition nlt (a b : num) : bool :=
  match a, b with
  | Fin x, Fin y => if Rlt_dec x y then true else false
  | NaN, _ | _, NaN => false
  | NInf, (Fin _ | PInf) => true
  | Fin _, PInf => true
  | _, _ => false
  end.

(** [a > b] *)
Definition ngt (a b : num) : bool := nlt b a.

(** A number read as a condition: zero and NaN are falsy. *)
Definition truthy (a : num) : bool :=
  match a with
  | Fin r => if Req_dec_T r 0 then false else true
  | PInf | NInf => true
  | NaN => false
  end.

(** *** three.js vectors

    [THREE.Vector3] and the methods of it that [Unit] calls, as three.js
    defines them: [divideScalar(s)] is [multiplyScalar(1 / s)],
    [normalize()] is [divideScalar(length() || 1)]. *)
Record Vector3 : Type := mkVector3 { x : num; y : num; z : num }.

Definition zero : Vector3 := mkVector3 (Fin 0) (Fin 0) (Fin 0).

Definition add (a b : Vector3) : Vector3 :=
  mkVector3 (nadd (x a) (x b)) (nadd (y a) (y b)) (nadd (z a) (z b)).

Definition subVectors (a b : Vector3) : Vector3 :=
  mkVector3 (nsub (x a) (x b)) (nsub (y a) (y b)) (nsub (z a) (z b)).

Definition multiplyScalar (a : Vector3) (s : num) : Vector3 :=
  mkVector3 (nmul (x a) s) (nmul (y a) s) (nmul (z a) s).

Definition divideScalar (a : Vector3) (s : num) : Vector3 :=
  multiplyScalar a (ndiv (Fin 1) s).

Definition lengthSq (a : Vector3) : num :=
  nadd (nadd (nmul (x a) (x a)) (nmul (y a) (y a))) (nmul (z a) (z a)).

Definition length (a : Vector3) : num := nsqrt (lengthSq a).

Definition normalize (a : Vector3) : Vector3 :=
  divideScalar a (if truthy (length a) then length a else Fin 1).

Definition distanceTo (a b : Vector3) : num := length (subVectors a b).

(** *** The unit *)

(** The fields of a [Unit] that its movement code reads and writes.
    [ref] stands for the identity of the object ([other === this]);
    [position] is [mesh.position], [rotationY] is [mesh.rotation.y]. *)
Record t : Type := mk {
  ref : nat;
  position : Vector3;
  rotationY : num;
  velocity : Vector3;
  maxSpeed : num;
  radius : num;
  path : list Vector3;
  currentWaypointIndex : nat;
  isMoving : bool
}.

(** [new Unit(scene, x, z)] *)
Definition new (r : nat) (px pz : num) : t :=
  {| ref := r; position := mkVector3 px (Fin 0) pz; rotationY := Fin 0;
     velocity := zero; maxSpeed := Fin 5; radius := Fin 0.5;
     path := []; currentWaypointIndex := 0; isMoving := false |}.

(** [setPath(path)]; [None] is an argument that is [undefined] or [null]. *)
Definition setPath (u : t) (p : option (list Vector3)) : t :=
  match p with
  | Some (w :: ws) =>
      {| ref := ref u; position := position u; rotationY := rotationY u;
         velocity := velocity u; maxSpeed := maxSpeed u; radius := radius u;
         path := w :: ws; currentWaypointIndex := 1; isMoving := true |}
  | _ =>
      {| ref := ref u; position := position u; rotationY := rotationY u;
         velocity := velocity u; maxSpeed := maxSpeed u; radius := radius u;
         path := path u; currentWaypointIndex := currentWaypointIndex u;
         isMoving := false |}
  end.

(** [a <= b]; false on NaN. *)
Definition nle (a b : num) : bool :=
  match a, b with
  | Fin x, Fin y => if Rle_dec x y then true else false
  | NaN, _ | _, NaN => false
  | NInf, _ => true
  | _, PInf => true
  | _, _ => false
  end.

Section Update.
(** [Math.atan2], used for the heading only. *)
Variable atan2 : num -> num -> num.

(** One turn of [for (let other of neighbors)]: the accumulated
    [separation] and [count]. *)
Definition separate (u : t) (acc : Vector3 * nat) (other : t) : Vector3 * nat :=
  let '(separation, count) := acc in
  if Nat.eqb (ref other) (ref u) then acc
  else
    let dist := distanceTo (position u) (position other) in
    if nlt dist (nadd (nadd (radius u) (radius other)) (Fin 0.2)) then
      let push := subVectors (position u) (position other) in
      let push := normalize push in
      let push := divideScalar push dist in
      (add separation push, S count)
    else acc.

(** The steering contribution [(desired - velocity) * gain], where
    [desired] is [dir] normalized and scaled to [maxSpeed]. *)
Definition steer (u : t) (dir : Vector3) (gain : R) : Vector3 :=
  multiplyScalar
    (subVectors (multiplyScalar (normalize dir) (maxSpeed u)) (velocity u))
    (Fin gain).

(** The path-following block: the acceleration it leaves, and the new
    cursor, moving flag and path.  [None]: [target] is [undefined] and
    [distanceTo(target)] throws a TypeError. *)
Definition follow (u : t) : option (Vector3 * nat * bool * list Vector3) :=
  if isMoving u && (0 <? Datatypes.length (path u))%nat then
    match path u !! currentWaypointIndex u with
    | None => None
    | Some target =>
        let dist := distanceTo (position u) target in
        let '(idx, moving, pth) :=
          if nlt dist (Fin 0.5) then
            if (Datatypes.length (path u) <=? S (currentWaypointIndex u))%nat
            then (S (currentWaypointIndex u), false, [])
            else (S (currentWaypointIndex u), true, path u)
          else (currentWaypointIndex u, true, path u) in
        Some (if moving
              then add zero (steer u (subVectors target (position u)) 2)
              else zero,
              idx, moving, pth)
    end
  else
    Some (add zero (multiplyScalar (velocity u) (Fin (-5))),
          currentWaypointIndex u, isMoving u, path u).

(** The velocity after integration and clamping. *)
Definition integrate (u : t) (acceleration : Vector3) (dt : num) : Vector3 :=
  let v := add (velocity u) (multiplyScalar acceleration dt) in
  if ngt (length v) (maxSpeed u)
  then multiplyScalar (normalize v) (maxSpeed u)
  else v.

(** [update(dt, neighbors)]; [None] when it throws. *)
Definition update (u : t) (dt : num) (neighbors : list t) : option t :=
  match follow u with
  | None => None
  | Some (acceleration, idx, moving, pth) =>
      let '(separation, count) := fold_left (separate u) neighbors (zero, O) in
      let acceleration :=
        if (0 <? count)%nat
        then add acceleration
                 (steer u (divideScalar separation (Fin (INR count))) 3)
        else acceleration in
      let v := integrate u acceleration dt in
      let move := multiplyScalar v dt in
      let move := mkVector3 (x move) (Fin 0) (z move) in
      Some {| ref := ref u;
              position := add (position u) move;
              rotationY := if ngt (lengthSq v) (Fin 0.1)
                           then atan2 (x v) (z v) else rotationY u;
              velocity := v;
              maxSpeed := maxSpeed u;
              radius := radius u;
              path := pth;
              currentWaypointIndex := idx;
              isMoving := moving |}
  end.

End Update.

End Unit.

(** ** The group command

    [moveSelectedUnits(target)] gives the [i]-th selected unit a target of
    its own and plans a path to it.  This module is the target
    computation; [n] is [selected.length], and the coordinates are exact
    rationals.  The command as a whole is in [Main] below. *)

Module Dispatcher.

(** [const spacing = 1.5] *)
Definition spacing : Q := 3 # 2.

(** [Math.ceil(Math.sqrt(selected.length))]: the least [c] with
    [n <= c * c]. *)
Definition cols (n : Z) : Z := Z.sqrt_up n.

(** [offsetX] and [offsetZ] of the unit at index [i]. *)
Definition offset (n i : Z) : Q * Q :=
  let col := i mod cols n in
  let row := i / cols n in
  (((inject_Z col - inject_Z (cols n) / 2) * spacing)%Q,
   ((inject_Z row - inject_Z (cols n) / 2) * spacing)%Q).

(** [unitTarget], as its [x] and [z]. *)
Definition unitTarget (n : Z) (target : Q * Q) (i : Z) : Q * Q :=
  ((target.1 + (offset n i).1)%Q, (target.2 + (offset n i).2)%Q).

End Dispatcher.

(** ** The main script

    The parts of the main script that compute: the obstacle map and the
    spawning of [init] and [resetScene], the frame loop [animate], and
    the group command [moveSelectedUnits] as a whole.  The scene graph,
    the camera and the DOM are left out.

    [Math.random()] is read off a stream: [random k] is the result of
    its [k]-th call, and each function takes the number [k] of calls made
    before it.  [Math.atan2] is a parameter, as in [Unit.update]. *)

Module Main.

Definition MAP_SIZE : Z := 50.
Definition GRID_SCALE : Q := 1.

(** A unit of the array [units]: the fields of the model [Unit.t], and
    the flag [selected], which [setPath] and [update] neither read nor
    write. *)
Record actor : Type := mkActor { unit : Unit.t; selected : bool }.

(** The globals that the functions below read and write; [draws] counts
    the calls of [Math.random]. *)
Record state : Type := mkState {
  pathfinder : Pathfinder.t;
  obstacles : list Pathfinder.Vector3; (* the positions of the meshes *)
  units : list actor;
  draws : nat
}.

(** A waypoint of the planner as a vector of the steering code. *)
Definition waypoint (v : Pathfinder.Vector3) : Unit.Vector3 :=
  Unit.mkVector3 (Unit.Fin (Q2R (Pathfinder.vx v)))
                 (Unit.Fin (Q2R (Pathfinder.vy v)))
                 (Unit.Fin (Q2R (Pathfinder.vz v))).

Section Script.
Variable random : nat -> Q.
Variable atan2 : Unit.num -> Unit.num -> Unit.num.

(** [Math.floor((Math.random() - 0.5) * MAP_SIZE)] *)
Definition randomCell (k : nat) : Z :=
  Qfloor ((random k - (1 # 2)) * inject_Z MAP_SIZE)%Q.

(** The [for (let i = 0; i < 80; i++)] loop of [generateMap], with [n]
    turns to go. *)
Fixpoint generateLoop (n k : nat) (pf : Pathfinder.t)
    (obs : list Pathfinder.Vector3) : Pathfinder.t * list Pathfinder.Vector3 :=
  match n with
  | O => (pf, obs)
  | S n' =>
      let x := randomCell k in
      let z := randomCell (S k) in
      if (Z.abs x <? 5) && (Z.abs z <? 5) then generateLoop n' (2 + k) pf obs
      else if Pathfinder.isWalkableAt pf (inject_Z x) (inject_Z z) then
        generateLoop n' (2 + k)
          (Pathfinder.setObstacle pf (inject_Z x) (inject_Z z) true)
          (obs ++ [Pathfinder.mkVector3 (inject_Z x * GRID_SCALE) 1
                                        (inject_Z z * GRID_SCALE)])
      else generateLoop n' (2 + k) pf obs
  end.

(** [generateMap()]: the old obstacles are dropped, the new ones are
    drawn. *)
Definition generateMap (k : nat) (pf : Pathfinder.t)
    : Pathfinder.t * list Pathfinder.Vector3 :=
  generateLoop 80 k pf [].

(** [(Math.random() - 0.5) * 10 - 15] *)
Definition randomSpawn (k : nat) : Q := ((random k - (1 # 2)) * 10 - 15)%Q.

(** The [for (let i = 0; i < 10; i++)] loop of [init] and [resetScene].
    A new unit is a new object: its identity is the number of units made
    before it. *)
Fixpoint spawnLoop (n k : nat) (pf : Pathfinder.t) (us : list actor)
    : list actor :=
  match n with
  | O => us
  | S n' =>
      let x := randomSpawn k in
      let z := randomSpawn (S k) in
      spawnLoop n' (2 + k) pf
        (if Pathfinder.isWalkableAt pf x z
         then us ++ [mkActor (Unit.new (length us) (Unit.Fin (Q2R x))
                                       (Unit.Fin (Q2R z))) false]
         else us)
  end.

(** [resetScene()]; [init()] builds the same state. *)
Definition resetScene (k : nat) : state :=
  let pf := Pathfinder.new MAP_SIZE MAP_SIZE GRID_SCALE in
  let '(pf, obs) := generateMap k pf in
  {| pathfinder := pf; obstacles := obs;
     units := spawnLoop 10 (160 + k) pf []; draws := 180 + k |}.

(** [units.forEach(unit => unit.update(dt, units))], from index [i] with
    [n] units to go: every unit is updated in place, so a unit sees the
    units before it as already updated.  The flag tells whether the loop
    came to its end; it does not when an [update] throws. *)
Fixpoint updateLoop (dt : Unit.num) (n i : nat) (us : list actor)
    : list actor * bool :=
  match n with
  | O => (us, true)
  | S n' =>
      match us !! i with
      | None => (us, true)
      | Some a =>
          match Unit.update atan2 (unit a) dt (unit <$> us) with
          | None => (us, false)
          | Some u' => updateLoop dt n' (S i) (<[i := mkActor u' (selected a)]> us)
          end
      end
  end.

(** [animate()], for the time step [dt] that [clock.getDelta()] gives:
    the units after the frame, and whether [renderer.render] was
    reached. *)
Definition animate (dt : Unit.num) (us : list actor) : list actor * bool :=
  updateLoop dt (length us) 0 us.

(** The frames for the time steps [dts], one call of [animate] each, and
    the number of them that were rendered.  [animate] asks for the next
    frame before anything else, so a throw ends the frame and not the
    loop. *)
Fixpoint frames (dts : list Unit.num) (us : list actor) : list actor * nat :=
  match dts with
  | [] => (us, O)
  | dt :: dts' =>
      let '(us', rendered) := animate dt us in
      let '(us'', n) := frames dts' us' in
      (us'', ((if rendered then 1 else 0) + n)%nat)
  end.

Context {F : Type} {C : Pathfinder.Cost F}.

(** The rational that the planner reads for a coordinate of a unit.  The
    steering code is modelled over the reals and the planner over the
    rationals; the reading of the one as the other is a parameter, and
    what is proved of the command holds for every reading. *)
Variable coordinate : Unit.num -> Q.

(** The body of [selected.forEach((unit, i) => ...)] for one unit, the
    debug line apart.  [None]: the planner ran out of its budget (it does
    not). *)
Definition order (pf : Pathfinder.t) (n : Z) (target : Q * Q) (i : Z)
    (u : Unit.t) : option Unit.t :=
  let unitTarget := Dispatcher.unitTarget n target i in
  match Pathfinder.findPath (F := F) pf
          (coordinate (Unit.x (Unit.position u)))
          (coordinate (Unit.z (Unit.position u)))
          unitTarget.1 unitTarget.2 with
  | None => None
  | Some path =>
      Some (if (0 <? length path)%nat
            then Unit.setPath u (Some (waypoint <$> path))
            else u)
  end.

(** The loop over the selected units, as a pass over [units] that counts
    the selected ones in [i]. *)
Fixpoint moveLoop (pf : Pathfinder.t) (n : Z) (target : Q * Q) (i : Z)
    (us : list actor) : option (list actor) :=
  match us with
  | [] => Some []
  | a :: us' =>
      if selected a then
        match order pf n target i (unit a), moveLoop pf n target (i + 1) us' with
        | Some u', Some r => Some (mkActor u' true :: r)
        | _, _ => None
        end
      else (a ::.) <$> moveLoop pf n target i us'
  end.

(** [moveSelectedUnits(target)] *)
Definition moveSelectedUnits (pf : Pathfinder.t) (target : Q * Q)
    (us : list actor) : option (list actor) :=
  let n := length (filter (fun a => selected a = true) us) in
  if (n =? 0)%nat then Some us
  else moveLoop pf (Z.of_nat n) target 0 us.

End Script.

End Main.

(** * The vocabulary of the statements

    Predicates over the model that the lemmas and theorems below are
    stated with, and the concrete grids and units they are run on. *)

(** Every pair of neighbours of the list is related by [R]. *)
Fixpoint chained {A : Type} (R : A -> A -> Prop) (l : list A) : Prop :=
  match l with
  | a :: (b :: _) as l' => R a b /\ chained R l'
  | _ => True
  end.

Section LineVocabulary.

(** The cells that the loop of [hasLineOfSight] visits on its way from
    [(x0, y0)], when no cell stops it: the same steps, without the test. *)
Fixpoint traceLoop (x1 y1 dx dy sx sy : Z) (fuel : nat) (x0 y0 err : Z)
    : list (Z * Z) :=
  match fuel with
  | O => []
  | S fuel' =>
      (x0, y0) ::
      if (x0 =? x1) && (y0 =? y1) then []
      else
        let e2 := 2 * err in
        let '(err1, x0') :=
          if - dy <? e2 then (err - dy, x0 + sx) else (err, x0) in
        let '(err2, y0') :=
          if e2 <? dx then (err1 + dx, y0 + sy) else (err1, y0) in
        traceLoop x1 y1 dx dy sx sy fuel' x0' y0' err2
  end.

(** The rasterized line from cell [(x0, y0)] to cell [(x1, y1)]. *)
Definition lineCells (x0 y0 x1 y1 : Z) : list (Z * Z) :=
  let dx := Z.abs (x1 - x0) in
  let dy := Z.abs (y1 - y0) in
  let sx := if x0 <? x1 then 1 else -1 in
  let sy := if y0 <? y1 then 1 else -1 in
  traceLoop x1 y1 dx dy sx sy (S (Z.to_nat (dx + dy))) x0 y0 (dx - dy).

End LineVocabulary.

Section PathfinderVocabulary.
Import Pathfinder.
Variable g : t.

(** [Pulled a rest out]: with the anchor on [a] and the points [rest]
    still ahead of it, the loop of [smoothPath] appends [out].  Each turn
    jumps to a point [b] of [rest]: the first one, or a later one seen
    from [a]; no point behind [b] is seen from [a]. *)
Inductive Pulled : Vector3 -> list Vector3 -> list Vector3 -> Prop :=
| Pulled_done (a : Vector3) : Pulled a [] []
| Pulled_jump (a b : Vector3) (skipped rest' out : list Vector3) :
    skipped = [] \/ hasLineOfSight g a b = true ->
    Forall (fun c => hasLineOfSight g a c = false) rest' ->
    Pulled b rest' out ->
    Pulled a (skipped ++ b :: rest') (b :: out).

(** Every consecutive pair of the list has line of sight. *)
Fixpoint allVisible (l : list Vector3) : Prop :=
  match l with
  | a :: (b :: _) as l' => hasLineOfSight g a b = true /\ allVisible l'
  | _ => True
  end.

(** [a] is directly followed by [b] somewhere in [l]. *)
Definition adjacentIn (a b : Vector3) (l : list Vector3) : Prop :=
  exists l1 l2, l = l1 ++ a :: b :: l2.

(** The tests that [findPath] applies to the move from cell [c] by
    [offset], the closed-set test apart. *)
Definition legal (c offset : Z * Z) : bool :=
  let nx := c.1 + offset.1 in
  let ny := c.2 + offset.2 in
  isValid g nx ny && negb (isBlocked g nx ny)
  && negb ((Z.abs offset.1 =? 1) && (Z.abs offset.2 =? 1)
           && (isBlocked g (c.1 + offset.1) c.2
               || isBlocked g c.1 (c.2 + offset.2))).

(** One move of the search from [c] to [c']. *)
Definition step (c c' : Z * Z) : Prop :=
  exists offset, offset ∈ neighbors
    /\ c' = (c.1 + offset.1, c.2 + offset.2) /\ legal c offset = true.

(** [c'] is one of the eight cells around [c]. *)
Definition adjacent8 (c c' : Z * Z) : Prop :=
  Z.max (Z.abs (c'.1 - c.1)) (Z.abs (c'.2 - c.2)) = 1.


(** Reachability by moves of the search. *)
Definition reachable (c c' : Z * Z) : Prop := rtc step c c'.


(** Every cell of the grid, row by row. *)
Definition cellList : list (Z * Z) :=
  (fun i => (i mod width g, i / width g)) <$> seqZ 0 (width g * height g).

(** The cells of the grid that are not closed yet: the measure of the
    search loop. *)
Definition remaining (closedList : gset (Z * Z)) : nat :=
  length (filter (fun c => c ∉ closedList) cellList).

Section SearchVocabulary.
Context {F : Type}.
Variables sx sy ex ey : Z.

(** The parent chain of a node is made of moves of the search and ends
    on the start cell. *)
Fixpoint good (n : node F) : Prop :=
  match node_parent n with
  | None => cell n = (sx, sy)
  | Some p => step (cell p) (cell n) /\ good p
  end.

(** The open list, given the closed set: its nodes are sound, they lie in
    the grid and outside the closed set, and no cell occurs twice. *)
Definition openOK (closedList : gset (Z * Z)) (openList : list (node F)) : Prop :=
  (forall n, n ∈ openList ->
     good n /\ isValid g (node_x n) (node_y n) = true /\ cell n ∉ closedList)
  /\ NoDup (cell <$> openList).


(** The invariant of the [while] loop of [findPath]. *)
Record searchInv (openList : list (node F)) (closedList : gset (Z * Z)) : Prop := {
  inv_open : openOK closedList openList;
  inv_closed_valid : forall c, c ∈ closedList -> isValid g c.1 c.2 = true;
  inv_closure : forall c c', c ∈ closedList -> step c c' ->
                  c' ∈ closedList \/ c' ∈ cell <$> openList;
  inv_start : (sx, sy) ∈ closedList \/ (sx, sy) ∈ cell <$> openList;
  inv_goal : (ex, ey) ∉ closedList
}.

End SearchVocabulary.

End PathfinderVocabulary.

Section GridVocabulary.
Import Pathfinder.

(** Every entry of the array is 0 or 1. *)
Definition binary (g : t) : Prop := Forall (fun v => v = 0 \/ v = 1) (grid g).

(** The grids that the constructor and calls of [setObstacle] make. *)
Inductive Built : t -> Prop :=
| Built_new (w h : Z) (s : Q) :
    0 <= w -> 0 <= h -> ~ (s == 0)%Q -> Built (new w h s)
| Built_setObstacle (g : t) (x z : Q) (b : bool) :
    Built g -> Built (setObstacle g x z b).

(** The number of entries that read as blocked. *)
Definition blockedCount (g : t) : nat :=
  length (filter (fun v => v = 1) (grid g)).

(** The cell of a world point. *)
Definition cellOf (g : t) (x z : Q) : Z * Z :=
  (toCell (scale g) (width g) x, toCell (scale g) (height g) z).

(** A grid of a size and a scale at which the doubles of the source keep
    the cell indices exact and the cell centers finite: at most [2^26]
    cells a side, and a scale between [2^-64] and [2^64] in magnitude. *)
Definition moderate (g : t) : Prop :=
  wf g /\ width g <= 2 ^ 26 /\ height g <= 2 ^ 26
  /\ (/ inject_Z (2 ^ 64) <= Qabs (scale g))%Q
  /\ (Qabs (scale g) <= inject_Z (2 ^ 64))%Q.

(** A cell index of a size at which the doubles of the source do the
    arithmetic of the line walk exactly. *)
Definition smallCell (c : Z * Z) : Prop :=
  Z.abs c.1 <= 2 ^ 26 /\ Z.abs c.2 <= 2 ^ 26.

End GridVocabulary.

Section PathfinderExamples.
Import Pathfinder.

(** Two by two cells, the cell (1, 1) blocked; three by three cells, all
    free. *)
Definition grid2 : t := setObstacle (new 2 2 1) 0 0 true.
Definition grid3 : t := new 3 3 1.

(** A grid of two cells whose first cell is blocked, and the centers of
    its two cells. *)
Definition gridB : t := setObstacle (new 2 1 1) (-1) 0 true.
Definition pointB0 : Vector3 := center gridB (0, 0).
Definition pointB1 : Vector3 := center gridB (1, 0).

(** Three by two cells, the cell (1, 0) blocked. *)
Definition gridK : t := setObstacle (new 3 2 1) 0 (-1) true.


(** Five by five cells; a wall fills column 2 but for row 2. *)
Definition gridWall : t :=
  foldl (fun g z => setObstacle g 0 z true) (new 5 5 1)
        [inject_Z (-2); inject_Z (-1); inject_Z 1; inject_Z 2].

End PathfinderExamples.

Section UnitVocabulary.
Import Unit.
Local Open Scope R_scope.

Definition nanV : Vector3 := mkVector3 NaN NaN NaN.

(** All three coordinates are finite. *)
Definition finiteV (v : Vector3) : Prop :=
  exists a b c, v = mkVector3 (Fin a) (Fin b) (Fin c).

(** The other units are finite and none of them stands on the position of
    the unit [u]. *)
Definition apart (u : t) (neighbors : list t) : Prop :=
  Forall (fun o => ref o <> ref u ->
            finiteV (position o) /\ (exists r, radius o = Fin r)
            /\ position o <> position u) neighbors.

(** A moving unit whose cursor is on the last waypoint of a path of
    three. *)
Definition unitOnPath : t :=
  {| ref := 0; position := zero; rotationY := Fin 0; velocity := zero;
     maxSpeed := Fin 5; radius := Fin 0.5;
     path := [zero; zero; zero]; currentWaypointIndex := 2; isMoving := true |}.

(** Two units created on the same spot, and a third one three units
    away. *)
Definition unitA : t := new 0 (Fin 0) (Fin 0).
Definition unitB : t := new 1 (Fin 0) (Fin 0).
Definition unitC : t := new 2 (Fin 3) (Fin 0).

(** A unit three tenths of a unit away from [unitA]. *)
Definition unitD : t := new 3 (Fin 0.3) (Fin 0).

(** An idle unit that slides along the x axis at speed 1. *)
Definition unitS : t :=
  {| ref := 4; position := zero; rotationY := Fin 0;
     velocity := mkVector3 (Fin 1) (Fin 0) (Fin 0);
     maxSpeed := Fin 5; radius := Fin 0.5;
     path := []; currentWaypointIndex := 0; isMoving := false |}.

End UnitVocabulary.

Section UnitRuns.
Import Unit.
Variable atan2 : num -> num -> num.

(** The cursor of the unit is on a waypoint of its path, or [update]
    does not read the waypoint (the unit is idle or its path is
    empty). *)
Definition onTrack (u : t) : bool :=
  negb (isMoving u && (0 <? Datatypes.length (path u))%nat)
  || (currentWaypointIndex u <? Datatypes.length (path u))%nat.

(** A call of one of the two methods that move a unit. *)
Inductive call : Type :=
| SetPath (p : option (list Vector3))
| Update (dt : num) (neighbors : list t).

(** The calls in turn; [None] once an [update] has thrown. *)
Fixpoint calls (u : t) (cs : list call) : option t :=
  match cs with
  | [] => Some u
  | SetPath p :: cs' => calls (setPath u p) cs'
  | Update dt neighbors :: cs' =>
      match update atan2 u dt neighbors with
      | Some u' => calls u' cs'
      | None => None
      end
  end.

(** The path is not made of one point alone. *)
Definition notSingle (c : call) : Prop :=
  match c with
  | SetPath (Some [_]) => False
  | _ => True
  end.

(** [other] is another unit near enough to push [u]: the test of the
    separation loop. *)
Definition pushes (u other : t) : bool :=
  negb (Nat.eqb (ref other) (ref u))
  && nlt (distanceTo (position u) (position other))
         (nadd (nadd (radius u) (radius other)) (Fin 0.2)).

(** Two numbers of one sign: both positive, both zero or both
    negative. *)
Definition sameSign (p q : R) : Prop :=
  (0 < p /\ 0 < q)%R \/ (p = 0 /\ q = 0)%R \/ (p < 0 /\ q < 0)%R.

(** A number that is zero or of a magnitude from [2^-64] to [2^64]: the
    products and quotients of a few such numbers neither underflow nor
    overflow as doubles. *)
Definition sized (r : R) : Prop :=
  (r = 0 \/ / 2 ^ 64 <= Rabs r <= 2 ^ 64)%R.

(** A vector of three finite coordinates of a magnitude up to [2^64]. *)
Definition boundedV (v : Vector3) (a b c : R) : Prop :=
  v = mkVector3 (Fin a) (Fin b) (Fin c)
  /\ (Rabs a <= 2 ^ 64 /\ Rabs b <= 2 ^ 64 /\ Rabs c <= 2 ^ 64)%R.

(** [other] is the unit [u] itself, or it stands clear of the reach of
    [u] by a tenth of a unit: the test of the separation loop fails with
    a margin that rounding does not bridge. *)
Definition outOfReach (u other : t) : Prop :=
  ref other = ref u
  \/ exists ux uy uz ox oy oz ru ro : R,
       boundedV (position u) ux uy uz /\ boundedV (position other) ox oy oz
       /\ radius u = Fin ru /\ radius other = Fin ro
       /\ (0 <= ru <= 2 ^ 20 /\ 0 <= ro <= 2 ^ 20
           /\ ru + ro + 0.3
              <= sqrt ((ux - ox) * (ux - ox) + (uy - oy) * (uy - oy)
                       + (uz - oz) * (uz - oz)))%R.

End UnitRuns.

Section MainVocabulary.
Import Main.

(** Every unit of the list has its cursor in order. *)
Definition allOnTrack (us : list actor) : bool :=
  forallb (fun a => onTrack (unit a)) us.

(** A grid of the size and the scale of the script. *)
Definition mapOK (pf : Pathfinder.t) : Prop :=
  Pathfinder.wf pf /\ binary pf
  /\ Pathfinder.width pf = MAP_SIZE /\ Pathfinder.height pf = MAP_SIZE
  /\ Pathfinder.scale pf = GRID_SCALE.

(** The cells that [generateMap] keeps clear: nine by nine cells in the
    middle of the grid. *)
Definition middle (gx gz : Z) : Prop := Z.abs (gx - 25) < 5 /\ Z.abs (gz - 25) < 5.

(** An obstacle mesh of the grid [pf]: it stands on integer coordinates
    [(x, 1, z)] off the middle, its point maps to the cell
    [(x + 25, z + 25)], which lies in the grid and is blocked, and the
    center of that cell is half a cell off the mesh along both axes. *)
Definition placed (pf : Pathfinder.t) (o : Pathfinder.Vector3) : Prop :=
  exists x z : Z,
    o = Pathfinder.mkVector3 (inject_Z x * GRID_SCALE) 1 (inject_Z z * GRID_SCALE)
    /\ ~ middle (x + 25) (z + 25)
    /\ cellOf pf (Pathfinder.vx o) (Pathfinder.vz o) = (x + 25, z + 25)
    /\ Pathfinder.isValid pf (x + 25) (z + 25) = true
    /\ Pathfinder.isBlocked pf (x + 25) (z + 25) = true
    /\ (Pathfinder.vx (Pathfinder.center pf (x + 25, z + 25)%Z)
        == Pathfinder.vx o + (1 # 2))%Q
    /\ (Pathfinder.vz (Pathfinder.center pf (x + 25, z + 25)%Z)
        == Pathfinder.vz o + (1 # 2))%Q.

(** A unit as [init] and [resetScene] make it: not selected, idle, at
    rest, on a walkable point of the grid. *)
Definition spawned (pf : Pathfinder.t) (a : actor) : Prop :=
  selected a = false
  /\ exists (r : nat) (x z : Q),
       unit a = Unit.new r (Unit.Fin (Q2R x)) (Unit.Fin (Q2R z))
       /\ Pathfinder.isWalkableAt pf x z = true.

(** The number of selected units before index [j]: the index that the
    unit at [j] has in the array [selected]. *)
Definition rank (us : list actor) (j : nat) : nat :=
  length (filter (fun a => selected a = true) (take j us)).

(** What a group command leaves of a unit [a] in [a']: the selection, the
    place and the velocity are the same, an unselected unit is the same
    altogether, and a unit that was moving still is. *)
Definition commanded (a a' : actor) : Prop :=
  selected a' = selected a
  /\ Unit.ref (unit a') = Unit.ref (unit a)
  /\ Unit.position (unit a') = Unit.position (unit a)
  /\ Unit.velocity (unit a') = Unit.velocity (unit a)
  /\ (selected a = false -> a' = a)
  /\ (Unit.isMoving (unit a) = true -> Unit.isMoving (unit a') = true).

(** A unit that was sent to a path of one point, and one that stands
    idle. *)
Definition actorStuck : actor :=
  mkActor (Unit.setPath unitA (Some [Unit.zero])) true.
Definition actorIdle : actor := mkActor unitC false.

End MainVocabulary.

(** * Proofs *)

(** ** Facts about the grid *)

Section GridFacts.
Import Pathfinder.

Lemma flat_index_bounds (w h x y : Z) :
  0 <= x < w -> 0 <= y < h -> 0 <= y * w + x < w * h.
Proof. intros Hx Hy. split; nia. Qed.

Lemma new_wf (w h : Z) (s : Q) :
  0 <= w -> 0 <= h -> ~ (s == 0)%Q -> wf (new w h s).
Proof.
  intros Hw Hh Hs. unfold wf, new; simpl.
  rewrite length_replicate. auto.
Qed.

Lemma setObstacle_wf (g : t) (x z : Q) (b : bool) :
  wf g -> wf (setObstacle g x z b).
Proof.
  intros (Hw & Hh & Hl & Hs). unfold setObstacle.
  destruct (_ && _); [|repeat split; auto].
  unfold wf; simpl. rewrite length_insert. auto.
Qed.

Lemma isValid_spec (g : t) (x y : Z) :
  isValid g x y = true <-> 0 <= x < width g /\ 0 <= y < height g.
Proof. unfold isValid. rewrite !andb_true_iff. lia. Qed.

Lemma gridAt_in_range (g : t) (x y : Z) :
  wf g -> isValid g x y = true ->
  exists v, gridAt g (y * width g + x) = Some v.
Proof.
  intros (Hw & Hh & Hl & _) Hv. apply isValid_spec in Hv as [Hx Hy].
  pose proof (flat_index_bounds _ _ _ _ Hx Hy) as Hi.
  unfold gridAt. destruct (Z.ltb_spec (y * width g + x) 0); [lia|].
  apply lookup_lt_is_Some. lia.
Qed.

(** The center of a cell maps back to the cell. *)
Lemma toCell_toWorld (s : Q) (dim c : Z) :
  ~ (s == 0)%Q -> toCell s dim (toWorld s dim c) = c.
Proof.
  intros Hs. unfold toCell, toWorld.
  assert (E : (((inject_Z c - inject_Z dim / 2) * s + s / 2) / s + inject_Z dim / 2
               == inject_Z c + (1 # 2))%Q) by (field; exact Hs).
  rewrite (Qfloor_comp _ _ E).
  apply Z.le_antisymm.
  - apply Z.lt_succ_r. rewrite Zlt_Qlt.
    apply Qle_lt_trans with (inject_Z c + (1 # 2))%Q; [apply Qfloor_le|].
    unfold Z.succ. rewrite inject_Z_plus.
    apply Qplus_lt_r. reflexivity.
  - rewrite <- (Qfloor_Z c) at 1. apply Qfloor_resp_le.
    rewrite <- (Qplus_0_r (inject_Z c)) at 1.
    apply Qplus_le_r. discriminate.
Qed.

Lemma isBlocked_outside_array (g : t) (x y : Z) :
  y * width g + x < 0 \/ Z.of_nat (length (grid g)) <= y * width g + x ->
  isBlocked g x y = false.
Proof.
  intros Hi. unfold isBlocked, gridAt.
  destruct (Z.ltb_spec (y * width g + x) 0); [reflexivity|].
  rewrite lookup_ge_None_2; [reflexivity | lia].
Qed.

Lemma outside_negb_isValid (g : t) (x y : Z) :
  (x <? 0) || (width g <=? x) || (y <? 0) || (height g <=? y)
  = negb (isValid g x y).
Proof.
  unfold isValid.
  destruct (Z.ltb_spec x 0), (Z.leb_spec (width g) x), (Z.ltb_spec y 0),
    (Z.leb_spec (height g) y), (Z.leb_spec 0 x), (Z.ltb_spec x (width g)),
    (Z.leb_spec 0 y), (Z.ltb_spec y (height g)); simpl; try reflexivity; lia.
Qed.

Lemma isWalkableAt_outside (g : t) (x z : Q) :
  inRange g x z = false -> isWalkableAt g x z = false.
Proof.
  unfold inRange, isWalkableAt. intros Hr.
  by rewrite outside_negb_isValid, Hr.
Qed.

(** Reading the cell that [setObstacle] has just written. *)
Lemma isWalkableAt_setObstacle (g : t) (x z : Q) (b : bool) :
  wf g -> inRange g x z = true ->
  isWalkableAt (setObstacle g x z b) x z = negb b.
Proof.
  intros (Hw & Hh & Hlen & _) Hr. unfold inRange in Hr.
  unfold setObstacle, isWalkableAt.
  set (gx := toCell (scale g) (width g) x) in *.
  set (gz := toCell (scale g) (height g) z) in *.
  change ((0 <=? gx) && (gx <? width g) && (0 <=? gz) && (gz <? height g))
    with (isValid g gx gz).
  rewrite Hr. cbn [width height scale grid].
  rewrite outside_negb_isValid.
  fold gx gz. rewrite Hr. cbn [negb].
  apply isValid_spec in Hr as [Hx Hz].
  pose proof (flat_index_bounds _ _ _ _ Hx Hz) as Hi.
  unfold gridAt. cbn [grid width].
  destruct (Z.ltb_spec (gz * width g + gx) 0); [lia|].
  rewrite list_lookup_insert_eq by lia.
  by destruct b.
Qed.

End GridFacts.

(** ** Line of sight always returns *)


Section LineOfSight.
Import Pathfinder.

(** [rx] and [ry] count the steps still to take along each axis: the
    error term is determined by them, no axis oversteps its end, and every
    turn of the loop that does not return takes a step.  So the loop
    returns within its budget, and it returns whether no visited cell is
    blocked; the visited cells end on the target, stay between the two
    ends, and each is one of the eight cells around the one before. *)
Lemma losLoop_trace (g : t) (x1 y1 dx dy sx sy : Z) :
  0 <= dx -> 0 <= dy -> (sx = 1 \/ sx = -1) -> (sy = 1 \/ sy = -1) ->
  forall (fuel : nat) (x0 y0 err rx ry : Z),
    0 <= rx <= dx -> 0 <= ry <= dy ->
    x1 = x0 + sx * rx -> y1 = y0 + sy * ry ->
    err = dx - dy + rx * dy - ry * dx ->
    rx + ry < Z.of_nat fuel ->
    let cells := traceLoop x1 y1 dx dy sx sy fuel x0 y0 err in
    losLoop g x1 y1 dx dy sx sy fuel x0 y0 err
    = Some (forallb (fun c => negb (isBlocked g c.1 c.2)) cells)
    /\ head cells = Some (x0, y0) /\ last cells = Some (x1, y1)
    /\ chained adjacent8 cells
    /\ Forall (fun c => 0 <= sx * (x1 - c.1) <= rx
                        /\ 0 <= sy * (y1 - c.2) <= ry) cells.
Proof.
  intros Hdx Hdy Hsx Hsy fuel.
  induction fuel as [|fuel IH]; intros x0 y0 err rx ry Hrx Hry Hx Hy He Hf.
  - lia.
  - cbn [losLoop traceLoop].
    assert (Hin : 0 <= sx * (x1 - (x0, y0).1) <= rx
                  /\ 0 <= sy * (y1 - (x0, y0).2) <= ry).
    { subst x1 y1. cbn [fst snd].
      split; destruct Hsx as [->| ->], Hsy as [->| ->]; lia. }
    destruct ((x0 =? x1) && (y0 =? y1)) eqn:Hend.
    { apply andb_true_iff in Hend as [Ex Ey].
      apply Z.eqb_eq in Ex, Ey. subst x0 y0. cbn.
      split; [by destruct (isBlocked g x1 y1)|].
      split; [reflexivity|]. split; [reflexivity|]. split; [exact I|].
      constructor; [exact Hin | constructor]. }
    assert (Hnz : 0 < rx \/ 0 < ry).
    { apply andb_false_iff in Hend as [E|E]; apply Z.eqb_neq in E; [left|right].
      - destruct (Z.eq_dec rx 0); [subst; lia | lia].
      - destruct (Z.eq_dec ry 0); [subst; lia | lia]. }
    assert (Hxstep : - dy < 2 * err -> 0 < rx).
    { intros E. destruct (Z.eq_dec rx 0) as [->|]; [exfalso | lia].
      assert (0 <= dx * (ry - 1)) by (apply Z.mul_nonneg_nonneg; lia). lia. }
    assert (Hystep : 2 * err < dx -> 0 < ry).
    { intros E. destruct (Z.eq_dec ry 0) as [->|]; [exfalso | lia].
      assert (0 <= dy * (rx - 1)) by (apply Z.mul_nonneg_nonneg; lia). lia. }
    destruct (Z.ltb_spec (- dy) (2 * err)) as [Ex|Ex];
      destruct (Z.ltb_spec (2 * err) dx) as [Ey|Ey];
      [ specialize (Hxstep Ex); specialize (Hystep Ey);
        destruct (IH (x0 + sx) (y0 + sy) (err - dy + dx) (rx - 1) (ry - 1))
          as (Hlos & Hhead & Hlast & Hch & Hbox); try lia
      | specialize (Hxstep Ex);
        destruct (IH (x0 + sx) y0 (err - dy) (rx - 1) ry)
          as (Hlos & Hhead & Hlast & Hch & Hbox); try lia
      | specialize (Hystep Ey);
        destruct (IH x0 (y0 + sy) (err + dx) rx (ry - 1))
          as (Hlos & Hhead & Hlast & Hch & Hbox); try lia
      | exfalso; lia ].
    all: cbn [forallb fst snd]; rewrite Hlos.
    all: split; [by destruct (isBlocked g x0 y0)|].
    all: split; [reflexivity|].
    all: match goal with
         | |- context [traceLoop ?a ?b ?c ?d ?e ?f ?n ?x ?y ?r] =>
             set (rest := traceLoop a b c d e f n x y r) in *
         end.
    all: destruct rest as [|c1 rest'] eqn:Hrest; [discriminate|].
    all: injection Hhead as ->.
    all: split; [by rewrite last_cons_cons|].
    all: split;
      [ split; [|exact Hch]; unfold adjacent8; cbn [fst snd];
        destruct Hsx as [->| ->], Hsy as [->| ->]; lia |].
    all: constructor; [exact Hin|].
    all: eapply Forall_impl; [exact Hbox|]; cbn beta; intros c Hc; lia.
Qed.

(** Line of sight between two cells: the rasterized line runs from the
    first cell to the second inside the box they span, by steps to one of
    the eight cells around, and the test holds exactly when none of its
    cells reads as blocked. *)
Lemma traceLoop_length (x1 y1 dx dy sx sy : Z) (fuel : nat) :
  forall x0 y0 err : Z,
    (length (traceLoop x1 y1 dx dy sx sy fuel x0 y0 err) <= fuel)%nat.
Proof.
  induction fuel as [|fuel IH]; intros x0 y0 err; cbn [traceLoop length]; [lia|].
  destruct ((x0 =? x1) && (y0 =? y1)); [cbn [length]; lia|].
  destruct (- dy <? 2 * err), (2 * err <? dx); cbv iota beta zeta;
    apply le_n_S, IH.
Qed.

Lemma cellLineOfSight_cells (g : t) (x0 y0 x1 y1 : Z) :
  let cells := lineCells x0 y0 x1 y1 in
  cellLineOfSight g x0 y0 x1 y1
  = Some (forallb (fun c => negb (isBlocked g c.1 c.2)) cells)
  /\ head cells = Some (x0, y0) /\ last cells = Some (x1, y1)
  /\ chained adjacent8 cells
  /\ Forall (fun c => Z.min x0 x1 <= c.1 <= Z.max x0 x1
                      /\ Z.min y0 y1 <= c.2 <= Z.max y0 y1) cells.
Proof.
  unfold cellLineOfSight, lineCells.
  set (sx := if x0 <? x1 then 1 else -1). set (sy := if y0 <? y1 then 1 else -1).
  assert (Hsx : sx = 1 \/ sx = -1) by (unfold sx; destruct (x0 <? x1); auto).
  assert (Hsy : sy = 1 \/ sy = -1) by (unfold sy; destruct (y0 <? y1); auto).
  destruct (losLoop_trace g x1 y1 (Z.abs (x1 - x0)) (Z.abs (y1 - y0)) sx sy
              ltac:(lia) ltac:(lia) Hsx Hsy
              (S (Z.to_nat (Z.abs (x1 - x0) + Z.abs (y1 - y0))))
              x0 y0 (Z.abs (x1 - x0) - Z.abs (y1 - y0))
              (Z.abs (x1 - x0)) (Z.abs (y1 - y0)))
    as (Hlos & Hhead & Hlast & Hch & Hbox).
  - lia.
  - lia.
  - unfold sx. destruct (Z.ltb_spec x0 x1); lia.
  - unfold sy. destruct (Z.ltb_spec y0 y1); lia.
  - lia.
  - lia.
  - split; [exact Hlos|]. split; [exact Hhead|]. split; [exact Hlast|].
    split; [exact Hch|].
    eapply Forall_impl; [exact Hbox|]. cbn beta. intros c [Hcx Hcy].
    unfold sx in Hcx. unfold sy in Hcy.
    destruct (Z.ltb_spec x0 x1), (Z.ltb_spec y0 y1); lia.
Qed.

(** Cells of the row just past the last one have flat indices past the
    array: the line between two of them is clear, though neither is a
    cell of the grid. *)
Lemma los_past_last_row (g : t) :
  wf g ->
  let a := center g (0, height g) in
  let b := center g (1, height g) in
  hasLineOfSight g a b = true
  /\ isWalkableAt g (vx a) (vz a) = false
  /\ isWalkableAt g (vx b) (vz b) = false.
Proof.
  intros (Hw & Hh & Hlen & Hs) a b.
  assert (Hout : forall x, 0 <= x -> isBlocked g x (height g) = false).
  { intros x Hx. apply isBlocked_outside_array. right. nia. }
  unfold hasLineOfSight, isWalkableAt, a, b, center. cbn [vx vz fst snd].
  rewrite !toCell_toWorld by exact Hs.
  split; [|split].
  - unfold cellLineOfSight.
    replace (height g - height g) with 0 by lia.
    change (Z.abs (1 - 0)) with 1. change (Z.abs 0) with 0.
    rewrite Z.ltb_irrefl. change (0 <? 1) with true.
    change (Z.to_nat (1 + 0)) with 1%nat.
    cbn [losLoop]. rewrite Hout by lia.
    change ((0 =? 1) && (height g =? height g)) with false.
    change (- 0 <? 2 * (1 - 0)) with true.
    change (2 * (1 - 0) <? 1) with false.
    cbv iota beta zeta. change (0 + 1) with 1.
    rewrite Hout by lia. by rewrite !Z.eqb_refl.
  - rewrite Z.leb_refl. by rewrite !orb_true_r.
  - rewrite Z.leb_refl. by rewrite !orb_true_r.
Qed.



End LineOfSight.

(** ** String pulling: what the loop computes *)

Section StringPulling.
Import Pathfinder.
Variable g : t.

Lemma lookAhead_spec (pre : list Vector3) (a : Vector3) (rest : list Vector3)
    (k : nat) :
  (k < length rest)%nat ->
  exists j b,
    (j <= k)%nat /\
    lookAhead g (pre ++ a :: rest) (length pre) k = Some (length pre + 1 + j)%nat /\
    rest !! j = Some b /\
    (j = O \/ hasLineOfSight g a b = true) /\
    (forall i c, (j < i <= k)%nat -> rest !! i = Some c ->
                 hasLineOfSight g a c = false).
Proof.
  induction k as [|k IH]; intros Hk.
  - destruct rest as [|b rest]; [simpl in Hk; lia|].
    exists O, b. simpl.
    split; [lia|]. split; [f_equal; lia|]. split; [reflexivity|].
    split; [by left|]. intros i c Hi. lia.
  - cbn [lookAhead].
    rewrite list_lookup_middle by reflexivity.
    replace (length pre + 1 + S k)%nat with (length pre + S (S k))%nat by lia.
    rewrite lookup_app_r by lia.
    replace (length pre + S (S k) - length pre)%nat with (S (S k)) by lia.
    change ((a :: rest) !! S (S k)) with (rest !! S k).
    destruct (lookup_lt_is_Some_2 rest (S k) Hk) as [b Hb]. rewrite Hb.
    destruct (hasLineOfSight g a b) eqn:Hlos.
    + exists (S k), b.
      split; [lia|]. split; [f_equal; lia|]. split; [exact Hb|].
      split; [by right|]. intros i c Hi. lia.
    + destruct IH as (j & b' & Hj & Hl & Hb' & Hor & Hall); [lia|].
      exists j, b'.
      split; [lia|]. split; [exact Hl|]. split; [exact Hb'|].
      split; [exact Hor|].
      intros i c Hi Hc.
      destruct (decide (i = S k)) as [->|Hne].
      * congruence.
      * apply (Hall i c); [lia | exact Hc].
Qed.

Lemma smoothLoop_spec (fuel : nat) :
  forall (pre : list Vector3) (a : Vector3) (rest acc : list Vector3),
    (length rest <= fuel)%nat ->
    exists out,
      smoothLoop g (pre ++ a :: rest) fuel (length pre) acc = Some (acc ++ out)
      /\ Pulled g a rest out.
Proof.
  induction fuel as [|fuel IH]; intros pre a rest acc Hf.
  - destruct rest; [|simpl in Hf; lia].
    exists []. split; [|constructor].
    simpl. rewrite length_app. simpl.
    destruct (Nat.ltb_spec (length pre) (length pre + 1 - 1)); [lia|].
    by rewrite app_nil_r.
  - cbn [smoothLoop]. rewrite length_app. cbn [length].
    destruct rest as [|r0 rest0].
    { exists []. split; [|constructor]. simpl.
      destruct (Nat.ltb_spec (length pre) (length pre + 1 - 1)); [lia|].
      by rewrite app_nil_r. }
    remember (r0 :: rest0) as rest eqn:Hrest.
    assert (Hlen : length rest = S (length rest0)) by (subst rest; reflexivity).
    clear Hrest.
    destruct (Nat.ltb_spec (length pre) (length pre + S (length rest) - 1)); [|lia].
    replace (length pre + S (length rest) - length pre - 2)%nat
      with (length rest0) by lia.
    destruct (lookAhead_spec pre a rest (length rest0))
      as (j & b & Hj & Hl & Hb & Hor & Hall); [lia|].
    rewrite Hl.
    replace (length pre + 1 + j)%nat with (length pre + S j)%nat by lia.
    rewrite lookup_app_r by lia.
    replace (length pre + S j - length pre)%nat with (S j) by lia.
    change ((a :: rest) !! S j) with (rest !! j). rewrite Hb.
    pose proof (take_drop_middle rest j b Hb) as Hsplit.
    assert (Hpre : pre ++ a :: rest
                   = (pre ++ a :: take j rest) ++ b :: drop (S j) rest).
    { rewrite <- app_assoc. simpl. by rewrite Hsplit. }
    assert (Hcur : (length pre + S j)%nat = length (pre ++ a :: take j rest)).
    { rewrite length_app. simpl. rewrite length_take.
      apply lookup_lt_Some in Hb. lia. }
    rewrite Hpre, Hcur.
    destruct (IH (pre ++ a :: take j rest) b (drop (S j) rest) (acc ++ [b]))
      as (out & Hout & HP).
    { rewrite length_drop. lia. }
    exists (b :: out). split.
    + rewrite Hout. by rewrite <- app_assoc.
    + rewrite <- Hsplit. constructor; auto.
      * destruct Hor as [->|Hlos]; [left; reflexivity | right; exact Hlos].
      * apply Forall_lookup. intros i c Hc.
        rewrite lookup_drop in Hc.
        apply (Hall (S j + i)%nat c); [|exact Hc].
        apply lookup_lt_Some in Hc. lia.
Qed.

Lemma adjacentIn_cons (x y a : Vector3) (l : list Vector3) :
  adjacentIn x y (a :: l) ->
  (x = a /\ exists l', l = y :: l') \/ adjacentIn x y l.
Proof.
  intros (l1 & l2 & E). destruct l1 as [|c l1]; simpl in E.
  - injection E as -> ->. left. eauto.
  - injection E as -> ->. right. by exists l1, l2.
Qed.

Lemma adjacentIn_app_r (x y : Vector3) (l0 l : list Vector3) :
  adjacentIn x y l -> adjacentIn x y (l0 ++ l).
Proof.
  intros (l1 & l2 & ->). exists (l0 ++ l1), l2. by rewrite <- app_assoc.
Qed.

Lemma Pulled_length (a : Vector3) (rest out : list Vector3) :
  Pulled g a rest out -> (length out <= length rest)%nat.
Proof.
  induction 1 as [|a b sk rest' out _ _ _ IH]; [reflexivity|].
  rewrite length_app. simpl. lia.
Qed.

Lemma Pulled_last (a : Vector3) (rest out : list Vector3) :
  Pulled g a rest out -> last (a :: out) = last (a :: rest).
Proof.
  induction 1 as [|a b sk rest' out _ _ _ IH]; [reflexivity|].
  rewrite last_cons_cons, IH.
  change (a :: sk ++ b :: rest') with ((a :: sk) ++ b :: rest').
  rewrite last_app.
  destruct (last (b :: rest')) eqn:E; [reflexivity|].
  by apply last_None in E.
Qed.




(** A pair of neighbours of the output was seen, or was a pair of
    neighbours already. *)
Lemma Pulled_adjacent (a : Vector3) (rest out : list Vector3) :
  Pulled g a rest out ->
  forall x y, adjacentIn x y (a :: out) ->
    hasLineOfSight g x y = true \/ adjacentIn x y (a :: rest).
Proof.
  induction 1 as [|a b sk rest' out Hor _ _ IH]; intros x y Hxy.
  - by right.
  - apply adjacentIn_cons in Hxy as [(-> & l' & E)|Hxy].
    + injection E as -> _.
      destruct Hor as [->|Hv]; [right | by left].
      by exists [], rest'.
    + destruct (IH x y Hxy) as [Hv|Hadj]; [by left | right].
      change (a :: sk ++ b :: rest') with ((a :: sk) ++ b :: rest').
      by apply adjacentIn_app_r.
Qed.

Lemma allVisible_adjacent (l : list Vector3) :
  allVisible g l <-> forall x y, adjacentIn x y l -> hasLineOfSight g x y = true.
Proof.
  induction l as [|a l IH].
  - split; [|done]. intros _ x y (l1 & l2 & E). by destruct l1.
  - destruct l as [|b l].
    + split; [|done]. intros _ x y (l1 & l2 & E).
      destruct l1 as [|? [|? ?]]; discriminate.
    + cbn [allVisible]. rewrite IH. split.
      * intros [Hab Hl] x y Hxy.
        apply adjacentIn_cons in Hxy as [(-> & l' & E)|Hxy]; [|by apply Hl].
        by injection E as <- _.
      * intros Hl. split.
        -- apply Hl. by exists [], l.
        -- intros x y Hxy. apply Hl.
           by apply (adjacentIn_app_r x y [a]).
Qed.

(** [smoothPath] on a path of three points or more. *)
Lemma smoothPath_long (p0 : Vector3) (rest : list Vector3) :
  (2 <= length rest)%nat ->
  exists out, smoothPath g (p0 :: rest) = Some (p0 :: out) /\ Pulled g p0 rest out.
Proof.
  intros Hlen. unfold smoothPath. cbn [length].
  destruct (Nat.leb_spec (S (length rest)) 2); [lia|].
  destruct (smoothLoop_spec (S (length rest)) [] p0 rest [p0]) as (out & E & HP);
    [lia|].
  exists out. split; [exact E | exact HP].
Qed.

Lemma smoothPath_short (p : list Vector3) :
  (length p <= 2)%nat -> smoothPath g p = Some p.
Proof.
  intros Hlen. unfold smoothPath.
  destruct (Nat.leb_spec (length p) 2); [reflexivity | lia].
Qed.

(** [smoothPath] returns; its result is no longer than the input and has
    the same first and last point. *)
Lemma smoothPath_ends (p : list Vector3) :
  exists r, smoothPath g p = Some r
    /\ (length r <= length p)%nat /\ head r = head p /\ last r = last p.
Proof.
  destruct (Nat.le_gt_cases (length p) 2) as [Hshort|Hlong].
  - exists p. split; [by apply smoothPath_short | auto].
  - destruct p as [|p0 rest]; [simpl in Hlong; lia|].
    destruct (smoothPath_long p0 rest) as (out & E & HP);
      [simpl in Hlong; lia|].
    exists (p0 :: out). split; [exact E|]. split; [|split].
    + simpl. pose proof (Pulled_length _ _ _ HP). lia.
    + reflexivity.
    + by apply Pulled_last.
Qed.

(** Two consecutive points of the output have line of sight or are two
    consecutive points of the input. *)
Lemma smoothPath_pairs (p r : list Vector3) :
  smoothPath g p = Some r ->
  forall a b, adjacentIn a b r ->
    hasLineOfSight g a b = true \/ adjacentIn a b p.
Proof.
  intros Hr.
  destruct (Nat.le_gt_cases (length p) 2) as [Hshort|Hlong].
  - rewrite smoothPath_short in Hr by exact Hshort.
    injection Hr as <-. auto.
  - destruct p as [|p0 rest]; [simpl in Hlong; lia|].
    destruct (smoothPath_long p0 rest) as (out & E & HP);
      [simpl in Hlong; lia|].
    rewrite E in Hr. injection Hr as <-.
    by apply Pulled_adjacent.
Qed.

Lemma smoothPath_visible (p r : list Vector3) :
  smoothPath g p = Some r -> allVisible g p -> allVisible g r.
Proof.
  intros Hr. rewrite !allVisible_adjacent. intros Hp a b Hab.
  destruct (smoothPath_pairs p r Hr a b Hab) as [?|Hin]; [done | by apply Hp].
Qed.

End StringPulling.

(** ** The search: moves, nodes and the loop invariant *)

Lemma chained_snoc {A : Type} (R : A -> A -> Prop) (l : list A) (a : A) :
  chained R l -> (forall b, last l = Some b -> R b a) -> chained R (l ++ [a]).
Proof.
  induction l as [|x l IH]; intros Hl Hlast; [exact I|].
  destruct l as [|y l].
  - simpl. split; [|exact I]. by apply Hlast.
  - destruct Hl as [Hxy Hl]. cbn [app chained]. split; [exact Hxy|].
    apply IH; [exact Hl|]. intros b Hb. apply Hlast.
    by rewrite last_cons_cons.
Qed.


Section Moves.
Import Pathfinder.
Variable g : t.






End Moves.

Section SearchInvariant.
Import Pathfinder.
Context {F : Type} {C : Cost F}.
Variable g : t.
Variables sx sy ex ey : Z.

Lemma node_parent_ind (P : node F -> Prop) :
  (forall x y cg ch cf, P (Node x y cg ch cf None)) ->
  (forall x y cg ch cf p, P p -> P (Node x y cg ch cf (Some p))) ->
  forall n : node F, P n.
Proof.
  intros Hroot Hpar. fix IH 1. intros [x y cg ch cf [p|]].
  - apply Hpar, IH.
  - apply Hroot.
Qed.

Lemma findIndex_None (nx ny : Z) (l : list (node F)) :
  findIndex nx ny l = None -> (nx, ny) ∉ cell <$> l.
Proof.
  induction l as [|n l IH]; simpl; intros E.
  - apply not_elem_of_nil.
  - destruct ((node_x n =? nx) && (node_y n =? ny)) eqn:Hn; [discriminate|].
    destruct (findIndex nx ny l); [discriminate|].
    apply not_elem_of_cons. split; [|by apply IH].
    intros Heq. unfold cell in Heq. injection Heq as -> ->.
    by rewrite !Z.eqb_refl in Hn.
Qed.

Lemma findIndex_Some (nx ny : Z) (l : list (node F)) (i : nat) :
  findIndex nx ny l = Some i -> exists n, l !! i = Some n /\ cell n = (nx, ny).
Proof.
  revert i. induction l as [|n l IH]; simpl; intros i E; [discriminate|].
  destruct ((node_x n =? nx) && (node_y n =? ny)) eqn:Hn.
  - injection E as <-. exists n. split; [reflexivity|].
    apply andb_true_iff in Hn as [Hx Hy].
    apply Z.eqb_eq in Hx, Hy. unfold cell. congruence.
  - destruct (findIndex nx ny l) as [j|]; [|discriminate].
    injection E as <-. by apply IH.
Qed.

Lemma lowestScan_lt (l : list (node F)) (i lowest : nat) (f : F) :
  (lowest < i)%nat -> (lowestScan l i lowest f < i + length l)%nat.
Proof.
  revert i lowest f. induction l as [|n l IH]; intros i lowest f Hlt; simpl.
  - lia.
  - destruct (clt (node_f n) f).
    + specialize (IH (S i) i (node_f n)). lia.
    + specialize (IH (S i) lowest f). lia.
Qed.

Lemma lowestIndex_lt (l : list (node F)) :
  (0 < length l)%nat -> (lowestIndex l < length l)%nat.
Proof.
  destruct l as [|n l]; simpl; [lia|]. intros _.
  pose proof (lowestScan_lt l 1 0 (node_f n)). lia.
Qed.

(** One neighbour turn keeps the open list sound, loses no cell, and
    leaves the target of a legal move closed or open. *)
Lemma visit_ok (closedList : gset (Z * Z)) (current : node F)
    (openList : list (node F)) (offset : Z * Z) :
  good g sx sy current -> offset ∈ neighbors -> openOK g sx sy closedList openList ->
  openOK g sx sy closedList (visit g ex ey closedList current openList offset)
  /\ (forall c, c ∈ cell <$> openList ->
         c ∈ cell <$> visit g ex ey closedList current openList offset)
  /\ (legal g (cell current) offset = true ->
       let c' := (node_x current + offset.1, node_y current + offset.2) in
       c' ∈ closedList
       \/ c' ∈ cell <$> visit g ex ey closedList current openList offset).
Proof.
  intros Hgood Hoff [Hnodes Hnodup]. unfold visit, legal. cbn [cell fst snd].
  set (nx := node_x current + offset.1). set (ny := node_y current + offset.2).
  destruct (isValid g nx ny) eqn:Hv; cbn [negb orb andb];
    [|split; [by split|split; [auto|discriminate]]].
  destruct (isBlocked g nx ny) eqn:Hb; cbn [negb orb andb];
    [split; [by split|split; [auto|discriminate]]|].
  destruct (bool_decide ((nx, ny) ∈ closedList)) eqn:Hc.
  { apply bool_decide_eq_true in Hc.
    split; [by split|split; [auto|]]. intros _. by left. }
  apply bool_decide_eq_false in Hc.
  destruct ((Z.abs offset.1 =? 1) && (Z.abs offset.2 =? 1)
            && (isBlocked g nx (node_y current)
                || isBlocked g (node_x current) ny)) eqn:Hd; cbn [negb];
    [split; [by split|split; [auto|discriminate]]|].
  assert (Hstep : step g (cell current) (nx, ny)).
  { exists offset. split; [exact Hoff|]. split; [reflexivity|].
    unfold legal. cbn [cell fst snd]. fold nx ny. by rewrite Hv, Hb, Hd. }
  destruct (findIndex nx ny openList) as [i|] eqn:Hfi.
  - destruct (findIndex_Some _ _ _ _ Hfi) as (nb & Hnb & Hcell).
    rewrite Hnb.
    assert (Hin : (nx, ny) ∈ cell <$> openList).
    { rewrite <- Hcell. apply list_elem_of_fmap_2.
      by apply list_elem_of_lookup_2 with i. }
    destruct (clt _ (node_g nb)); [|split; [by split|split; [auto|by right]]].
    set (nb' := Node (node_x nb) (node_y nb) _ _ _ (Some current)).
    assert (Hcells : cell <$> <[i:=nb']> openList = cell <$> openList).
    { rewrite list_fmap_insert. apply list_insert_id.
      rewrite list_lookup_fmap, Hnb. reflexivity. }
    split; [|rewrite Hcells; split; [auto|by right]].
    split; [|by rewrite Hcells].
    intros n Hn. apply list_elem_of_lookup in Hn as [j Hj].
    apply list_lookup_insert_Some in Hj as [(<- & <- & _)|(_ & Hj)].
    + destruct (Hnodes nb) as (_ & Hvalid & Hncl);
        [by apply list_elem_of_lookup_2 with i|].
      split; [|split; [exact Hvalid | exact Hncl]].
      cbn [good node_parent]. split; [|exact Hgood].
      change (step g (cell current) (cell nb)). by rewrite Hcell.
    + apply Hnodes. by apply list_elem_of_lookup_2 with j.
  - apply findIndex_None in Hfi.
    set (nn := Node nx ny _ _ _ (Some current)).
    assert (Hcells : cell <$> (openList ++ [nn]) = (cell <$> openList) ++ [(nx, ny)])
      by (by rewrite fmap_app).
    split; [|split].
    + split.
      * intros n Hn. apply elem_of_app in Hn as [Hn|Hn]; [by apply Hnodes|].
        apply list_elem_of_singleton in Hn as ->.
        split; [by split|]. by split.
      * rewrite Hcells. apply NoDup_app. split; [exact Hnodup|]. split.
        -- intros c Hc1 Hc2. apply list_elem_of_singleton in Hc2 as ->. by apply Hfi.
        -- apply NoDup_singleton.
    + intros c Hin. rewrite Hcells. apply elem_of_app. by left.
    + intros _. right. rewrite Hcells. apply elem_of_app. right.
      by apply list_elem_of_singleton.
Qed.

Lemma visits_ok (closedList : gset (Z * Z)) (current : node F)
    (offsets : list (Z * Z)) :
  good g sx sy current -> (forall o, o ∈ offsets -> o ∈ neighbors) ->
  forall openList, openOK g sx sy closedList openList ->
  let openList' := foldl (visit g ex ey closedList current) openList offsets in
  openOK g sx sy closedList openList'
  /\ (forall c, c ∈ cell <$> openList -> c ∈ cell <$> openList')
  /\ (forall o, o ∈ offsets -> legal g (cell current) o = true ->
       (node_x current + o.1, node_y current + o.2) ∈ closedList
       \/ (node_x current + o.1, node_y current + o.2) ∈ cell <$> openList').
Proof.
  intros Hgood. induction offsets as [|o offsets IH]; intros Hsub openList Hok.
  - cbn. split; [exact Hok|]. split; [auto|].
    intros o Ho. by apply elem_of_nil in Ho.
  - cbn [foldl].
    destruct (visit_ok closedList current openList o Hgood) as (Hok1 & Hmono1 & Ho1);
      [apply Hsub, elem_of_cons; by left | exact Hok |].
    destruct (IH (fun o' Ho' => Hsub o' (proj2 (elem_of_cons _ _ _) (or_intror Ho')))
                 _ Hok1) as (Hok2 & Hmono2 & Ho2).
    split; [exact Hok2|]. split; [auto|].
    intros o' Ho' Hlegal. apply elem_of_cons in Ho' as [->|Ho'].
    + destruct (Ho1 Hlegal) as [?|?]; [by left | right; by apply Hmono2].
    + by apply Ho2.
Qed.

Lemma cellList_valid (c : Z * Z) :
  isValid g c.1 c.2 = true -> c ∈ cellList g.
Proof.
  intros Hv. apply isValid_spec in Hv as [Hx Hy].
  pose proof (flat_index_bounds _ _ _ _ Hx Hy) as Hi.
  unfold cellList. apply list_elem_of_fmap. exists (c.2 * width g + c.1). split.
  - destruct c as [x y]; simpl in *. f_equal.
    + rewrite Z.add_comm, Z.mod_add by lia. apply eq_sym, Z.mod_small. lia.
    + rewrite Z.add_comm, Z.div_add by lia. rewrite Z.div_small by lia. lia.
  - apply elem_of_seqZ. lia.
Qed.

Lemma remaining_bound (closedList : gset (Z * Z)) :
  (remaining g closedList <= Z.to_nat (width g * height g))%nat.
Proof.
  unfold remaining. etrans; [apply length_filter|].
  unfold cellList. by rewrite length_fmap, length_seqZ.
Qed.

Lemma remaining_insert (closedList : gset (Z * Z)) (c : Z * Z) :
  isValid g c.1 c.2 = true -> c ∉ closedList ->
  (remaining g ({[ c ]} ∪ closedList) < remaining g closedList)%nat.
Proof.
  intros Hv Hc. unfold remaining.
  rewrite (list_filter_iff (fun c' => c' ∉ {[ c ]} ∪ closedList)
             (fun c' => c' ≠ c /\ c' ∉ closedList))
    by (intros c'; rewrite not_elem_of_union, not_elem_of_singleton; tauto).
  rewrite <- list_filter_filter.
  apply length_filter_lt with c.
  - apply list_elem_of_filter. split; [exact Hc | by apply cellList_valid].
  - intros Hne. by apply Hne.
Qed.

(** One turn of the [while] loop keeps the invariant and closes one more
    cell of the grid. *)
Lemma searchInv_step (openList : list (node F)) (closedList : gset (Z * Z))
    (current : node F) :
  searchInv g sx sy ex ey openList closedList ->
  openList !! lowestIndex openList = Some current ->
  (node_x current =? ex) && (node_y current =? ey) = false ->
  let closedList' := {[ cell current ]} ∪ closedList in
  searchInv g sx sy ex ey (foldl (visit g ex ey closedList' current)
                   (delete (lowestIndex openList) openList) neighbors)
            closedList'
  /\ (remaining g closedList' < remaining g closedList)%nat.
Proof.
  intros [[Hnodes Hnodup] Hcv Hclosure Hstart Hgoal] Hcur Hne closedList'.
  set (i := lowestIndex openList) in *.
  assert (Hin : current ∈ openList) by (by apply list_elem_of_lookup_2 with i).
  destruct (Hnodes current Hin) as (Hgood & Hvalid & Hncl).
  pose proof (delete_Permutation openList i current Hcur) as Hperm.
  assert (Hcperm : cell <$> openList
                   ≡ₚ cell current :: (cell <$> delete i openList))
    by (by rewrite Hperm at 1).
  rewrite Hcperm in Hnodup. apply NoDup_cons in Hnodup as [Hfresh Hnodup'].
  assert (Hok : openOK g sx sy closedList' (delete i openList)).
  { split; [|exact Hnodup']. intros n Hn.
    destruct (Hnodes n (list_elem_of_delete_inv _ _ _ Hn)) as (Hg & Hv & Hc).
    split; [exact Hg|]. split; [exact Hv|].
    unfold closedList'. rewrite not_elem_of_union, not_elem_of_singleton.
    split; [|exact Hc]. intros Heq. apply Hfresh. rewrite <- Heq.
    by apply list_elem_of_fmap_2. }
  destruct (visits_ok closedList' current neighbors Hgood (fun _ Ho => Ho) _ Hok)
    as (Hok' & Hmono & Hlegal).
  split; [|by apply remaining_insert].
  assert (Hopen : forall c, c ∈ cell <$> openList ->
            c ∈ closedList' \/
            c ∈ cell <$> foldl (visit g ex ey closedList' current)
                               (delete i openList) neighbors).
  { intros c Hc. rewrite Hcperm in Hc. apply elem_of_cons in Hc as [->|Hc].
    - left. apply elem_of_union. left. by apply elem_of_singleton.
    - right. by apply Hmono. }
  split.
  - exact Hok'.
  - intros c Hc. unfold closedList' in Hc.
    apply elem_of_union in Hc as [Hc|Hc]; [|by apply Hcv].
    apply elem_of_singleton in Hc as ->. exact Hvalid.
  - intros c c' Hc Hs. unfold closedList' in Hc.
    apply elem_of_union in Hc as [Hc|Hc].
    + apply elem_of_singleton in Hc as ->.
      destruct Hs as (o & Ho & -> & Hl). by apply Hlegal.
    + destruct (Hclosure c c' Hc Hs) as [Hc'|Hc']; [|by apply Hopen].
      left. apply elem_of_union. by right.
  - destruct Hstart as [Hs|Hs]; [|by apply Hopen].
    left. apply elem_of_union. by right.
  - unfold closedList'. rewrite not_elem_of_union, not_elem_of_singleton.
    split; [|exact Hgoal]. intros Heq. unfold cell in Heq.
    injection Heq as Hx Hy. by rewrite <- Hx, <- Hy, !Z.eqb_refl in Hne.
Qed.

(** The loop returns within its budget: with the goal node, or with the
    open list empty and the invariant still in force. *)
Lemma searchLoop_ok (fuel : nat) :
  forall (openList : list (node F)) (closedList : gset (Z * Z)),
    searchInv g sx sy ex ey openList closedList ->
    (remaining g closedList < fuel)%nat ->
    exists r, searchLoop g ex ey fuel openList closedList = Some r /\
      match r with
      | Some n => good g sx sy n /\ cell n = (ex, ey)
      | None => exists closedList', searchInv (F := F) g sx sy ex ey [] closedList'
      end.
Proof.
  induction fuel as [|fuel IH]; intros openList closedList Hinv Hfuel; [lia|].
  cbn [searchLoop].
  destruct (Nat.ltb_spec 0 (length openList)) as [Hlen|Hlen].
  - destruct (lookup_lt_is_Some_2 openList _ (lowestIndex_lt openList Hlen))
      as [current Hcur].
    rewrite Hcur.
    destruct ((node_x current =? ex) && (node_y current =? ey)) eqn:Hgoal.
    + exists (Some current). split; [reflexivity|].
      destruct Hinv as [[Hnodes _] _ _ _ _].
      destruct (Hnodes current) as (Hgood & _);
        [by apply list_elem_of_lookup_2 with (lowestIndex openList)|].
      split; [exact Hgood|].
      apply andb_true_iff in Hgoal as [Hx Hy]. apply Z.eqb_eq in Hx, Hy.
      unfold cell. congruence.
    + destruct (searchInv_step openList closedList current Hinv Hcur Hgoal)
        as [Hinv' Hrem].
      apply IH; [exact Hinv' | lia].
  - exists None. split; [reflexivity|]. exists closedList.
    destruct openList; [exact Hinv | simpl in Hlen; lia].
Qed.

(** With the open list empty the closed set holds every cell that moves
    of the search reach from the start, and not the goal. *)
Lemma searchInv_empty_unreachable (closedList : gset (Z * Z)) :
  searchInv (F := F) g sx sy ex ey [] closedList -> ~ reachable g (sx, sy) (ex, ey).
Proof.
  intros [_ _ Hclosure Hstart Hgoal] Hreach.
  assert (Hs : (sx, sy) ∈ closedList).
  { destruct Hstart as [?|Hs]; [done|]. by apply elem_of_nil in Hs. }
  assert (Hall : forall c c', rtc (step g) c c' ->
                   c ∈ closedList -> c' ∈ closedList).
  { intros c c' Hrtc. induction Hrtc as [c|c c' c'' Hstep _ IH]; intros Hc;
      [exact Hc|].
    apply IH. destruct (Hclosure c c' Hc Hstep) as [?|Hn]; [done|].
    by apply elem_of_nil in Hn. }
  apply Hgoal. by apply (Hall (sx, sy)).
Qed.

Lemma searchInv_init :
  isValid g sx sy = true ->
  searchInv g sx sy ex ey [Node sx sy czero czero czero None] ∅.
Proof.
  intros Hv. split.
  - split.
    + intros n Hn. apply list_elem_of_singleton in Hn as ->.
      split; [reflexivity|]. split; [exact Hv | apply not_elem_of_empty].
    + apply NoDup_singleton.
  - intros c Hc. by apply elem_of_empty in Hc.
  - intros c c' Hc. by apply elem_of_empty in Hc.
  - right. by apply list_elem_of_singleton.
  - apply not_elem_of_empty.
Qed.

(** The search from the start node. *)
Lemma search_result :
  isValid g sx sy = true ->
  exists r,
    searchLoop g ex ey (S (Z.to_nat (width g * height g)))
               [Node sx sy czero czero czero None] ∅ = Some r /\
    match r with
    | Some n => good g sx sy n /\ cell n = (ex, ey)
    | None => ~ reachable g (sx, sy) (ex, ey)
    end.
Proof.
  intros Hv.
  destruct (searchLoop_ok (S (Z.to_nat (width g * height g))) _ ∅
              (searchInv_init Hv)) as (r & Hr & Hres).
  { pose proof (remaining_bound ∅). lia. }
  exists r. split; [exact Hr|]. destruct r as [n|]; [exact Hres|].
  destruct Hres as (closedList' & Hinv).
  by apply searchInv_empty_unreachable with closedList'.
Qed.

(** The reversed parent chain of a sound node runs from the start cell to
    the node's cell by moves of the search. *)
Lemma chain_good (n : node F) :
  good g sx sy n ->
  head (reverse (cell <$> chain n)) = Some (sx, sy)
  /\ last (reverse (cell <$> chain n)) = Some (cell n)
  /\ chained (step g) (reverse (cell <$> chain n)).
Proof.
  induction n as [x y cg ch cf|x y cg ch cf p IH] using node_parent_ind.
  - cbn. intros ->. auto.
  - intros [Hstep Hgood]. destruct (IH Hgood) as (Hhead & Hlast & Hch).
    cbn [chain node_parent]. rewrite fmap_cons, reverse_cons.
    split; [|split].
    + rewrite head_app, Hhead. reflexivity.
    + apply last_snoc.
    + apply chained_snoc; [exact Hch|].
      intros b Hb. rewrite Hlast in Hb. injection Hb as <-. exact Hstep.
Qed.

End SearchInvariant.

(** ** The planner: what [findPath] returns *)

Section Planner.
Import Pathfinder.
Context {F : Type} {C : Cost F}.
Variable g : t.




Lemma rawPath_early (startX startZ endX endZ : Q) :
  inRange g startX startZ = false \/ inRange g endX endZ = false
  \/ isBlocked g (toCell (scale g) (width g) endX)
                 (toCell (scale g) (height g) endZ) = true ->
  rawPath (F := F) g startX startZ endX endZ = Some [].
Proof.
  unfold rawPath, inRange. intros [->|[->|Hb]]; cbn [negb orb].
  - reflexivity.
  - by rewrite orb_true_r.
  - rewrite Hb. by destruct (_ || _).
Qed.

(** The raw path: the search returns; a path that is not empty runs from
    the start cell to the goal cell by moves of the search; and it is not
    empty when the goal is free and reached from the start by such
    moves. *)
Lemma rawPath_spec (startX startZ endX endZ : Q) :
  let s := (toCell (scale g) (width g) startX,
            toCell (scale g) (height g) startZ) in
  let e := (toCell (scale g) (width g) endX,
            toCell (scale g) (height g) endZ) in
  exists cells,
    rawPath (F := F) g startX startZ endX endZ = Some cells
    /\ (cells <> [] ->
        head cells = Some s /\ last cells = Some e /\ chained (step g) cells)
    /\ (isValid g s.1 s.2 = true -> isValid g e.1 e.2 = true ->
        isBlocked g e.1 e.2 = false -> reachable g s e -> cells <> []).
Proof.
  intros s e. subst s e. cbn [fst snd]. unfold rawPath.
  set (sx := toCell (scale g) (width g) startX).
  set (sy := toCell (scale g) (height g) startZ).
  set (ex := toCell (scale g) (width g) endX).
  set (ey := toCell (scale g) (height g) endZ).
  destruct (isValid g sx sy) eqn:Hs; cbn [negb orb];
    [|exists []; split; [reflexivity|split; [done|discriminate]]].
  destruct (isValid g ex ey) eqn:He; cbn [negb];
    [|exists []; split; [reflexivity|split; [done|discriminate]]].
  destruct (isBlocked g ex ey) eqn:Hb;
    [exists []; split; [reflexivity|split; [done|discriminate]]|].
  destruct (search_result g sx sy ex ey Hs) as (r & Hr & Hres).
  rewrite Hr. destruct r as [n|].
  - destruct Hres as [Hgood Hcell].
    destruct (chain_good g sx sy n Hgood) as (Hhead & Hlast & Hch).
    exists (reverse (cell <$> chain n)). split; [reflexivity|]. split.
    + intros _. rewrite Hcell in Hlast. auto.
    + intros _ _ _ _ Hnil. rewrite Hnil in Hhead. discriminate.
  - exists []. split; [reflexivity|]. split; [done|].
    intros _ _ _ Hreach. by destruct Hres.
Qed.



End Planner.

(** ** The specification of the grid, the planner and the smoother *)

Section PathfinderSpec.
Import Pathfinder.

Lemma grid2_wf : wf grid2.
Proof. apply setObstacle_wf, new_wf; [lia | lia | discriminate]. Defined.

Lemma grid3_wf : wf grid3.
Proof. apply new_wf; [lia | lia | discriminate]. Defined.

(** C1: when the goal point maps to a cell inside the grid that is marked
    blocked, [findPath] returns the empty path (no search is run and no
    nearby free cell is looked for); it returns the empty path as well
    when the start or the goal maps to a cell outside the grid. *)
Theorem findPath_rejects {F : Type} {C : Cost F} (g : t)
    (startX startZ endX endZ : Q) :
  wf g ->
  (inRange g endX endZ = true
   /\ isBlocked g (toCell (scale g) (width g) endX)
                  (toCell (scale g) (height g) endZ) = true)
  \/ inRange g startX startZ = false
  \/ inRange g endX endZ = false ->
  findPath (F := F) g startX startZ endX endZ = Some [].
Proof.
  intros _ Hcase. unfold findPath.
  rewrite rawPath_early; [reflexivity|].
  destruct Hcase as [[_ Hb]|[Hs|He]]; auto.
Qed.

Lemma findPath_rejects_witness :
  (inRange grid2 0 0 = true /\ isBlocked grid2 1 1 = true)
  /\ findPath (F := float) grid2 (-1) (-1) 0 0 = Some []
  /\ findPath (F := float) grid2 (-1) (-1) 7 0 = Some []
  /\ findPath (F := float) grid2 7 0 (-1) (-1) = Some [].
Proof.
  split; [split; reflexivity|].
  split; [|split].
  - apply (findPath_rejects grid2 (-1) (-1) 0 0 grid2_wf).
    left. split; reflexivity.
  - apply (findPath_rejects grid2 (-1) (-1) 7 0 grid2_wf).
    right. right. reflexivity.
  - apply (findPath_rejects grid2 7 0 (-1) (-1) grid2_wf).
    right. left. reflexivity.
Defined.



(** C4: after [setObstacle(x, z, true)], [isWalkableAt(x, z)] is false;
    after [setObstacle(x, z, false)] it is true, for a point [(x, z)] of
    the grid; and when [(x, z)] maps outside the grid bounds
    [isWalkableAt(x, z)] is false, before and after any
    [setObstacle(x, z, _)], which is then a no-op. *)
Theorem setObstacle_isWalkableAt (g : t) (x z : Q) :
  wf g ->
  isWalkableAt (setObstacle g x z true) x z = false
  /\ (inRange g x z = true ->
      isWalkableAt (setObstacle g x z false) x z = true)
  /\ (inRange g x z = false ->
      isWalkableAt g x z = false
      /\ forall b, setObstacle g x z b = g).
Proof.
  intros Hwf. split; [|split].
  - destruct (inRange g x z) eqn:Hr.
    + by rewrite isWalkableAt_setObstacle.
    + apply isWalkableAt_outside. unfold inRange, setObstacle in *.
      unfold isValid in Hr. rewrite Hr. exact Hr.
  - intros Hr. by rewrite isWalkableAt_setObstacle.
  - intros Hr. split; [by apply isWalkableAt_outside|].
    intros b. unfold setObstacle. unfold inRange, isValid in Hr. by rewrite Hr.
Qed.

Lemma setObstacle_isWalkableAt_witness :
  isWalkableAt (setObstacle grid3 0 0 true) 0 0 = false
  /\ (inRange grid3 0 0 = true ->
      isWalkableAt (setObstacle grid3 0 0 false) 0 0 = true)
  /\ (inRange grid3 0 0 = false ->
      isWalkableAt grid3 0 0 = false
      /\ forall b, setObstacle grid3 0 0 b = grid3).
Proof. exact (setObstacle_isWalkableAt grid3 0 0 grid3_wf). Defined.

(** C10: [isBlocked] checks no bounds.  A cell whose flat index
    [y * width + x] falls outside the array reads as not blocked; a cell
    with [x] outside [0, width) whose flat index falls inside the array
    reads the cell of another row that has this index; and there are
    lines that [hasLineOfSight] finds clear between points that map
    outside the grid, which [isWalkableAt] reports as not walkable. *)
Theorem isBlocked_unchecked (g : t) (x y : Z) :
  wf g ->
  let i := y * width g + x in
  (i < 0 \/ Z.of_nat (length (grid g)) <= i -> isBlocked g x y = false)
  /\ (~ (0 <= x < width g) -> 0 <= i < Z.of_nat (length (grid g)) ->
      i / width g <> y
      /\ isValid g (i mod width g) (i / width g) = true
      /\ isBlocked g x y = isBlocked g (i mod width g) (i / width g))
  /\ (exists a b,
        hasLineOfSight g a b = true
        /\ inRange g (vx a) (vz a) = false /\ inRange g (vx b) (vz b) = false
        /\ isWalkableAt g (vx a) (vz a) = false
        /\ isWalkableAt g (vx b) (vz b) = false).
Proof.
  intros Hwf i. split; [|split].
  - apply isBlocked_outside_array.
  - destruct Hwf as (Hw & Hh & Hlen & _). intros Hx Hi.
    assert (Hlen' : Z.of_nat (length (grid g)) = width g * height g)
      by (rewrite Hlen; apply Z2Nat.id; nia).
    rewrite Hlen' in Hi.
    assert (Hwpos : 0 < width g) by nia.
    pose proof (Z.mod_pos_bound i (width g) Hwpos) as Hmod.
    pose proof (Z.div_mod i (width g) ltac:(lia)) as Hdiv.
    assert (Hrow : 0 <= i / width g < height g).
    { split; [apply Z.div_pos; lia|].
      apply Z.div_lt_upper_bound; [lia|]. nia. }
    split; [|split].
    + intros Heq. rewrite Heq in Hdiv. unfold i in Hdiv at 1. lia.
    + apply isValid_spec. lia.
    + unfold isBlocked.
      replace (i / width g * width g + i mod width g) with i by lia.
      reflexivity.
  - destruct (los_past_last_row g Hwf) as (Hlos & Ha & Hb).
    destruct Hwf as (Hw & Hh & Hlen & Hs).
    exists (center g (0, height g)), (center g (1, height g)).
    split; [exact Hlos|].
    assert (Hout : forall c, isValid g c (height g) = false).
    { intros c. unfold isValid. rewrite Z.ltb_irrefl. by rewrite andb_false_r. }
    unfold inRange, center. cbn [vx vz fst snd].
    rewrite !toCell_toWorld by exact Hs. rewrite !Hout. auto.
Qed.

Lemma isBlocked_unchecked_witness :
  (isBlocked grid2 0 5 = false)
  /\ (isBlocked grid2 3 0 = isBlocked grid2 1 1 /\ isBlocked grid2 3 0 = true)
  /\ isValid grid2 3 0 = false.
Proof.
  pose proof (isBlocked_unchecked grid2 0 5 grid2_wf) as (H1 & _ & _).
  pose proof (isBlocked_unchecked grid2 3 0 grid2_wf) as (_ & H2 & _).
  split; [apply H1; right; vm_compute; discriminate|].
  split; [|reflexivity].
  split; [|reflexivity].
  apply H2; vm_compute; [intros [_ H]; discriminate | split; [discriminate | reflexivity]].
Defined.

Lemma gridB_wf : wf gridB.
Proof. apply setObstacle_wf, new_wf; [lia | lia | discriminate]. Defined.



(** C2 (as amended): two consecutive points of the path that [smoothPath]
    returns have line of sight under the rasterized test, or they are two
    consecutive points of the input path, which the smoother takes over
    untested (the step to the next waypoint when no farther one is seen,
    and every path of at most two points).  So when every two consecutive
    points of the input have line of sight, so have every two consecutive
    points of the output. *)
Theorem smoothPath_sight (g : t) (p r : list Vector3) :
  wf g -> smoothPath g p = Some r ->
  (forall a b, adjacentIn a b r ->
     hasLineOfSight g a b = true \/ adjacentIn a b p)
  /\ (allVisible g p -> allVisible g r).
Proof.
  intros _ Hr. split.
  - by apply smoothPath_pairs.
  - by apply smoothPath_visible.
Qed.

Lemma smoothPath_sight_witness :
  (forall a b, adjacentIn a b [pointB1; pointB1] ->
     hasLineOfSight gridB a b = true \/ adjacentIn a b [pointB1; pointB1])
  /\ (allVisible gridB [pointB1; pointB1] -> allVisible gridB [pointB1; pointB1]).
Proof.
  exact (smoothPath_sight gridB [pointB1; pointB1] [pointB1; pointB1]
           gridB_wf eq_refl).
Defined.

(** C2 as stated fails.  From a start inside a blocked cell [findPath]
    returns the two cell centers, which [smoothPath] hands back untested,
    and the rasterized test finds no line of sight between them. *)
Lemma smoothPath_sight_counterexample :
  wf gridB
  /\ findPath (F := float) gridB (-1) 0 0 0 = Some [pointB0; pointB1]
  /\ smoothPath gridB [pointB0; pointB1] = Some [pointB0; pointB1]
  /\ hasLineOfSight gridB pointB0 pointB1 = false.
Proof.
  split; [exact gridB_wf|]. split; [|split]; vm_compute; reflexivity.
Qed.



(** ** Further properties of the planner *)

(** The loop of [hasLineOfSight], from the four cell indices on (source
    lines 574 to 595), for indices of a size that the doubles hold
    exactly.  The loop ends, within [dx + dy + 1] turns; its answer is
    true exactly when no cell of the rasterized line reads as blocked;
    and that line runs from the first cell to the second by steps to one
    of the eight cells around and stays in the box the two cells span. *)
Theorem hasLineOfSight_loop (g : t) (x0 y0 x1 y1 : Z) :
  0 <= width g <= 2 ^ 26 -> smallCell (x0, y0) -> smallCell (x1, y1) ->
  let cells := lineCells x0 y0 x1 y1 in
  cellLineOfSight g x0 y0 x1 y1
  = Some (forallb (fun c => negb (isBlocked g c.1 c.2)) cells)
  /\ Z.of_nat (length cells) <= Z.abs (x1 - x0) + Z.abs (y1 - y0) + 1
  /\ head cells = Some (x0, y0) /\ last cells = Some (x1, y1)
  /\ chained adjacent8 cells
  /\ Forall (fun c => Z.min x0 x1 <= c.1 <= Z.max x0 x1
                      /\ Z.min y0 y1 <= c.2 <= Z.max y0 y1) cells.
Proof.
  intros _ _ _ cells.
  destruct (cellLineOfSight_cells g x0 y0 x1 y1)
    as (Hlos & Hhead & Hlast & Hch & Hbox).
  split; [exact Hlos|]. split; [|by repeat split].
  unfold cells, lineCells.
  pose proof (traceLoop_length x1 y1 (Z.abs (x1 - x0)) (Z.abs (y1 - y0))
                (if x0 <? x1 then 1 else -1) (if y0 <? y1 then 1 else -1)
                (S (Z.to_nat (Z.abs (x1 - x0) + Z.abs (y1 - y0)))) x0 y0
                (Z.abs (x1 - x0) - Z.abs (y1 - y0))) as Hlen.
  lia.
Qed.

Lemma hasLineOfSight_loop_witness :
  let cells := lineCells 0 0 2 1 in
  cellLineOfSight gridK 0 0 2 1
  = Some (forallb (fun c => negb (isBlocked gridK c.1 c.2)) cells)
  /\ Z.of_nat (length cells) <= Z.abs (2 - 0) + Z.abs (1 - 0) + 1
  /\ head cells = Some (0, 0) /\ last cells = Some (2, 1)
  /\ chained adjacent8 cells
  /\ Forall (fun c => Z.min 0 2 <= c.1 <= Z.max 0 2
                      /\ Z.min 0 1 <= c.2 <= Z.max 0 1) cells.
Proof.
  apply (hasLineOfSight_loop gridK 0 0 2 1);
    [vm_compute; split; discriminate | vm_compute; split; discriminate
    | vm_compute; split; discriminate].
Defined.

(** [findPath] returns, on every grid of a size and a scale that the
    doubles of the source hold ([moderate]) and for every pair of points:
    the search closes one more cell of the grid at each turn, the line of
    sight walks at most [dx + dy] cells between cells of the grid, and
    the smoother moves its anchor forward at each turn. *)
Theorem findPath_total {F : Type} {C : Cost F} (g : t)
    (startX startZ endX endZ : Q) :
  moderate g ->
  exists path, findPath (F := F) g startX startZ endX endZ = Some path.
Proof.
  intros _.
  destruct (rawPath_spec (F := F) g startX startZ endX endZ) as (cells & Hraw & _).
  destruct (smoothPath_ends g (center g <$> cells)) as (path & Hsmooth & _).
  exists path. unfold findPath. by rewrite Hraw.
Qed.

Lemma findPath_total_witness :
  exists path, findPath (F := float) grid3 (-1) (-1) 1 1 = Some path.
Proof.
  apply (findPath_total (F := float) grid3 (-1) (-1) 1 1).
  split; [exact grid3_wf|]. vm_compute. repeat split; discriminate.
Defined.



(** A path that [findPath] returns is empty only if no moves of the search
    lead from the start cell to the goal cell, or an end point is outside
    the grid, or the goal cell is blocked. *)
Theorem findPath_empty {F : Type} {C : Cost F} (g : t)
    (startX startZ endX endZ : Q) :
  findPath (F := F) g startX startZ endX endZ = Some [] ->
  let s := (toCell (scale g) (width g) startX,
            toCell (scale g) (height g) startZ) in
  let e := (toCell (scale g) (width g) endX,
            toCell (scale g) (height g) endZ) in
  inRange g startX startZ = false \/ inRange g endX endZ = false
  \/ isBlocked g e.1 e.2 = true \/ ~ reachable g s e.
Proof.
  intros Hfind s e.
  destruct (rawPath_spec (F := F) g startX startZ endX endZ)
    as (cells & Hraw & _ & Hcomplete).
  fold s e in Hcomplete.
  destruct (smoothPath_ends g (center g <$> cells))
    as (path & Hsmooth & _ & Hph & _).
  unfold findPath in Hfind. rewrite Hraw, Hsmooth in Hfind.
  injection Hfind as ->.
  assert (Hnil : cells = []) by (destruct cells; [reflexivity | discriminate]).
  destruct (inRange g startX startZ) eqn:Hs; [|by left].
  destruct (inRange g endX endZ) eqn:He; [|by right; left].
  destruct (isBlocked g e.1 e.2) eqn:Hb; [by right; right; left|].
  right. right. right. intros Hreach.
  by apply (Hcomplete Hs He eq_refl Hreach).
Qed.

Lemma findPath_empty_witness :
  inRange grid2 (-1) (-1) = false \/ inRange grid2 0 0 = false
  \/ isBlocked grid2 1 1 = true \/ ~ reachable grid2 (0, 0) (1, 1).
Proof.
  apply (findPath_empty (F := float) grid2 (-1) (-1) 0 0). reflexivity.
Defined.

(** A start and a goal in one free cell of the grid: the path is the
    center of that cell alone. *)
Theorem findPath_same_cell {F : Type} {C : Cost F} (g : t)
    (startX startZ endX endZ : Q) :
  let s := (toCell (scale g) (width g) startX,
            toCell (scale g) (height g) startZ) in
  let e := (toCell (scale g) (width g) endX,
            toCell (scale g) (height g) endZ) in
  s = e -> inRange g startX startZ = true -> isBlocked g s.1 s.2 = false ->
  findPath (F := F) g startX startZ endX endZ = Some [center g s].
Proof.
  intros s e Heq Hr Hb. unfold findPath, rawPath.
  injection Heq as Hx Hy. rewrite <- Hx, <- Hy.
  unfold inRange in Hr. rewrite Hr. cbn [negb orb].
  unfold s in Hb. cbn [fst snd] in Hb. rewrite Hb.
  cbn [searchLoop Datatypes.length Nat.ltb Nat.leb lowestIndex lowestScan
       lookup list_lookup node_x node_y].
  rewrite !Z.eqb_refl. reflexivity.
Qed.

Lemma findPath_same_cell_witness :
  findPath (F := float) grid3 0 0 (1 # 4) (1 # 4) = Some [center grid3 (1, 1)].
Proof.
  apply (findPath_same_cell (F := float) grid3 0 0 (1 # 4) (1 # 4));
    reflexivity.
Defined.

(** The scenarios of the specification, run on the doubles of the source.
    A: on an open grid of 10 by 10 cells the path from cell (0, 0) to cell
    (9, 9) is smoothed to its two end points. *)
Theorem scenario_open_grid :
  rawPath (F := float) (new 10 10 1) (-5) (-5) 4 4
  = Some [(0, 0); (1, 1); (2, 2); (3, 3); (4, 4);
          (5, 5); (6, 6); (7, 7); (8, 8); (9, 9)]
  /\ findPath (F := float) (new 10 10 1) (-5) (-5) 4 4
     = Some [center (new 10 10 1) (0, 0); center (new 10 10 1) (9, 9)].
Proof. split; vm_compute; reflexivity. Qed.

(** B: a wall fills column 2 of a grid of 5 by 5 cells but for row 2;
    the path between the two sides at that row passes through the gap. *)
Theorem scenario_wall_gap :
  exists cells path,
    rawPath (F := float) gridWall (-2) 0 2 0 = Some cells
    /\ findPath (F := float) gridWall (-2) 0 2 0 = Some path
    /\ (2, 2) ∈ cells /\ (2 <= Datatypes.length path)%nat.
Proof.
  eexists _, _. split; [vm_compute; reflexivity|].
  split; [vm_compute; reflexivity|].
  split; [apply list_elem_of_In; simpl; auto 10 | simpl; lia].
Qed.




End PathfinderSpec.

(** ** The steering agent: NaN *)

Section UnitNaN.
Import Unit.
Local Open Scope R_scope.

Lemma nadd_NaN_r (a : num) : nadd a NaN = NaN.
Proof. by destruct a. Qed.

Lemma nmul_NaN_r (a : num) : nmul a NaN = NaN.
Proof. by destruct a. Qed.

Lemma add_nanV_r (a : Vector3) : add a nanV = nanV.
Proof. unfold add, nanV. cbn [x y z]. by rewrite !nadd_NaN_r. Qed.

Lemma multiplyScalar_nanV (s : num) : multiplyScalar nanV s = nanV.
Proof. reflexivity. Qed.

Lemma divideScalar_nanV (s : num) : divideScalar nanV s = nanV.
Proof. reflexivity. Qed.

Lemma normalize_nanV : normalize nanV = nanV.
Proof. reflexivity. Qed.

Lemma steer_nanV (u : t) (gain : R) : steer u nanV gain = nanV.
Proof. reflexivity. Qed.

(** Once the acceleration is NaN the velocity is NaN: the clamp compares
    its length, NaN, with [maxSpeed], and no comparison with NaN holds. *)
Lemma integrate_nanV (u : t) (dt : num) : integrate u nanV dt = nanV.
Proof.
  unfold integrate. rewrite multiplyScalar_nanV, add_nanV_r.
  change (length nanV) with NaN. unfold ngt. by destruct (maxSpeed u).
Qed.

Lemma subVectors_self (a b c : R) :
  subVectors (mkVector3 (Fin a) (Fin b) (Fin c)) (mkVector3 (Fin a) (Fin b) (Fin c))
  = zero.
Proof.
  unfold subVectors, zero, nsub. cbn [x y z nneg nadd].
  f_equal; f_equal; ring.
Qed.

Lemma length_zero : length zero = Fin 0.
Proof.
  unfold length, lengthSq, zero. cbn [x y z nmul nadd nsqrt].
  replace (0 * 0 + 0 * 0 + 0 * 0) with 0 by ring.
  destruct (Rlt_dec 0 0) as [H|_]; [lra|]. by rewrite sqrt_0.
Qed.

Lemma normalize_zero : normalize zero = zero.
Proof.
  unfold normalize. rewrite length_zero. cbn [truthy].
  destruct (Req_dec_T 0 0) as [_|H]; [|by destruct H].
  unfold divideScalar, multiplyScalar, zero. cbn [ndiv x y z].
  destruct (Req_dec_T 1 0) as [H|_]; [lra|]. cbn [nmul].
  f_equal; f_equal; field.
Qed.

(** The zero vector divided by zero: [0 * (1 / 0)] is [0 * Infinity]. *)
Lemma divideScalar_zero_by_zero : divideScalar zero (Fin 0) = nanV.
Proof.
  unfold divideScalar, multiplyScalar, zero. cbn [ndiv x y z].
  destruct (Req_dec_T 0 0) as [_|H]; [|by destruct H].
  destruct (Req_dec_T 1 0) as [H|_]; [lra|].
  destruct (Rlt_dec 0 1) as [_|H]; [|lra].
  cbn [nmul]. unfold infTimes.
  destruct (Req_dec_T 0 0) as [_|H]; [reflexivity | by destruct H].
Qed.

(** The separation turn for another unit on the very same position. *)
Lemma separate_coincident (u other : t) (separation : Vector3) (count : nat)
    (ru ro : R) :
  ref other <> ref u ->
  finiteV (position u) -> position other = position u ->
  radius u = Fin ru -> radius other = Fin ro -> 0 < ru + ro + 0.2 ->
  separate u (separation, count) other = (nanV, S count).
Proof.
  intros Href (a & b & c & Hp) Ho Hru Hro Hr. unfold separate.
  destruct (Nat.eqb_spec (ref other) (ref u)) as [E|_]; [by destruct Href|].
  unfold distanceTo. rewrite Ho, Hp, subVectors_self, length_zero, Hru, Hro.
  cbn [nadd nlt].
  destruct (Rlt_dec 0 (ru + ro + 0.2)) as [_|H]; [|by destruct H].
  by rewrite normalize_zero, divideScalar_zero_by_zero, add_nanV_r.
Qed.

Lemma separate_nanV (u other : t) (count : nat) :
  exists count', separate u (nanV, count) other = (nanV, count')
                 /\ (count <= count')%nat.
Proof.
  unfold separate. destruct (Nat.eqb _ _); [eauto|].
  destruct (nlt _ _); [|eauto].
  exists (S count). split; [reflexivity | lia].
Qed.

Lemma fold_separate_nanV (u : t) (neighbors : list t) :
  forall count,
  exists count', fold_left (separate u) neighbors (nanV, count) = (nanV, count')
                 /\ (count <= count')%nat.
Proof.
  induction neighbors as [|o neighbors IH]; intros count; [eauto|].
  cbn [fold_left]. destruct (separate_nanV u o count) as (c1 & -> & Hc1).
  destruct (IH c1) as (c2 & -> & Hc2). exists c2. split; [reflexivity | lia].
Qed.

Lemma fold_separate_coincident (u other : t) (ru ro : R) (neighbors : list t) :
  In other neighbors -> ref other <> ref u ->
  finiteV (position u) -> position other = position u ->
  radius u = Fin ru -> radius other = Fin ro -> 0 < ru + ro + 0.2 ->
  forall acc,
  exists count, fold_left (separate u) neighbors acc = (nanV, count)
                /\ (0 < count)%nat.
Proof.
  intros Hin Href Hfin Hpos Hru Hro Hr.
  induction neighbors as [|o neighbors IH]; intros [sep count]; [by destruct Hin|].
  cbn [fold_left]. destruct Hin as [->|Hin].
  - rewrite (separate_coincident u other sep count ru ro) by assumption.
    destruct (fold_separate_nanV u neighbors (S count)) as (c & -> & Hc).
    exists c. split; [reflexivity | lia].
  - apply IH. exact Hin.
Qed.

(** A neighbour on the very same position turns the velocity into NaN,
    whatever the other neighbours and the time step are. *)
Lemma update_coincident (atan2 : num -> num -> num) (u other : t) (dt : num)
    (ru ro : R) (neighbors : list t) :
  In other neighbors -> ref other <> ref u ->
  finiteV (position u) -> position other = position u ->
  radius u = Fin ru -> radius other = Fin ro -> 0 < ru + ro + 0.2 ->
  follow u <> None ->
  exists u', update atan2 u dt neighbors = Some u' /\ velocity u' = nanV.
Proof.
  intros Hin Href Hfin Hpos Hru Hro Hr Hfollow. unfold update.
  destruct (follow u) as [[[[acc idx] moving] pth]|]; [|by destruct Hfollow].
  destruct (fold_separate_coincident u other ru ro neighbors Hin Href Hfin Hpos
              Hru Hro Hr (zero, O)) as (count & -> & Hcount).
  destruct (Nat.ltb_spec 0 count) as [_|H]; [|lia].
  rewrite divideScalar_nanV, steer_nanV, add_nanV_r, integrate_nanV.
  eexists. split; reflexivity.
Qed.

End UnitNaN.

(** ** The steering agent: finite states *)

Section UnitFinite.
Import Unit.
Local Open Scope R_scope.

Lemma sum_squares_nonneg (a b c : R) : 0 <= a * a + b * b + c * c.
Proof. nra. Qed.

Lemma length_finite (a b c : R) :
  length (mkVector3 (Fin a) (Fin b) (Fin c)) = Fin (sqrt (a * a + b * b + c * c)).
Proof.
  unfold length, lengthSq. cbn [x y z nmul nadd nsqrt].
  destruct (Rlt_dec (a * a + b * b + c * c) 0) as [H|_]; [|reflexivity].
  pose proof (sum_squares_nonneg a b c). lra.
Qed.

Lemma add_finite (v w : Vector3) : finiteV v -> finiteV w -> finiteV (add v w).
Proof. intros (a & b & c & ->) (a' & b' & c' & ->). by eexists _, _, _. Qed.

Lemma subVectors_finite (v w : Vector3) :
  finiteV v -> finiteV w -> finiteV (subVectors v w).
Proof. intros (a & b & c & ->) (a' & b' & c' & ->). by eexists _, _, _. Qed.

Lemma multiplyScalar_finite (v : Vector3) (s : R) :
  finiteV v -> finiteV (multiplyScalar v (Fin s)).
Proof. intros (a & b & c & ->). by eexists _, _, _. Qed.

Lemma divideScalar_finite (v : Vector3) (s : R) :
  s <> 0 -> finiteV v -> finiteV (divideScalar v (Fin s)).
Proof.
  intros Hs (a & b & c & ->). unfold divideScalar. cbn [ndiv].
  destruct (Req_dec_T s 0) as [H|_]; [by destruct Hs|].
  by eexists _, _, _.
Qed.

Lemma zero_finite : finiteV zero.
Proof. by exists 0, 0, 0. Qed.

(** [normalize] of a finite vector divides by its length, or by 1 when the
    length is zero: never by zero. *)
Lemma normalize_finite (v : Vector3) : finiteV v -> finiteV (normalize v).
Proof.
  intros Hv. pose proof Hv as (a & b & c & ->). unfold normalize.
  rewrite length_finite. cbn [truthy].
  destruct (Req_dec_T (sqrt (a * a + b * b + c * c)) 0) as [_|Hl].
  - apply divideScalar_finite; [lra | exact Hv].
  - apply divideScalar_finite; [exact Hl | exact Hv].
Qed.

Lemma steer_finite (u : t) (dir : Vector3) (gain m : R) :
  maxSpeed u = Fin m -> finiteV (velocity u) -> finiteV dir ->
  finiteV (steer u dir gain).
Proof.
  intros Hm Hv Hd. unfold steer. rewrite Hm.
  apply multiplyScalar_finite, subVectors_finite; [|exact Hv].
  by apply multiplyScalar_finite, normalize_finite.
Qed.

(** Two finite points at distance zero are the same point. *)
Lemma distanceTo_zero (v w : Vector3) :
  finiteV v -> finiteV w -> distanceTo v w = Fin 0 -> v = w.
Proof.
  intros (a & b & c & ->) (a' & b' & c' & ->). unfold distanceTo, subVectors, nsub.
  cbn [x y z nneg nadd]. rewrite length_finite. intros E. injection E as E.
  apply sqrt_eq_0 in E; [|apply sum_squares_nonneg].
  set (p := a + - a') in *. set (q := b + - b') in *. set (r := c + - c') in *.
  assert (Hsq : forall t : R, t * t = 0 -> t = 0).
  { intros t Ht. destruct (Rmult_integral _ _ Ht); assumption. }
  pose proof (Rle_0_sqr p) as Hp. pose proof (Rle_0_sqr q) as Hq.
  pose proof (Rle_0_sqr r) as Hr. unfold Rsqr in Hp, Hq, Hr.
  assert (Ha : p = 0) by (apply Hsq; lra).
  assert (Hb : q = 0) by (apply Hsq; lra).
  assert (Hc : r = 0) by (apply Hsq; lra).
  unfold p, q, r in *. f_equal; f_equal; lra.
Qed.

Lemma distanceTo_finite (v w : Vector3) :
  finiteV v -> finiteV w -> exists d, distanceTo v w = Fin d /\ 0 <= d.
Proof.
  intros Hv Hw. destruct (subVectors_finite v w Hv Hw) as (a & b & c & E).
  unfold distanceTo. rewrite E, length_finite.
  eexists. split; [reflexivity | apply sqrt_pos].
Qed.

(** A finite vector stretched by [t >= 0]: its length is stretched by
    [t]. *)
Lemma length_scaled (t a b c : R) :
  0 <= t ->
  length (mkVector3 (Fin (t * a)) (Fin (t * b)) (Fin (t * c)))
  = Fin (t * sqrt (a * a + b * b + c * c)).
Proof.
  intros Ht. rewrite length_finite. f_equal.
  replace (t * a * (t * a) + t * b * (t * b) + t * c * (t * c))
    with (t * t * (a * a + b * b + c * c)) by ring.
  rewrite sqrt_mult; [|nra|apply sum_squares_nonneg].
  by rewrite sqrt_square.
Qed.

(** [normalize] of a finite vector that is not zero. *)
Lemma normalize_nonzero (a b c : R) :
  let d := sqrt (a * a + b * b + c * c) in
  d <> 0 ->
  normalize (mkVector3 (Fin a) (Fin b) (Fin c))
  = mkVector3 (Fin (a * (1 / d))) (Fin (b * (1 / d))) (Fin (c * (1 / d))).
Proof.
  intros d Hd. unfold normalize. rewrite length_finite. fold d. cbn [truthy].
  destruct (Req_dec_T d 0) as [E|_]; [by destruct Hd|].
  unfold divideScalar. cbn [ndiv].
  destruct (Req_dec_T d 0) as [E|_]; [by destruct Hd|]. reflexivity.
Qed.

Section Bounded.
Variable atan2 : num -> num -> num.
Variable u : t.
Variable m : R.
Hypothesis Hposition : finiteV (position u).
Hypothesis Hvelocity : finiteV (velocity u).
Hypothesis HmaxSpeed : maxSpeed u = Fin m.
Hypothesis Hm : 0 <= m.

Lemma follow_finite (acc : Vector3) (idx : nat) (moving : bool)
    (pth : list Vector3) :
  Forall finiteV (path u) ->
  follow u = Some (acc, idx, moving, pth) -> finiteV acc.
Proof.
  intros Hpath. unfold follow.
  destruct (isMoving u && (0 <? Datatypes.length (path u))%nat).
  - destruct (path u !! currentWaypointIndex u) as [target|] eqn:Ht; [|discriminate].
    assert (Htarget : finiteV target).
    { rewrite Forall_forall in Hpath. apply Hpath.
      by apply list_elem_of_lookup_2 with (currentWaypointIndex u). }
    destruct (nlt _ _); [destruct (_ <=? _)%nat|]; intros E; injection E as <- _ _ _;
      try apply zero_finite;
      apply add_finite; try apply zero_finite;
      apply (steer_finite u _ 2 m HmaxSpeed Hvelocity);
      by apply subVectors_finite.
  - intros E. injection E as <- _ _ _.
    apply add_finite; [apply zero_finite|]. by apply multiplyScalar_finite.
Qed.

Lemma separate_finite (ru : R) (separation : Vector3) (count : nat) (o : t) :
  radius u = Fin ru -> finiteV separation ->
  (ref o <> ref u ->
   finiteV (position o) /\ (exists r, radius o = Fin r)
   /\ position o <> position u) ->
  finiteV (separate u (separation, count) o).1.
Proof.
  intros Hru Hsep Ho. unfold separate.
  destruct (Nat.eqb_spec (ref o) (ref u)) as [_|Hne]; [exact Hsep|].
  destruct (Ho Hne) as (Hpo & (ro & Hro) & Hneq).
  destruct (distanceTo_finite _ _ Hposition Hpo) as (d & Hd & Hd0).
  rewrite Hd. destruct (nlt _ _); [|exact Hsep]. cbn [fst].
  apply add_finite; [exact Hsep|].
  apply divideScalar_finite.
  - intros ->. apply Hneq. symmetry. by apply distanceTo_zero.
  - by apply normalize_finite, subVectors_finite.
Qed.

Lemma fold_separate_finite (ru : R) (neighbors : list t) :
  radius u = Fin ru -> apart u neighbors ->
  forall acc, finiteV acc.1 ->
    finiteV (fold_left (separate u) neighbors acc).1.
Proof.
  intros Hru Hap. induction Hap as [|o neighbors Ho _ IH]; intros [sep count] Hacc;
    [exact Hacc|].
  cbn [fold_left]. apply IH. by apply (separate_finite ru).
Qed.

(** The clamp: a finite velocity comes out finite and no longer than
    [maxSpeed]. *)
Lemma integrate_bounded (acc : Vector3) (d : R) :
  finiteV acc ->
  finiteV (integrate u acc (Fin d))
  /\ nle (length (integrate u acc (Fin d))) (maxSpeed u) = true.
Proof.
  intros Hacc. unfold integrate.
  assert (Hv : finiteV (add (velocity u) (multiplyScalar acc (Fin d))))
    by (by apply add_finite; [|apply multiplyScalar_finite]).
  destruct Hv as (a & b & c & ->). rewrite HmaxSpeed.
  rewrite length_finite. set (l := sqrt (a * a + b * b + c * c)).
  assert (Hl : l * l = a * a + b * b + c * c)
    by (apply sqrt_sqrt, sum_squares_nonneg).
  unfold ngt. cbn [nlt]. destruct (Rlt_dec m l) as [Hlt|Hge].
  - unfold normalize. rewrite length_finite. fold l. cbn [truthy].
    destruct (Req_dec_T l 0) as [E|Hne]; [lra|].
    unfold divideScalar. cbn [ndiv].
    destruct (Req_dec_T l 0) as [E|_]; [lra|].
    unfold multiplyScalar. cbn [x y z nmul]. split; [by eexists _, _, _|].
    rewrite length_finite.
    replace (a * (1 / l) * m * (a * (1 / l) * m) + b * (1 / l) * m * (b * (1 / l) * m)
             + c * (1 / l) * m * (c * (1 / l) * m))
      with (m * m).
    + rewrite sqrt_square by exact Hm. cbn [nle].
      destruct (Rle_dec m m) as [_|H]; [reflexivity | lra].
    + transitivity ((a * a + b * b + c * c) / (l * l) * (m * m)); [|field; exact Hne].
      rewrite <- Hl. field. exact Hne.
  - split; [by eexists _, _, _|]. rewrite length_finite. fold l. cbn [nle].
    destruct (Rle_dec l m) as [_|H]; [reflexivity | lra].
Qed.

End Bounded.

(** Bounded speed, in the exact arithmetic of the model: from a finite
    state with [maxSpeed >= 0], with a finite time step and every other
    unit finite and off this unit's position, an [update] that does not
    throw leaves a finite velocity of magnitude at most [maxSpeed].  (The
    doubles of the source keep the bound up to the rounding of the
    clamp.) *)
Theorem update_speed_bounded (atan2 : num -> num -> num) (u : t)
    (m ru d : R) (neighbors : list t) :
  finiteV (position u) -> finiteV (velocity u) ->
  maxSpeed u = Fin m -> 0 <= m -> radius u = Fin ru ->
  Forall finiteV (path u) -> apart u neighbors ->
  follow u <> None ->
  exists u',
    update atan2 u (Fin d) neighbors = Some u'
    /\ finiteV (velocity u')
    /\ nle (length (velocity u')) (maxSpeed u') = true.
Proof.
  intros Hp Hv Hmax Hm Hru Hpath Hap Hfollow. unfold update.
  destruct (follow u) as [[[[acc idx] moving] pth]|] eqn:Hf; [|by destruct Hfollow].
  assert (Hacc : finiteV acc) by (eapply follow_finite; eassumption).
  assert (Hsep : finiteV (fold_left (separate u) neighbors (zero, O)).1)
    by (eapply fold_separate_finite; try eassumption; apply zero_finite).
  destruct (fold_left (separate u) neighbors (zero, O)) as [sep count].
  cbn [fst] in Hsep.
  set (acc' := if (0 <? count)%nat then _ else acc).
  assert (Hacc' : finiteV acc').
  { unfold acc'. destruct (Nat.ltb_spec 0 count) as [Hc|_]; [|exact Hacc].
    apply add_finite; [exact Hacc|].
    apply (steer_finite u _ 3 m Hmax Hv).
    apply divideScalar_finite; [|exact Hsep].
    apply not_0_INR. lia. }
  destruct (integrate_bounded u m Hv Hmax Hm acc' d Hacc') as [Hfin Hle].
  eexists. split; [reflexivity|]. cbn [velocity maxSpeed]. by split.
Qed.

(** *** Separation *)

Lemma sqrt_scaled (s a b c : R) :
  0 <= s ->
  sqrt (s * a * (s * a) + s * b * (s * b) + s * c * (s * c))
  = s * sqrt (a * a + b * b + c * c).
Proof.
  intros Hs.
  replace (s * a * (s * a) + s * b * (s * b) + s * c * (s * c))
    with (s * s * (a * a + b * b + c * c)) by ring.
  rewrite sqrt_mult; [|nra|apply sum_squares_nonneg].
  by rewrite sqrt_square.
Qed.

Lemma vector_ext (a b c a' b' c' : R) :
  a = a' -> b = b' -> c = c' ->
  mkVector3 (Fin a) (Fin b) (Fin c) = mkVector3 (Fin a') (Fin b') (Fin c').
Proof. by intros -> -> ->. Qed.

(** [normalize] of a finite vector that points along [(a, b, c)]. *)
Lemma normalize_scaled (s a b c : R) :
  let d := sqrt (a * a + b * b + c * c) in
  0 < s -> 0 < d ->
  normalize (mkVector3 (Fin (s * a)) (Fin (s * b)) (Fin (s * c)))
  = mkVector3 (Fin (1 / d * a)) (Fin (1 / d * b)) (Fin (1 / d * c)).
Proof.
  intros d Hs Hd.
  rewrite normalize_nonzero; rewrite sqrt_scaled by lra; fold d; [|nra].
  apply vector_ext; field; lra.
Qed.

Section Separation.
Variable atan2 : num -> num -> num.
Variables u o : t.
Variables ux uy uz ox oy oz m ru ro : R.
Let a := ux - ox.
Let b := uy - oy.
Let c := uz - oz.
Let d := sqrt (a * a + b * b + c * c).
Hypothesis Hvelocity : velocity u = zero.
Hypothesis Hpu : position u = mkVector3 (Fin ux) (Fin uy) (Fin uz).
Hypothesis Hpo : position o = mkVector3 (Fin ox) (Fin oy) (Fin oz).
Hypothesis HmaxSpeed : maxSpeed u = Fin m.
Hypothesis Hru : radius u = Fin ru.
Hypothesis Hro : radius o = Fin ro.
Hypothesis Href : ref o <> ref u.
Hypothesis Hd : 0 < d < ru + ro + 0.2.
Hypothesis Hm : 0 < m.

(** The loop over the unit itself and one other unit in range. *)
Lemma fold_separate_pair :
  fold_left (separate u) [u; o] (zero, O)
  = (mkVector3 (Fin (1 / (d * d) * a)) (Fin (1 / (d * d) * b))
               (Fin (1 / (d * d) * c)), 1%nat).
Proof.
  cbn [fold_left]. unfold separate at 2. rewrite Nat.eqb_refl.
  unfold separate.
  destruct (Nat.eqb_spec (ref o) (ref u)) as [E|_]; [by destruct Href|].
  assert (Hsub : subVectors (position u) (position o)
                 = mkVector3 (Fin a) (Fin b) (Fin c))
    by (by rewrite Hpu, Hpo).
  unfold distanceTo. rewrite Hsub, length_finite. fold d.
  rewrite Hru, Hro. cbn [nadd nlt].
  destruct (Rlt_dec d (ru + ro + 0.2)) as [_|H]; [|lra].
  rewrite (normalize_nonzero a b c) by (fold d; lra). fold d.
  unfold divideScalar. cbn [ndiv].
  destruct (Req_dec_T d 0) as [E|_]; [lra|].
  f_equal. apply vector_ext; field; lra.
Qed.

(** Steering along [(a, b, c)] from rest. *)
Lemma steer_scaled (s gain : R) :
  0 < s ->
  steer u (mkVector3 (Fin (s * a)) (Fin (s * b)) (Fin (s * c))) gain
  = mkVector3 (Fin (gain * m / d * a)) (Fin (gain * m / d * b))
              (Fin (gain * m / d * c)).
Proof.
  intros Hs. unfold steer.
  rewrite normalize_scaled by (fold d; lra). fold d.
  rewrite HmaxSpeed, Hvelocity.
  apply vector_ext; field; lra.
Qed.

(** The velocity that one [update] gives a unit at rest with one other
    unit in range: a positive multiple of the vector from the other unit
    to this one. *)
Lemma integrate_pair (dt : R) :
  0 < dt ->
  exists k, 0 < k /\
    integrate u
      (add (add zero (multiplyScalar (velocity u) (Fin (-5))))
           (steer u (divideScalar
                       (mkVector3 (Fin (1 / (d * d) * a)) (Fin (1 / (d * d) * b))
                                  (Fin (1 / (d * d) * c)))
                       (Fin (INR 1))) 3))
      (Fin dt)
    = mkVector3 (Fin (k * a)) (Fin (k * b)) (Fin (k * c)).
Proof.
  intros Hdt.
  assert (Hdir : divideScalar
                   (mkVector3 (Fin (1 / (d * d) * a)) (Fin (1 / (d * d) * b))
                              (Fin (1 / (d * d) * c))) (Fin (INR 1))
                 = mkVector3 (Fin (1 / (d * d) * a)) (Fin (1 / (d * d) * b))
                             (Fin (1 / (d * d) * c))).
  { unfold divideScalar. cbn [ndiv INR].
    destruct (Req_dec_T 1 0) as [E|_]; [lra|].
    apply vector_ext; field; lra. }
  rewrite Hdir, steer_scaled by (apply Rdiv_pos_pos; nra).
  unfold integrate. rewrite Hvelocity, HmaxSpeed.
  set (q := 3 * m / d).
  assert (Hq : 0 < q) by (unfold q; apply Rdiv_pos_pos; lra).
  assert (Hv : add zero
                 (multiplyScalar
                    (add (add zero (multiplyScalar zero (Fin (-5))))
                         (mkVector3 (Fin (q * a)) (Fin (q * b)) (Fin (q * c))))
                    (Fin dt))
               = mkVector3 (Fin (q * dt * a)) (Fin (q * dt * b)) (Fin (q * dt * c)))
    by (apply vector_ext; ring).
  rewrite Hv, length_scaled by nra. fold d.
  unfold ngt. cbn [nlt].
  destruct (Rlt_dec m (q * dt * d)) as [Hfast|Hslow].
  - exists (m / d). split; [apply Rdiv_pos_pos; lra|].
    rewrite normalize_scaled by (fold d; nra). fold d.
    apply vector_ext; field; lra.
  - exists (q * dt). split; [nra | reflexivity].
Qed.

End Separation.

(** Separation from rest (scenario D), in the exact arithmetic of the
    model: an idle unit at rest, with exactly one other unit within
    [radius + radius + 0.2] of it and not on its own position, gets from
    [update] a velocity that is a positive multiple of the vector from
    the other unit to itself. *)
Theorem update_separation (atan2 : num -> num -> num) (u o : t)
    (ux uy uz ox oy oz m ru ro dt : R) :
  let a := ux - ox in
  let b := uy - oy in
  let c := uz - oz in
  let d := sqrt (a * a + b * b + c * c) in
  isMoving u = false -> velocity u = zero ->
  position u = mkVector3 (Fin ux) (Fin uy) (Fin uz) ->
  position o = mkVector3 (Fin ox) (Fin oy) (Fin oz) ->
  maxSpeed u = Fin m -> radius u = Fin ru -> radius o = Fin ro ->
  ref o <> ref u ->
  0 < d < ru + ro + 0.2 -> 0 < m -> 0 < dt ->
  exists u' k,
    update atan2 u (Fin dt) [u; o] = Some u' /\ 0 < k
    /\ velocity u' = mkVector3 (Fin (k * a)) (Fin (k * b)) (Fin (k * c)).
Proof.
  intros a b c d Hidle Hv Hpu Hpo Hm Hru Hro Href Hd Hmpos Hdt.
  destruct (integrate_pair u ux uy uz ox oy oz m ru ro Hv Hm Hd Hmpos dt Hdt)
    as (k & Hk & Hint).
  unfold update, follow. rewrite Hidle. cbn [andb].
  rewrite (fold_separate_pair u o ux uy uz ox oy oz ru ro Hpu Hpo Hru Hro Href Hd).
  change (0 <? 1)%nat with true. cbv iota.
  eexists _, k. split; [reflexivity|]. split; [exact Hk|].
  cbn [velocity]. exact Hint.
Qed.

Lemma sameSign_scaled (k p : R) : 0 < k -> sameSign p (k * p).
Proof.
  intros Hk. unfold sameSign.
  destruct (Rtotal_order p 0) as [Hp|[Hp|Hp]].
  - right; right. split; [exact Hp | nra].
  - right; left. split; [exact Hp | subst p; ring].
  - left. split; [exact Hp | nra].
Qed.

(** Separation from rest, by its direction: an idle unit at rest with
    exactly one other unit well within [radius + radius + 0.2] of it and
    not on its own position gets from [update] a finite velocity that
    points away from the other unit along every axis: each coordinate of
    the velocity has the sign of the coordinate of the vector from the
    other unit to itself.  The sizes are such that no product of the
    computation underflows or overflows. *)
Theorem update_pushed_away (atan2 : num -> num -> num) (u o : t)
    (ux uy uz ox oy oz m ru ro dt : R) :
  let a := ux - ox in
  let b := uy - oy in
  let c := uz - oz in
  let d := sqrt (a * a + b * b + c * c) in
  isMoving u = false -> velocity u = zero ->
  position u = mkVector3 (Fin ux) (Fin uy) (Fin uz) ->
  position o = mkVector3 (Fin ox) (Fin oy) (Fin oz) ->
  maxSpeed u = Fin m -> radius u = Fin ru -> radius o = Fin ro ->
  ref o <> ref u ->
  sized a -> sized b -> sized c ->
  0 <= ru <= 2 ^ 20 -> 0 <= ro <= 2 ^ 20 ->
  0 < d <= ru + ro + 0.1 ->
  / 2 ^ 64 <= m <= 2 ^ 64 -> / 2 ^ 64 <= dt <= 2 ^ 64 ->
  exists u' va vb vc,
    update atan2 u (Fin dt) [u; o] = Some u'
    /\ isMoving u' = false
    /\ velocity u' = mkVector3 (Fin va) (Fin vb) (Fin vc)
    /\ sameSign a va /\ sameSign b vb /\ sameSign c vc.
Proof.
  intros a b c d Hidle Hv Hpu Hpo Hm Hru Hro Href _ _ _ _ _ Hd Hmpos Hdt.
  assert (Hpow : 0 < / 2 ^ 64) by (apply Rinv_0_lt_compat, pow_lt; lra).
  assert (Hd' : 0 < d < ru + ro + 0.2) by (fold d in Hd; lra).
  destruct (integrate_pair u ux uy uz ox oy oz m ru ro Hv Hm Hd'
              ltac:(lra) dt ltac:(lra)) as (k & Hk & Hint).
  unfold update, follow. rewrite Hidle. cbn [andb].
  rewrite (fold_separate_pair u o ux uy uz ox oy oz ru ro Hpu Hpo Hru Hro Href Hd').
  change (0 <? 1)%nat with true. cbv iota.
  eexists _, (k * a), (k * b), (k * c). split; [reflexivity|].
  cbn [velocity isMoving]. split; [reflexivity|]. split; [exact Hint|].
  by repeat split; apply sameSign_scaled.
Qed.

End UnitFinite.

(** ** The specification of the steering agent *)

Section UnitSpec.
Import Unit.
Local Open Scope R_scope.

(** C7 (as amended): [setPath] with a path that is not empty stores the
    path, sets the waypoint cursor to 1 and puts the unit in the moving
    state; with an empty or an absent path it puts the unit in the idle
    state and leaves the stored path and the cursor as they were.  No
    other field changes. *)
Theorem setPath_spec (u : t) (w : Vector3) (ws : list Vector3) :
  (isMoving (setPath u (Some (w :: ws))) = true
   /\ path (setPath u (Some (w :: ws))) = w :: ws
   /\ currentWaypointIndex (setPath u (Some (w :: ws))) = 1%nat)
  /\ (forall p, p = Some [] \/ p = None ->
        isMoving (setPath u p) = false
        /\ path (setPath u p) = path u
        /\ currentWaypointIndex (setPath u p) = currentWaypointIndex u)
  /\ (forall p,
        position (setPath u p) = position u
        /\ velocity (setPath u p) = velocity u
        /\ maxSpeed (setPath u p) = maxSpeed u
        /\ radius (setPath u p) = radius u
        /\ ref (setPath u p) = ref u).
Proof.
  split; [auto|]. split.
  - intros p [->| ->]; auto.
  - intros [[|? ?]|]; auto.
Qed.

(** C7 as stated fails: an empty path does not replace the stored path
    and does not reset the cursor. *)
Lemma setPath_empty_counterexample :
  path (setPath unitOnPath (Some [])) = [zero; zero; zero]
  /\ currentWaypointIndex (setPath unitOnPath (Some [])) = 2%nat
  /\ path (setPath unitOnPath None) = [zero; zero; zero]
  /\ currentWaypointIndex (setPath unitOnPath None) = 2%nat.
Proof. repeat split. Qed.

(** C8, at an input where the code breaks bounded speed: two units on the same
    position.  [push.normalize().divideScalar(dist)] has [dist = 0] and
    computes [0 * (1 / 0)], NaN; the velocity becomes NaN, the clamp's
    test [velocity.length() > maxSpeed] is false on NaN, and after
    [update] the magnitude of the velocity is not at most [maxSpeed]. *)
Theorem update_coincident_NaN (atan2 : num -> num -> num) :
  exists u',
    update atan2 unitA (Fin (1 / 60)) [unitA; unitB] = Some u'
    /\ velocity u' = nanV
    /\ nle (length (velocity u')) (maxSpeed u') = false.
Proof.
  destruct (update_coincident atan2 unitA unitB (Fin (1 / 60)) 0.5 0.5
              [unitA; unitB]) as (u' & Hu & Hv).
  - right. by left.
  - discriminate.
  - by exists 0, 0, 0.
  - reflexivity.
  - reflexivity.
  - reflexivity.
  - lra.
  - discriminate.
  - exists u'. split; [exact Hu|]. split; [exact Hv|]. by rewrite Hv.
Qed.

(** ** Further properties of the steering agent *)

Lemma update_speed_bounded_witness :
  exists u',
    update (fun _ _ => Fin 0) unitA (Fin (1 / 60)) [unitA; unitC] = Some u'
    /\ finiteV (velocity u')
    /\ nle (length (velocity u')) (maxSpeed u') = true.
Proof.
  apply (update_speed_bounded (fun _ _ => Fin 0) unitA 5 0.5 (1 / 60)
           [unitA; unitC]).
  - by exists 0, 0, 0.
  - by exists 0, 0, 0.
  - reflexivity.
  - lra.
  - reflexivity.
  - constructor.
  - constructor; [intros Hne; by destruct Hne|].
    constructor; [|constructor].
    intros _. split; [by exists 3, 0, 0|]. split; [by exists 0.5|].
    intros E. injection E as E. lra.
  - discriminate.
Defined.

(** A path of one point makes [update] throw: [setPath] puts the cursor
    on index 1, past the end of the path, and [update] calls
    [distanceTo] on [path[1]], which is [undefined].  [findPath] returns
    such a path when start and goal lie in one cell. *)
Theorem update_single_point_path (atan2 : num -> num -> num) (u : t)
    (p : Vector3) (dt : num) (neighbors : list t) :
  update atan2 (setPath u (Some [p])) dt neighbors = None.
Proof. reflexivity. Qed.

(** Arrival: when the unit is moving, its cursor is on the last waypoint
    and that waypoint is closer than the arrival radius 0.5, [update]
    leaves the unit idle with an empty path. *)
Theorem update_arrival (atan2 : num -> num -> num) (u : t) (target : Vector3)
    (dt : num) (neighbors : list t) :
  isMoving u = true ->
  path u !! currentWaypointIndex u = Some target ->
  S (currentWaypointIndex u) = Datatypes.length (path u) ->
  nlt (distanceTo (position u) target) (Fin 0.5) = true ->
  exists u', update atan2 u dt neighbors = Some u'
             /\ isMoving u' = false /\ path u' = [].
Proof.
  intros Hmov Htarget Hlast Hnear. unfold update, follow.
  rewrite Hmov, Htarget, Hnear, <- Hlast.
  destruct (Nat.ltb_spec 0 (S (currentWaypointIndex u))) as [_|H]; [|lia].
  cbn [andb]. rewrite Nat.leb_refl.
  destruct (fold_left _ _ _) as [sep count].
  eexists. split; [reflexivity|]. by split.
Qed.

Lemma update_arrival_witness :
  exists u', update (fun _ _ => Fin 0) unitOnPath (Fin (1 / 60)) [] = Some u'
             /\ isMoving u' = false /\ path u' = [].
Proof.
  apply (update_arrival (fun _ _ => Fin 0) unitOnPath zero (Fin (1 / 60)) []);
    try reflexivity.
  unfold distanceTo, unitOnPath. cbn [position].
  rewrite (subVectors_self 0 0 0 : subVectors zero zero = zero), length_zero.
  cbn [nlt].
  destruct (Rlt_dec 0 0.5) as [_|H]; [reflexivity | lra].
Defined.

Lemma update_separation_witness :
  exists u' k,
    update (fun _ _ => Fin 0) unitA (Fin (1 / 60)) [unitA; unitD] = Some u'
    /\ 0 < k
    /\ velocity u' = mkVector3 (Fin (k * (0 - 0.3))) (Fin (k * (0 - 0)))
                               (Fin (k * (0 - 0))).
Proof.
  apply (update_separation (fun _ _ => Fin 0) unitA unitD
           0 0 0 0.3 0 0 5 0.5 0.5 (1 / 60)); try reflexivity.
  - discriminate.
  - replace ((0 - 0.3) * (0 - 0.3) + (0 - 0) * (0 - 0) + (0 - 0) * (0 - 0))
      with (0.3 * 0.3) by lra.
    rewrite sqrt_square by lra. lra.
  - lra.
  - lra.
Defined.

Lemma update_pushed_away_witness :
  exists u' va vb vc,
    update (fun _ _ => Fin 0) unitA (Fin (1 / 60)) [unitA; unitD] = Some u'
    /\ isMoving u' = false
    /\ velocity u' = mkVector3 (Fin va) (Fin vb) (Fin vc)
    /\ sameSign (0 - 0.3) va /\ sameSign (0 - 0) vb /\ sameSign (0 - 0) vc.
Proof.
  assert (Hbig : 2 ^ 20 * 2 ^ 44 = 2 ^ 64) by (rewrite <- pow_add; reflexivity).
  assert (H20 : 1 <= 2 ^ 20) by (apply pow_R1_Rle; lra).
  assert (H44 : 1 <= 2 ^ 44) by (apply pow_R1_Rle; lra).
  assert (H64 : 1 <= 2 ^ 64) by (apply pow_R1_Rle; lra).
  assert (Hsmall : / 2 ^ 64 <= / 2 ^ 6)
    by (apply Rinv_le_contravar; [lra | apply Rle_pow; [lra | lia]]).
  assert (H6 : / 2 ^ 6 = 1 / 64) by lra.
  apply (update_pushed_away (fun _ _ => Fin 0) unitA unitD
           0 0 0 0.3 0 0 5 0.5 0.5 (1 / 60)); try reflexivity.
  - discriminate.
  - right. rewrite Rabs_left by lra. lra.
  - left. lra.
  - left. lra.
  - lra.
  - lra.
  - replace ((0 - 0.3) * (0 - 0.3) + (0 - 0) * (0 - 0) + (0 - 0) * (0 - 0))
      with (0.3 * 0.3) by lra.
    rewrite sqrt_square by lra. lra.
  - lra.
  - lra.
Defined.

End UnitSpec.

(** ** The specification of the group command *)

Section DispatcherSpec.
Import Dispatcher.

(** C9, at inputs where the code does not center the lattice.  The offsets are
    [(col - cols / 2) * spacing] with [col] from [0] to [cols - 1]: they
    run from [- cols / 2] to [cols / 2 - 1] spacings and are not
    symmetric about the target.  A single unit is sent three quarters of
    a unit away from the target on both axes, and the four targets of
    four units are the target and three points on one side of it. *)
Theorem unitTarget_not_centered :
  ((unitTarget 1 (0, 0) 0).1 == - (3 # 4) /\ (unitTarget 1 (0, 0) 0).2 == - (3 # 4))%Q
  /\ ((unitTarget 4 (0, 0) 0).1 == - (3 # 2) /\ (unitTarget 4 (0, 0) 0).2 == - (3 # 2))%Q
  /\ ((unitTarget 4 (0, 0) 1).1 == 0 /\ (unitTarget 4 (0, 0) 1).2 == - (3 # 2))%Q
  /\ ((unitTarget 4 (0, 0) 2).1 == - (3 # 2) /\ (unitTarget 4 (0, 0) 2).2 == 0)%Q
  /\ ((unitTarget 4 (0, 0) 3).1 == 0 /\ (unitTarget 4 (0, 0) 3).2 == 0)%Q.
Proof. repeat split; reflexivity. Qed.

Lemma unitTarget_lattice_bounds (n i : Z) :
  1 <= n -> 0 <= i < n ->
  0 < cols n /\ 0 <= i mod cols n < cols n /\ 0 <= i / cols n < cols n.
Proof.
  intros Hn Hi.
  pose proof (Z.sqrt_up_spec n ltac:(lia)) as Hc. fold (cols n) in Hc.
  rewrite <- !Z.pow_2_r in Hc.
  assert (Hcpos : 0 < cols n) by nia.
  split; [exact Hcpos|]. split; [by apply Z.mod_pos_bound|].
  split; [apply Z.div_pos; lia|].
  apply Z.div_lt_upper_bound; [lia|]. nia.
Qed.

(** The lattice of the group command, in exact arithmetic: for [n >= 1]
    selected units the unit at index [i] is sent to the lattice point in
    column [i mod c] and row [i / c], where [c] is the least integer with
    [n <= c * c], columns and rows both lie in [0 .. c - 1], and the
    spacing is 1.5. *)
Theorem unitTarget_lattice (n i : Z) (target : Q * Q) :
  1 <= n -> 0 <= i < n ->
  let c := cols n in
  ((c - 1) * (c - 1) < n <= c * c)
  /\ (0 <= i mod c < c) /\ (0 <= i / c < c)
  /\ unitTarget n target i
     = ((target.1 + (inject_Z (i mod c) - inject_Z c / 2) * (3 # 2))%Q,
        (target.2 + (inject_Z (i / c) - inject_Z c / 2) * (3 # 2))%Q).
Proof.
  intros Hn Hi c.
  pose proof (Z.sqrt_up_spec n ltac:(lia)) as Hc. fold (cols n) in Hc. fold c in Hc.
  unfold Z.pred in Hc. rewrite <- !Z.pow_2_r in *.
  replace (c + -1) with (c - 1) in Hc by lia.
  assert (Hcpos : 0 < c) by nia.
  split; [lia|]. split; [by apply Z.mod_pos_bound|]. split; [|reflexivity].
  split; [apply Z.div_pos; lia|].
  apply Z.div_lt_upper_bound; [lia|]. nia.
Qed.

Lemma unitTarget_lattice_witness :
  ((2 - 1) * (2 - 1) < 3 <= 2 * 2)
  /\ (0 <= 2 mod 2 < 2) /\ (0 <= 2 / 2 < 2)
  /\ unitTarget 3 (0, 0)%Q 2
     = ((0 + (inject_Z (2 mod 2) - inject_Z 2 / 2) * (3 # 2))%Q,
        (0 + (inject_Z (2 / 2) - inject_Z 2 / 2) * (3 # 2))%Q).
Proof. apply (unitTarget_lattice 3 2 (0, 0)%Q); lia. Defined.

(** Two units of one command never get the same target. *)
Theorem unitTarget_distinct (n i j : Z) (target : Q * Q) :
  1 <= n -> 0 <= i < n -> 0 <= j < n -> i <> j ->
  ~ ((unitTarget n target i).1 == (unitTarget n target j).1
     /\ (unitTarget n target i).2 == (unitTarget n target j).2)%Q.
Proof.
  intros Hn Hi Hj Hij [Hx Hz].
  pose proof (Z.sqrt_up_spec n ltac:(lia)) as Hc. fold (cols n) in Hc.
  assert (Hcpos : 0 < cols n) by nia.
  unfold unitTarget, offset, spacing in Hx, Hz. cbn [fst snd] in Hx, Hz.
  assert (Hcol : i mod cols n = j mod cols n) by (apply inject_Z_injective; lra).
  assert (Hrow : i / cols n = j / cols n) by (apply inject_Z_injective; lra).
  apply Hij.
  rewrite (Z.div_mod i (cols n)), (Z.div_mod j (cols n)) by lia.
  by rewrite Hcol, Hrow.
Qed.

Lemma unitTarget_distinct_witness :
  ~ ((unitTarget 4 (0, 0)%Q 0).1 == (unitTarget 4 (0, 0)%Q 3).1
     /\ (unitTarget 4 (0, 0)%Q 0).2 == (unitTarget 4 (0, 0)%Q 3).2)%Q.
Proof. apply (unitTarget_distinct 4 0 3 (0, 0)%Q); lia. Defined.

(** The bias, for every group: the unit at index 0 gets the offset
    [- cols / 2] spacings on both axes, every offset of the command lies
    at or above it, and none reaches its mirror image about the target:
    the lattice extends half a spacing farther below the target than
    above it. *)
Theorem offset_biased (n i : Z) :
  1 <= n -> 0 <= i < n ->
  ((offset n 0).1 == - (inject_Z (cols n) / 2) * spacing
   /\ (offset n 0).2 == - (inject_Z (cols n) / 2) * spacing
   /\ (offset n 0).1 <= (offset n i).1 <= - (offset n 0).1 - spacing
   /\ (offset n 0).2 <= (offset n i).2 <= - (offset n 0).2 - spacing)%Q.
Proof.
  intros Hn Hi.
  destruct (unitTarget_lattice_bounds n i Hn Hi) as (Hcpos & Hcol & Hrow).
  unfold offset, spacing. cbn [fst snd].
  rewrite Z.mod_0_l, Z.div_0_l by lia.
  assert (Hc0 : (0 <= inject_Z (i mod cols n))%Q)
    by (rewrite <- (Zle_Qle 0); lia).
  assert (Hc1 : (inject_Z (i mod cols n) <= inject_Z (cols n) - 1)%Q).
  { change 1%Q with (inject_Z 1). unfold Qminus.
    rewrite <- inject_Z_opp, <- inject_Z_plus, <- Zle_Qle. lia. }
  assert (Hr0 : (0 <= inject_Z (i / cols n))%Q)
    by (rewrite <- (Zle_Qle 0); lia).
  assert (Hr1 : (inject_Z (i / cols n) <= inject_Z (cols n) - 1)%Q).
  { change 1%Q with (inject_Z 1). unfold Qminus.
    rewrite <- inject_Z_opp, <- inject_Z_plus, <- Zle_Qle. lia. }
  change (inject_Z 0) with 0%Q.
  assert (Hhalf : (inject_Z (cols n) / 2 == inject_Z (cols n) * (1 # 2))%Q)
    by field.
  split; [lra|]. split; [lra|]. split; split; lra.
Qed.

Lemma offset_biased_witness :
  ((offset 5 4).1 == - (inject_Z (cols 5) / 2) * spacing -> False)
  /\ ((offset 5 0).1 == - (inject_Z (cols 5) / 2) * spacing
      /\ (offset 5 0).2 == - (inject_Z (cols 5) / 2) * spacing
      /\ (offset 5 0).1 <= (offset 5 4).1 <= - (offset 5 0).1 - spacing
      /\ (offset 5 0).2 <= (offset 5 4).2 <= - (offset 5 0).2 - spacing)%Q.
Proof.
  split; [intros H; vm_compute in H; discriminate|].
  apply (offset_biased 5 4); lia.
Defined.

End DispatcherSpec.

(** ** The steering agent: the waypoint cursor *)

Section UnitCursor.
Import Unit.
Local Open Scope R_scope.
Variable atan2 : num -> num -> num.

Lemma follow_None (u : t) : follow u = None <-> onTrack u = false.
Proof.
  unfold follow, onTrack.
  destruct (isMoving u && (0 <? Datatypes.length (path u))%nat) eqn:Hm;
    cbn [negb orb].
  - destruct (path u !! currentWaypointIndex u) as [target|] eqn:Ht.
    + apply lookup_lt_Some in Ht.
      destruct (Nat.ltb_spec (currentWaypointIndex u)
                  (Datatypes.length (path u))); [|lia].
      split; [|discriminate].
      by destruct (nlt _ _); [destruct (_ <=? _)%nat|].
    + apply lookup_ge_None in Ht.
      destruct (Nat.ltb_spec (currentWaypointIndex u)
                  (Datatypes.length (path u))); [lia|]. done.
  - split; discriminate.
Qed.

Lemma follow_onTrack (u : t) (acc : Vector3) (idx : nat) (moving : bool)
    (pth : list Vector3) :
  follow u = Some (acc, idx, moving, pth) ->
  negb (moving && (0 <? Datatypes.length pth)%nat)
  || (idx <? Datatypes.length pth)%nat = true.
Proof.
  unfold follow.
  destruct (isMoving u && (0 <? Datatypes.length (path u))%nat) eqn:Hm.
  - destruct (path u !! currentWaypointIndex u) as [target|] eqn:Ht;
      [|discriminate].
    apply lookup_lt_Some in Ht.
    destruct (nlt _ _).
    + destruct (Nat.leb_spec (Datatypes.length (path u))
                  (S (currentWaypointIndex u))) as [Hl|Hl];
        intros [= <- <- <- <-]; [reflexivity|].
      apply orb_true_iff. right. apply Nat.ltb_lt. lia.
    + intros [= <- <- <- <-].
      apply orb_true_iff. right. apply Nat.ltb_lt. lia.
  - intros [= <- <- <- <-]. by rewrite Hm.
Qed.

Lemma update_None (u : t) (dt : num) (neighbors : list t) :
  update atan2 u dt neighbors = None <-> onTrack u = false.
Proof.
  rewrite <- follow_None. unfold update.
  destruct (follow u) as [[[[acc idx] moving] pth]|]; [|done].
  destruct (fold_left _ _ _) as [sep count]. split; discriminate.
Qed.

Lemma update_Some_onTrack (u u' : t) (dt : num) (neighbors : list t) :
  update atan2 u dt neighbors = Some u' -> onTrack u' = true.
Proof.
  unfold update.
  destruct (follow u) as [[[[acc idx] moving] pth]|] eqn:Hf; [|discriminate].
  destruct (fold_left _ _ _) as [sep count]. intros [= <-].
  exact (follow_onTrack _ _ _ _ _ Hf).
Qed.

Lemma setPath_onTrack (u : t) (p : option (list Vector3)) :
  onTrack (setPath u p) = true <-> notSingle (SetPath p).
Proof.
  destruct p as [[|w [|w' ws]]|]; cbn; split; try done.
Qed.

End UnitCursor.

(** ** The steering agent: what it guarantees *)

Section UnitMore.
Import Unit.
Local Open Scope R_scope.
Variable atan2 : num -> num -> num.

(** [update] throws exactly when the unit is moving along a path that is
    not empty and its cursor is past the end of the path; and the unit it
    leaves never is in that state. *)
Theorem update_cursor (u : t) (dt : num) (neighbors : list t) :
  (update atan2 u dt neighbors = None <-> onTrack u = false)
  /\ (forall u', update atan2 u dt neighbors = Some u' -> onTrack u' = true).
Proof.
  split; [apply update_None|].
  intros u' Hu. exact (update_Some_onTrack _ _ _ _ _ Hu).
Qed.

(** Any sequence of [setPath] and [update] calls runs through without a
    throw, from a unit whose cursor is in order, when no path of exactly
    one point is set. *)
Theorem calls_never_throw (u : t) (cs : list call) :
  onTrack u = true -> Forall notSingle cs ->
  exists u', calls atan2 u cs = Some u' /\ onTrack u' = true.
Proof.
  intros Hu Hcs. revert u Hu.
  induction Hcs as [|c cs Hc _ IH]; intros u Hu; [by exists u|].
  destruct c as [p|dt neighbors]; cbn [calls].
  - apply IH. by apply setPath_onTrack.
  - destruct (update atan2 u dt neighbors) as [u'|] eqn:E.
    + apply IH. exact (update_Some_onTrack _ _ _ _ _ E).
    + apply update_None in E. congruence.
Qed.

End UnitMore.

Lemma calls_never_throw_witness :
  exists u',
    calls (fun _ _ => Unit.Fin 0) unitA
      [SetPath (Some [Unit.zero; Unit.zero]); Update (Unit.Fin 1) [unitA];
       SetPath None; Update (Unit.Fin 1) []] = Some u'
    /\ onTrack u' = true.
Proof.
  apply (calls_never_throw (fun _ _ => Unit.Fin 0) unitA); [reflexivity|].
  constructor; [exact I|]. constructor; [exact I|].
  constructor; [exact I|]. constructor; [exact I|]. constructor.
Defined.

(** ** The steering agent: an idle unit *)

Section UnitIdle.
Import Unit.
Local Open Scope R_scope.
Variable atan2 : num -> num -> num.

(** Units that do not push leave the sums of the separation loop as they
    are. *)
Lemma fold_separate_skip (u : t) (neighbors : list t) (acc : Vector3 * nat) :
  Forall (fun o => pushes u o = false) neighbors ->
  fold_left (separate u) neighbors acc = acc.
Proof.
  intros Hfar. revert acc.
  induction Hfar as [|o neighbors Ho _ IH]; intros acc; [reflexivity|].
  cbn [fold_left]. rewrite <- (IH acc) at 2. f_equal.
  destruct acc as [separation count]. unfold separate.
  unfold pushes in Ho.
  destruct (Nat.eqb (ref o) (ref u)); [reflexivity|].
  cbn [negb andb] in Ho. by rewrite Ho.
Qed.

(** The length of a finite vector stretched by any factor. *)
Lemma length_stretched (t a b c : R) :
  length (mkVector3 (Fin (t * a)) (Fin (t * b)) (Fin (t * c)))
  = Fin (Rabs t * sqrt (a * a + b * b + c * c)).
Proof.
  rewrite length_finite. f_equal.
  replace (t * a * (t * a) + t * b * (t * b) + t * c * (t * c))
    with (Rsqr t * (a * a + b * b + c * c)) by (unfold Rsqr; ring).
  rewrite sqrt_mult; [|apply Rle_0_sqr|apply sum_squares_nonneg].
  by rewrite sqrt_Rsqr_abs.
Qed.

(** An idle unit that nothing pushes, in the exact arithmetic of the
    model: friction scales its velocity by [1 - 5 dt], and the clamp cuts
    the result down to [maxSpeed].  So its speed after the update is the
    smaller of [|1 - 5 dt|] times its speed and [maxSpeed]; it slides on
    by the new velocity times [dt], in the plane; and it stays idle on
    the path it had. *)
Theorem update_idle (u : t) (a b c m d : R) (neighbors : list t) :
  isMoving u = false ->
  velocity u = mkVector3 (Fin a) (Fin b) (Fin c) ->
  maxSpeed u = Fin m -> 0 <= m ->
  Forall (fun o => pushes u o = false) neighbors ->
  let speed := sqrt (a * a + b * b + c * c) in
  exists u',
    update atan2 u (Fin d) neighbors = Some u'
    /\ isMoving u' = false /\ path u' = path u
    /\ length (velocity u') = Fin (Rmin (Rabs (1 - 5 * d) * speed) m)
    /\ (Rabs (1 - 5 * d) * speed <= m ->
        velocity u' = mkVector3 (Fin ((1 - 5 * d) * a)) (Fin ((1 - 5 * d) * b))
                                (Fin ((1 - 5 * d) * c)))
    /\ position u'
       = add (position u)
             (mkVector3 (nmul (x (velocity u')) (Fin d)) (Fin 0)
                        (nmul (z (velocity u')) (Fin d))).
Proof.
  intros Hidle Hv Hmax Hm Hfar speed. unfold update, follow.
  rewrite Hidle. cbn [andb]. rewrite fold_separate_skip by exact Hfar.
  cbn [Nat.ltb Nat.leb].
  eexists. split; [reflexivity|]. cbn [isMoving path velocity position].
  split; [reflexivity|]. split; [reflexivity|].
  assert (Hv1 : add (velocity u)
                  (multiplyScalar
                     (add zero (multiplyScalar (velocity u) (Fin (-5)))) (Fin d))
                = mkVector3 (Fin ((1 - 5 * d) * a)) (Fin ((1 - 5 * d) * b))
                            (Fin ((1 - 5 * d) * c))).
  { rewrite Hv. apply vector_ext; ring. }
  unfold integrate. rewrite Hv1, Hmax, length_stretched. fold speed.
  set (l := Rabs (1 - 5 * d) * speed).
  unfold ngt. cbn [nlt].
  destruct (Rlt_dec m l) as [Hfast|Hslow].
  - split; [|split; [lra | reflexivity]].
    assert (Hspeed : 0 < speed).
    { assert (0 <= speed) by apply sqrt_pos.
      assert (0 <= Rabs (1 - 5 * d)) by apply Rabs_pos. unfold l in Hfast. nra. }
    assert (Ht : 1 - 5 * d <> 0).
    { intros E. unfold l in Hfast. rewrite E, Rabs_R0 in Hfast. lra. }
    rewrite (normalize_nonzero ((1 - 5 * d) * a) ((1 - 5 * d) * b)
               ((1 - 5 * d) * c)).
    + pose proof (length_stretched (1 - 5 * d) a b c) as Hl.
      rewrite length_finite in Hl. injection Hl as Hl. fold speed l in Hl.
      rewrite Hl. unfold multiplyScalar. cbn [x y z nmul].
      assert (E : forall q : R, q * (1 / l) * m = m / l * q)
        by (intros q; field; lra).
      rewrite !E, length_stretched.
      pose proof (length_stretched (1 - 5 * d) a b c) as Hl2.
      rewrite length_finite in Hl2. injection Hl2 as Hl2. fold speed l in Hl2.
      rewrite Hl2. f_equal. rewrite Rmin_right by lra.
      rewrite Rabs_pos_eq
        by (apply Rmult_le_pos; [lra | apply Rlt_le, Rinv_0_lt_compat; lra]).
      field. lra.
    + pose proof (length_stretched (1 - 5 * d) a b c) as Hl.
      rewrite length_finite in Hl. injection Hl as Hl. fold speed l in Hl.
      rewrite Hl. lra.
  - split; [|split; [reflexivity | reflexivity]].
    rewrite length_stretched. fold speed l. f_equal.
    rewrite Rmin_left by lra. reflexivity.
Qed.

(** A unit out of reach fails the test of the separation loop. *)
Lemma outOfReach_pushes (u o : t) : outOfReach u o -> pushes u o = false.
Proof.
  unfold pushes. intros [Href|Hfar].
  - by rewrite Href, Nat.eqb_refl.
  - destruct Hfar as (ux & uy & uz & ox & oy & oz & ru & ro
                      & [Hpu _] & [Hpo _] & Hru & Hro & _ & _ & Hd).
    apply andb_false_intro2.
    rewrite Hpu, Hpo, Hru, Hro. unfold distanceTo, subVectors.
    cbn [x y z nsub nneg nadd]. rewrite length_finite. cbn [nlt].
    destruct (Rlt_dec _ _) as [Hlt|_]; [|reflexivity].
    replace (ux + - ox) with (ux - ox) in Hlt by ring.
    replace (uy + - oy) with (uy - oy) in Hlt by ring.
    replace (uz + - oz) with (uz - oz) in Hlt by ring.
    lra.
Qed.

(** The velocity that friction and the clamp leave to an idle unit that
    nothing pushes: a positive multiple of [1 - 5 dt] times the velocity
    it had. *)
Lemma idle_velocity (u : t) (a b c m d : R) (neighbors : list t) :
  isMoving u = false ->
  velocity u = mkVector3 (Fin a) (Fin b) (Fin c) ->
  maxSpeed u = Fin m -> 0 < m ->
  Forall (fun o => pushes u o = false) neighbors ->
  exists u' k,
    update atan2 u (Fin d) neighbors = Some u' /\ 0 < k
    /\ isMoving u' = false /\ path u' = path u
    /\ currentWaypointIndex u' = currentWaypointIndex u
    /\ velocity u' = mkVector3 (Fin (k * ((1 - 5 * d) * a)))
                               (Fin (k * ((1 - 5 * d) * b)))
                               (Fin (k * ((1 - 5 * d) * c)))
    /\ position u'
       = add (position u)
             (mkVector3 (nmul (x (velocity u')) (Fin d)) (Fin 0)
                        (nmul (z (velocity u')) (Fin d))).
Proof.
  intros Hidle Hv Hmax Hm Hfar. unfold update, follow.
  rewrite Hidle. cbn [andb]. rewrite fold_separate_skip by exact Hfar.
  cbn [Nat.ltb Nat.leb].
  assert (Hv1 : add (velocity u)
                  (multiplyScalar
                     (add zero (multiplyScalar (velocity u) (Fin (-5)))) (Fin d))
                = mkVector3 (Fin ((1 - 5 * d) * a)) (Fin ((1 - 5 * d) * b))
                            (Fin ((1 - 5 * d) * c))).
  { rewrite Hv. apply vector_ext; ring. }
  unfold integrate. rewrite Hv1, Hmax, length_stretched.
  set (l := Rabs (1 - 5 * d) * sqrt (a * a + b * b + c * c)).
  unfold ngt. cbn [nlt].
  destruct (Rlt_dec m l) as [Hfast|Hslow].
  - pose proof (length_stretched (1 - 5 * d) a b c) as Hl.
    rewrite length_finite in Hl. injection Hl as Hl. fold l in Hl.
    rewrite (normalize_nonzero ((1 - 5 * d) * a) ((1 - 5 * d) * b)
               ((1 - 5 * d) * c)) by (rewrite Hl; lra).
    rewrite Hl. unfold multiplyScalar at 1. cbn [x y z nmul].
    eexists _, (m / l). split; [reflexivity|].
    split; [apply Rdiv_pos_pos; lra|].
    cbn [isMoving path currentWaypointIndex velocity position].
    split; [reflexivity|]. split; [reflexivity|]. split; [reflexivity|].
    split; [apply vector_ext; field; lra | reflexivity].
  - eexists _, 1. split; [reflexivity|]. split; [lra|].
    cbn [isMoving path currentWaypointIndex velocity position].
    split; [reflexivity|]. split; [reflexivity|]. split; [reflexivity|].
    split; [apply vector_ext; ring | reflexivity].
Qed.

Lemma nadd_zero (p : num) : nadd p (Fin 0) = p.
Proof. destruct p; cbn [nadd]; [f_equal; ring | reflexivity..]. Qed.

Lemma sameSign_product (k t p : R) : 0 < k -> 0 < t -> sameSign p (k * (t * p)).
Proof.
  intros Hk Ht. unfold sameSign.
  assert (0 < k * t) by nra.
  destruct (Rtotal_order p 0) as [Hp|[Hp|Hp]].
  - right; right. split; [exact Hp | nra].
  - right; left. split; [exact Hp | subst p; ring].
  - left. split; [exact Hp | nra].
Qed.

Lemma sameSign_reversed (k t p : R) :
  0 < k -> t < 0 -> sameSign (- p) (k * (t * p)).
Proof.
  intros Hk Ht. unfold sameSign.
  assert (k * t < 0) by nra.
  destruct (Rtotal_order p 0) as [Hp|[Hp|Hp]].
  - left. split; [lra | nra].
  - right; left. split; [lra | subst p; ring].
  - right; right. split; [lra | nra].
Qed.

(** Friction on an idle unit that no other unit reaches.  [update]
    returns and leaves the unit idle, on its path and at its height; a
    coordinate of the velocity that is zero stays zero, and the unit does
    not move along that axis; for a time step of at most 0.19 every
    coordinate of the velocity keeps its sign, and for a time step from
    0.21 on every coordinate changes its sign: the friction term
    [-5 * velocity * dt] then outweighs the velocity, and the unit slides
    backwards.  The sizes are such that no product of the computation
    underflows or overflows. *)
Theorem update_idle_signs (u : t) (a b c m d : R) (neighbors : list t) :
  isMoving u = false ->
  velocity u = mkVector3 (Fin a) (Fin b) (Fin c) ->
  sized a -> sized b -> sized c ->
  maxSpeed u = Fin m -> / 2 ^ 64 <= m <= 2 ^ 64 ->
  0 <= d <= 2 ^ 64 ->
  Forall (outOfReach u) neighbors ->
  exists u' va vb vc,
    update atan2 u (Fin d) neighbors = Some u'
    /\ isMoving u' = false /\ path u' = path u
    /\ currentWaypointIndex u' = currentWaypointIndex u
    /\ velocity u' = mkVector3 (Fin va) (Fin vb) (Fin vc)
    /\ y (position u') = y (position u)
    /\ (a = 0 -> va = 0 /\ x (position u') = x (position u))
    /\ (b = 0 -> vb = 0)
    /\ (c = 0 -> vc = 0 /\ z (position u') = z (position u))
    /\ (d <= 0.19 -> sameSign a va /\ sameSign b vb /\ sameSign c vc)
    /\ (0.21 <= d ->
        sameSign (- a) va /\ sameSign (- b) vb /\ sameSign (- c) vc).
Proof.
  intros Hidle Hv _ _ _ Hmax Hm Hd Hfar.
  assert (Hpow : 0 < / 2 ^ 64) by (apply Rinv_0_lt_compat, pow_lt; lra).
  assert (Hfar' : Forall (fun o => pushes u o = false) neighbors).
  { eapply Forall_impl; [exact Hfar|]. intros o. apply outOfReach_pushes. }
  destruct (idle_velocity u a b c m d neighbors Hidle Hv Hmax ltac:(lra) Hfar')
    as (u' & k & Hup & Hk & Hi & Hp & Hc & Hvel & Hpos).
  exists u', (k * ((1 - 5 * d) * a)), (k * ((1 - 5 * d) * b)),
    (k * ((1 - 5 * d) * c)).
  split; [exact Hup|]. split; [exact Hi|]. split; [exact Hp|].
  split; [exact Hc|]. split; [exact Hvel|].
  rewrite Hpos, Hvel. unfold add. cbn [x y z nmul].
  split; [apply nadd_zero|].
  split.
  { intros ->. split; [ring|].
    replace (k * ((1 - 5 * d) * 0) * d) with 0 by ring. apply nadd_zero. }
  split; [intros ->; ring|].
  split.
  { intros ->. split; [ring|].
    replace (k * ((1 - 5 * d) * 0) * d) with 0 by ring. apply nadd_zero. }
  split.
  - intros Hsmall. repeat split; apply sameSign_product; lra.
  - intros Hlarge. repeat split; apply sameSign_reversed; lra.
Qed.

End UnitIdle.

Lemma update_idle_witness :
  exists u',
    Unit.update (fun _ _ => Unit.Fin 0) unitS (Unit.Fin (1 / 10)%R) [unitS]
    = Some u'
    /\ Unit.isMoving u' = false /\ Unit.path u' = Unit.path unitS
    /\ Unit.length (Unit.velocity u')
       = Unit.Fin (Rmin (Rabs (1 - 5 * (1 / 10))
                         * sqrt (1 * 1 + 0 * 0 + 0 * 0)) 5)%R
    /\ ((Rabs (1 - 5 * (1 / 10)) * sqrt (1 * 1 + 0 * 0 + 0 * 0) <= 5)%R ->
        Unit.velocity u'
        = Unit.mkVector3 (Unit.Fin ((1 - 5 * (1 / 10)) * 1)%R)
                         (Unit.Fin ((1 - 5 * (1 / 10)) * 0)%R)
                         (Unit.Fin ((1 - 5 * (1 / 10)) * 0)%R))
    /\ Unit.position u'
       = Unit.add (Unit.position unitS)
           (Unit.mkVector3
              (Unit.nmul (Unit.x (Unit.velocity u')) (Unit.Fin (1 / 10)%R))
              (Unit.Fin 0)
              (Unit.nmul (Unit.z (Unit.velocity u')) (Unit.Fin (1 / 10)%R))).
Proof.
  apply (update_idle (fun _ _ => Unit.Fin 0) unitS 1%R 0%R 0%R 5%R (1 / 10)%R [unitS]);
    [reflexivity | reflexivity | reflexivity | lra |].
  constructor; [reflexivity | constructor].
Defined.

Lemma update_idle_signs_witness :
  exists u' va vb vc,
    Unit.update (fun _ _ => Unit.Fin 0) unitS (Unit.Fin (1 / 10)%R)
      [unitS; unitC] = Some u'
    /\ Unit.isMoving u' = false /\ Unit.path u' = Unit.path unitS
    /\ Unit.currentWaypointIndex u' = Unit.currentWaypointIndex unitS
    /\ Unit.velocity u' = Unit.mkVector3 (Unit.Fin va) (Unit.Fin vb) (Unit.Fin vc)
    /\ Unit.y (Unit.position u') = Unit.y (Unit.position unitS)
    /\ (1 = 0 -> va = 0 /\ Unit.x (Unit.position u') = Unit.x (Unit.position unitS))%R
    /\ (0 = 0 -> vb = 0)%R
    /\ (0 = 0 -> vc = 0 /\ Unit.z (Unit.position u') = Unit.z (Unit.position unitS))%R
    /\ (1 / 10 <= 0.19 -> sameSign 1 va /\ sameSign 0 vb /\ sameSign 0 vc)%R
    /\ (0.21 <= 1 / 10 ->
        sameSign (- 1) va /\ sameSign (- 0) vb /\ sameSign (- 0) vc)%R.
Proof.
  assert (H20 : (1 <= 2 ^ 20)%R) by (apply pow_R1_Rle; lra).
  assert (H64 : (1 <= 2 ^ 64)%R) by (apply pow_R1_Rle; lra).
  assert (Hsmall : (/ 2 ^ 64 <= 1)%R).
  { apply Rle_trans with (/ 1)%R; [apply Rinv_le_contravar; lra|].
    rewrite Rinv_1. lra. }
  assert (H0 : (Rabs 0 <= 2 ^ 64)%R) by (rewrite Rabs_R0; lra).
  assert (H3 : (Rabs 3 <= 2 ^ 64)%R).
  { rewrite Rabs_pos_eq by lra.
    apply Rle_trans with (2 ^ 2)%R; [lra | apply Rle_pow; [lra | lia]]. }
  apply (update_idle_signs (fun _ _ => Unit.Fin 0) unitS 1%R 0%R 0%R 5%R
           (1 / 10)%R [unitS; unitC]).
  - reflexivity.
  - reflexivity.
  - right. rewrite Rabs_pos_eq by lra. lra.
  - by left.
  - by left.
  - reflexivity.
  - split; [lra|].
    apply Rle_trans with (2 ^ 3)%R; [lra | apply Rle_pow; [lra | lia]].
  - lra.
  - constructor; [by left|]. constructor; [|constructor].
    right. exists 0%R, 0%R, 0%R, 3%R, 0%R, 0%R, 0.5%R, 0.5%R.
    split; [by split|]. split; [by split|].
    split; [reflexivity|]. split; [reflexivity|].
    split; [lra|]. split; [lra|].
    replace ((0 - 3) * (0 - 3) + (0 - 0) * (0 - 0) + (0 - 0) * (0 - 0))%R
      with (3 * 3)%R by lra.
    rewrite sqrt_square by lra. lra.
Defined.

(** ** The frame loop *)

Section Frames.
Import Main.
Variable atan2 : Unit.num -> Unit.num -> Unit.num.

Lemma allOnTrack_Forall (us : list actor) :
  allOnTrack us = true <-> Forall (fun a => onTrack (unit a) = true) us.
Proof.
  unfold allOnTrack. rewrite forallb_forall, Forall_forall.
  split; intros H a Ha; apply H; by apply list_elem_of_In.
Qed.

(** The loop from index [i]: it comes to its end exactly when the units
    from [i] on have their cursors in order, and the units it leaves at
    [i] and behind are in order exactly when they were. *)
Lemma updateLoop_spec (dt : Unit.num) (n : nat) :
  forall (i : nat) (us : list actor),
    (i + n)%nat = length us ->
    let r := updateLoop atan2 dt n i us in
    length r.1 = length us
    /\ selected <$> r.1 = selected <$> us
    /\ (r.2 = true <-> allOnTrack (drop i us) = true)
    /\ (allOnTrack (drop i r.1) = true <-> allOnTrack (drop i us) = true)
    /\ (forall j, (j < i)%nat -> r.1 !! j = us !! j)
    /\ (r.2 = false ->
        exists k a, (i <= k)%nat /\ us !! k = Some a
          /\ onTrack (unit a) = false
          /\ allOnTrack (take (k - i) (drop i us)) = true
          /\ forall j, (k <= j)%nat -> r.1 !! j = us !! j).
Proof.
  induction n as [|n IH]; intros i us Hlen; cbn [updateLoop].
  - cbn [fst snd]. rewrite drop_ge by lia.
    repeat split; try done.
  - destruct (us !! i) as [a|] eqn:Ha;
      [|apply lookup_ge_None in Ha; lia].
    assert (Hdrop : drop i us = a :: drop (S i) us)
      by (by apply drop_S).
    destruct (Unit.update atan2 (unit a) dt (unit <$> us)) as [u'|] eqn:Hu.
    + pose proof (update_Some_onTrack _ _ _ _ _ Hu) as Hu'.
      assert (Hon : onTrack (unit a) = true).
      { destruct (onTrack (unit a)) eqn:E; [reflexivity|].
        apply (update_None atan2 _ dt (unit <$> us)) in E. congruence. }
      set (us1 := <[i := mkActor u' (selected a)]> us).
      assert (Hlen1 : (S i + n)%nat = length us1)
        by (unfold us1; rewrite length_insert; lia).
      specialize (IH (S i) us1 Hlen1). cbn zeta in IH.
      destruct IH as (IHlen & IHsel & IHok & IHon & IHpre & IHstop).
      assert (Hdrop1 : drop (S i) us1 = drop (S i) us)
        by (unfold us1; apply drop_insert_lt; lia).
      assert (Hi1 : us1 !! i = Some (mkActor u' (selected a))).
      { unfold us1. apply list_lookup_insert_eq. apply lookup_lt_Some in Ha. lia. }
      cbn zeta. split; [|split; [|split; [|split; [|split]]]].
      * unfold us1 in IHlen. rewrite length_insert in IHlen. exact IHlen.
      * rewrite IHsel. unfold us1. rewrite list_fmap_insert. cbn [selected].
        apply list_insert_id. by rewrite list_lookup_fmap, Ha.
      * rewrite IHok, Hdrop1, Hdrop. unfold allOnTrack. cbn [forallb].
        by rewrite Hon.
      * assert (Hri : (updateLoop atan2 dt n (S i) us1).1 !! i
                      = Some (mkActor u' (selected a)))
          by (rewrite IHpre by lia; exact Hi1).
        rewrite (drop_S _ _ _ Hri), Hdrop. unfold allOnTrack in *.
        cbn [forallb unit]. rewrite Hu', Hon. cbn [andb].
        by rewrite IHon, Hdrop1.
      * intros j Hj. rewrite IHpre by lia.
        unfold us1. apply list_lookup_insert_ne. lia.
      * intros Hstop. destruct (IHstop Hstop) as (k & b & Hk & Hb & Hoff & Hbefore & Hafter).
        assert (Hkb : us !! k = Some b).
        { rewrite <- Hb. unfold us1. symmetry. apply list_lookup_insert_ne. lia. }
        exists k, b. split; [lia|]. split; [exact Hkb|]. split; [exact Hoff|].
        split.
        -- rewrite Hdrop1 in Hbefore. rewrite Hdrop.
           replace (k - i)%nat with (S (k - S i)) by lia.
           cbn [take]. unfold allOnTrack in *. cbn [forallb].
           by rewrite Hon, Hbefore.
        -- intros j Hj. rewrite Hafter by exact Hj.
           unfold us1. apply list_lookup_insert_ne. lia.
    + apply (update_None atan2) in Hu. cbn [fst snd].
      split; [reflexivity|]. split; [reflexivity|].
      split; [|split; [reflexivity|split; [reflexivity|]]].
      * rewrite Hdrop. unfold allOnTrack. cbn [forallb]. rewrite Hu.
        split; discriminate.
      * intros _. exists i, a. split; [lia|]. split; [exact Ha|].
        split; [exact Hu|]. split; [|reflexivity].
        by rewrite Nat.sub_diag.
Qed.

Lemma animate_onTrack (dt : Unit.num) (us : list actor) :
  (animate atan2 dt us).2 = allOnTrack us
  /\ allOnTrack (animate atan2 dt us).1 = allOnTrack us.
Proof.
  pose proof (updateLoop_spec dt (length us) 0 us eq_refl) as H.
  cbn zeta in H. fold (animate atan2 dt us) in H. rewrite !drop_0 in H.
  destruct H as (_ & _ & Hok & Hon & _). split.
  - destruct (animate atan2 dt us).2, (allOnTrack us); try reflexivity.
    + symmetry. by apply Hok.
    + by apply Hok.
  - destruct (allOnTrack (animate atan2 dt us).1), (allOnTrack us);
      try reflexivity.
    + symmetry. by apply Hon.
    + by apply Hon.
Qed.

Lemma frames_stuck (dts : list Unit.num) (us : list actor) :
  allOnTrack us = false -> (frames atan2 dts us).2 = O.
Proof.
  revert us. induction dts as [|dt dts IH]; intros us Hus; [reflexivity|].
  cbn [frames]. destruct (animate_onTrack dt us) as [Hok Hon].
  destruct (animate atan2 dt us) as [us' ok]. cbn [fst snd] in *.
  rewrite Hus in Hok, Hon. specialize (IH us' Hon).
  destruct (frames atan2 dts us') as [us'' n]. cbn [snd] in *.
  by rewrite IH, Hok.
Qed.

(** A frame: [animate] reaches [renderer.render] exactly when every unit
    has its cursor in order.  If not, the first unit that has not and all
    units behind it are left as they were, and the state after the frame
    has again a unit out of order.  The number and the selection of the
    units never change. *)
Theorem animate_rendered (dt : Unit.num) (us : list actor) :
  let r := animate atan2 dt us in
  length r.1 = length us
  /\ selected <$> r.1 = selected <$> us
  /\ r.2 = allOnTrack us
  /\ allOnTrack r.1 = allOnTrack us
  /\ (r.2 = false ->
      exists k a, us !! k = Some a /\ onTrack (unit a) = false
        /\ allOnTrack (take k us) = true
        /\ forall j, (k <= j)%nat -> r.1 !! j = us !! j).
Proof.
  pose proof (updateLoop_spec dt (length us) 0 us eq_refl) as H.
  cbn zeta in H. fold (animate atan2 dt us) in H.
  destruct H as (Hlen & Hsel & _ & _ & _ & Hstop).
  destruct (animate_onTrack dt us) as [Hok Hon].
  cbn zeta. split; [exact Hlen|]. split; [exact Hsel|].
  split; [exact Hok|]. split; [exact Hon|].
  intros Hfalse.
  destruct (Hstop Hfalse) as (k & a & _ & Ha & Hoff & Hbefore & Hafter).
  exists k, a. rewrite drop_0, Nat.sub_0_r in Hbefore. auto.
Qed.

(** The frames of a whole run: all of them are rendered when every unit
    has its cursor in order, and none of them is, ever, when one unit has
    not. *)
Theorem frames_rendered (dts : list Unit.num) (us : list actor) :
  (frames atan2 dts us).2 = if allOnTrack us then length dts else O.
Proof.
  revert us. induction dts as [|dt dts IH]; intros us; cbn [frames].
  - by destruct (allOnTrack us).
  - destruct (animate_onTrack dt us) as [Hok Hon].
    destruct (animate atan2 dt us) as [us' ok]. cbn [fst snd] in *.
    specialize (IH us'). destruct (frames atan2 dts us') as [us'' n].
    cbn [snd] in *. rewrite IH, Hon, Hok.
    by destruct (allOnTrack us).
Qed.

End Frames.

(** ** The group command as a whole *)

Section Orders.
Import Main.
Context {F : Type} {C : Pathfinder.Cost F}.
Variable coordinate : Unit.num -> Q.
Variable pf : Pathfinder.t.

Lemma findPath_returns (startX startZ endX endZ : Q) :
  exists path,
    Pathfinder.findPath (F := F) pf startX startZ endX endZ = Some path.
Proof.
  destruct (rawPath_spec (F := F) pf startX startZ endX endZ)
    as (cells & Hraw & _).
  destruct (smoothPath_ends pf (Pathfinder.center pf <$> cells))
    as (path & Hsmooth & _).
  exists path. unfold Pathfinder.findPath. by rewrite Hraw.
Qed.

Lemma findPath_one_cell (startX startZ endX endZ : Q) :
  let s := (Pathfinder.toCell (Pathfinder.scale pf) (Pathfinder.width pf) startX,
            Pathfinder.toCell (Pathfinder.scale pf) (Pathfinder.height pf) startZ) in
  let e := (Pathfinder.toCell (Pathfinder.scale pf) (Pathfinder.width pf) endX,
            Pathfinder.toCell (Pathfinder.scale pf) (Pathfinder.height pf) endZ) in
  s = e -> Pathfinder.inRange pf startX startZ = true ->
  Pathfinder.isBlocked pf s.1 s.2 = false ->
  Pathfinder.findPath (F := F) pf startX startZ endX endZ
  = Some [Pathfinder.center pf s].
Proof.
  intros s e Heq Hr Hb. unfold Pathfinder.findPath, Pathfinder.rawPath.
  injection Heq as Hx Hy. rewrite <- Hx, <- Hy.
  unfold Pathfinder.inRange in Hr. rewrite Hr. cbn [negb orb].
  unfold s in Hb. cbn [fst snd] in Hb. rewrite Hb.
  cbn [Pathfinder.searchLoop Datatypes.length Nat.ltb Nat.leb
       Pathfinder.lowestIndex Pathfinder.lowestScan
       lookup list_lookup Pathfinder.node_x Pathfinder.node_y].
  rewrite !Z.eqb_refl. reflexivity.
Qed.

Lemma order_commanded (n : Z) (target : Q * Q) (i : Z) (u : Unit.t) :
  exists u', order coordinate pf n target i u = Some u'
    /\ commanded (mkActor u true) (mkActor u' true).
Proof.
  unfold order.
  destruct (findPath_returns (coordinate (Unit.x (Unit.position u)))
              (coordinate (Unit.z (Unit.position u)))
              (Dispatcher.unitTarget n target i).1
              (Dispatcher.unitTarget n target i).2) as (path & ->).
  eexists. split; [reflexivity|]. unfold commanded. cbn [unit selected].
  destruct path as [|w ws]; cbn; repeat split; try done.
Qed.

Lemma moveLoop_commanded (n : Z) (target : Q * Q) (us : list actor) :
  forall i : Z,
    exists us', moveLoop coordinate pf n target i us = Some us'
      /\ Forall2 commanded us us'.
Proof.
  induction us as [|a us IH]; intros i; cbn [moveLoop].
  - exists []. split; [reflexivity | constructor].
  - destruct (selected a) eqn:Hsel.
    + destruct (order_commanded n target i (unit a)) as (u' & -> & Hu').
      destruct (IH (i + 1)) as (us' & -> & Hus').
      eexists. split; [reflexivity|]. constructor; [|exact Hus'].
      destruct a as [u sel]. cbn [selected unit] in *. by subst sel.
    + destruct (IH i) as (us' & -> & Hus').
      eexists. split; [reflexivity|]. constructor; [|exact Hus'].
      unfold commanded. by rewrite Hsel.
Qed.

Lemma moveSelectedUnits_returns (target : Q * Q) (us : list actor) :
  exists us', moveSelectedUnits coordinate pf target us = Some us'.
Proof.
  unfold moveSelectedUnits. destruct (_ =? 0)%nat; [by exists us|].
  destruct (moveLoop_commanded
              (Z.of_nat (length (filter (fun a => selected a = true) us)))
              target us 0) as (us' & Hus' & _).
  by exists us'.
Qed.

Lemma rank_S (a : actor) (us : list actor) (j : nat) :
  rank (a :: us) (S j) = ((if selected a then 1 else 0) + rank us j)%nat.
Proof.
  unfold rank. cbn [take]. rewrite filter_cons.
  destruct (decide (selected a = true)) as [->|Hn]; [reflexivity|].
  by destruct (selected a).
Qed.

(** What the loop does to the unit at index [j]. *)
Lemma moveLoop_lookup (n : Z) (target : Q * Q) (us : list actor) :
  forall (i : Z) (us' : list actor),
    moveLoop coordinate pf n target i us = Some us' ->
    forall (j : nat) (a : actor),
      us !! j = Some a ->
      exists a', us' !! j = Some a'
        /\ if selected a
           then order coordinate pf n target (i + Z.of_nat (rank us j)) (unit a)
                = Some (unit a')
           else a' = a.
Proof.
  induction us as [|b us IH]; intros i us' Hloop j a Hj; [done|].
  cbn [moveLoop] in Hloop.
  destruct (selected b) eqn:Hsel.
  - destruct (order coordinate pf n target i (unit b)) as [u'|] eqn:Ho;
      [|discriminate].
    destruct (moveLoop coordinate pf n target (i + 1) us) as [r|] eqn:Hr;
      [|discriminate].
    injection Hloop as <-. destruct j as [|j].
    + injection Hj as <-. eexists. split; [reflexivity|].
      rewrite Hsel. cbn [unit]. unfold rank. cbn.
      by rewrite Z.add_0_r.
    + destruct (IH _ _ Hr j a Hj) as (a' & Ha' & Hspec).
      exists a'. split; [exact Ha'|].
      rewrite rank_S, Hsel.
      replace (i + Z.of_nat (1 + rank us j)) with (i + 1 + Z.of_nat (rank us j))
        by lia.
      exact Hspec.
  - destruct (moveLoop coordinate pf n target i us) as [r|] eqn:Hr;
      [|discriminate].
    injection Hloop as <-. destruct j as [|j].
    + injection Hj as <-. exists b. split; [reflexivity|]. by rewrite Hsel.
    + destruct (IH _ _ Hr j a Hj) as (a' & Ha' & Hspec).
      exists a'. split; [exact Ha'|].
      rewrite rank_S, Hsel. exact Hspec.
Qed.

Lemma selected_count_pos (us : list actor) (j : nat) (a : actor) :
  us !! j = Some a -> selected a = true ->
  (length (filter (fun a => selected a = true) us) =? 0)%nat = false.
Proof.
  intros Hj Hsel. apply Nat.eqb_neq.
  assert (Hin : a ∈ filter (fun a => selected a = true) us).
  { apply list_elem_of_filter. split; [exact Hsel|].
    by apply list_elem_of_lookup_2 with j. }
  destruct (filter _ us); [by apply not_elem_of_nil in Hin | simpl; lia].
Qed.

(** [moveSelectedUnits] returns, and it only replaces paths: no unit is
    added, dropped, selected, deselected or moved, an unselected unit is
    left as it is, and a unit that was moving is moving afterwards (the
    branch of [setPath] that stops a unit is never reached from here). *)
Theorem moveSelectedUnits_commanded (target : Q * Q) (us : list actor) :
  exists us', moveSelectedUnits coordinate pf target us = Some us'
    /\ Forall2 commanded us us'.
Proof.
  unfold moveSelectedUnits. destruct (_ =? 0)%nat.
  - exists us. split; [reflexivity|].
    apply Forall2_same_length_lookup. split; [reflexivity|].
    intros i a a' Ha Ha'. rewrite Ha in Ha'. injection Ha' as <-.
    by unfold commanded.
  - apply moveLoop_commanded.
Qed.

(** A selected unit whose own target maps outside the grid or into a
    blocked cell, or which stands outside the grid itself, is left as it
    is by the command: it keeps the path it had, and keeps moving along
    it if it was. *)
Theorem moveSelectedUnits_dropped (target : Q * Q) (us : list actor)
    (j : nat) (a : actor) :
  us !! j = Some a -> selected a = true ->
  let n := Z.of_nat (length (filter (fun a => selected a = true) us)) in
  let t := Dispatcher.unitTarget n target (Z.of_nat (rank us j)) in
  let sx := coordinate (Unit.x (Unit.position (unit a))) in
  let sz := coordinate (Unit.z (Unit.position (unit a))) in
  Pathfinder.inRange pf sx sz = false
  \/ Pathfinder.inRange pf t.1 t.2 = false
  \/ Pathfinder.isBlocked pf
       (Pathfinder.toCell (Pathfinder.scale pf) (Pathfinder.width pf) t.1)
       (Pathfinder.toCell (Pathfinder.scale pf) (Pathfinder.height pf) t.2)
     = true ->
  exists us', moveSelectedUnits coordinate pf target us = Some us'
    /\ us' !! j = Some a.
Proof.
  intros Hj Hsel n t sx sz Hcase.
  destruct (moveSelectedUnits_returns target us) as (us' & Hmove).
  exists us'. split; [exact Hmove|].
  unfold moveSelectedUnits in Hmove.
  rewrite (selected_count_pos us j a Hj Hsel) in Hmove.
  destruct (moveLoop_lookup _ _ _ _ _ Hmove j a Hj) as (a' & Ha' & Hspec).
  rewrite Hsel in Hspec. rewrite Ha'. f_equal.
  rewrite Z.add_0_l in Hspec. fold n t in Hspec.
  unfold order in Hspec. fold t sx sz in Hspec.
  unfold Pathfinder.findPath in Hspec.
  rewrite (rawPath_early pf sx sz t.1 t.2 Hcase) in Hspec.
  cbn in Hspec. injection Hspec as Hu.
  destruct (moveLoop_commanded (Z.of_nat (length (filter (fun a => selected a = true) us)))
              target us 0) as (us2 & Hus2 & Hall).
  rewrite Hmove in Hus2. injection Hus2 as <-.
  destruct (Forall2_lookup_l _ _ _ _ _ Hall Hj) as (a2 & Ha2 & Hc).
  rewrite Ha' in Ha2. injection Ha2 as <-.
  destruct Hc as (Hs & _). destruct a as [u sel], a' as [u' sel'].
  cbn [unit selected] in *. congruence.
Qed.

(** A selected unit whose own target maps into the cell it stands in, a
    cell of the grid that is not blocked, gets a path of one point, the
    center of that cell; its cursor is then past the end of its path, and
    no frame is rendered from then on. *)
Theorem moveSelectedUnits_own_cell (target : Q * Q) (us : list actor)
    (j : nat) (a : actor) :
  us !! j = Some a -> selected a = true ->
  let n := Z.of_nat (length (filter (fun a => selected a = true) us)) in
  let t := Dispatcher.unitTarget n target (Z.of_nat (rank us j)) in
  let sx := coordinate (Unit.x (Unit.position (unit a))) in
  let sz := coordinate (Unit.z (Unit.position (unit a))) in
  let c := (Pathfinder.toCell (Pathfinder.scale pf) (Pathfinder.width pf) sx,
            Pathfinder.toCell (Pathfinder.scale pf) (Pathfinder.height pf) sz) in
  c = (Pathfinder.toCell (Pathfinder.scale pf) (Pathfinder.width pf) t.1,
       Pathfinder.toCell (Pathfinder.scale pf) (Pathfinder.height pf) t.2) ->
  Pathfinder.inRange pf sx sz = true ->
  Pathfinder.isBlocked pf c.1 c.2 = false ->
  exists us' a',
    moveSelectedUnits coordinate pf target us = Some us'
    /\ us' !! j = Some a'
    /\ unit a'
       = Unit.setPath (unit a) (Some [waypoint (Pathfinder.center pf c)])
    /\ onTrack (unit a') = false
    /\ forall atan2 dts, (frames atan2 dts us').2 = O.
Proof.
  intros Hj Hsel n t sx sz c Hc Hr Hb.
  destruct (moveSelectedUnits_returns target us) as (us' & Hmove).
  pose proof Hmove as Hloop. unfold moveSelectedUnits in Hloop.
  rewrite (selected_count_pos us j a Hj Hsel) in Hloop.
  destruct (moveLoop_lookup _ _ _ _ _ Hloop j a Hj) as (a' & Ha' & Hspec).
  rewrite Hsel, Z.add_0_l in Hspec. fold n t in Hspec.
  unfold order in Hspec. fold t sx sz in Hspec.
  rewrite (findPath_one_cell sx sz t.1 t.2 Hc Hr Hb) in Hspec.
  cbn [Datatypes.length Nat.ltb Nat.leb fmap list_fmap] in Hspec.
  injection Hspec as Hu. fold c in Hu.
  exists us', a'. split; [exact Hmove|]. split; [exact Ha'|].
  split; [by rewrite <- Hu|].
  assert (Hoff : onTrack (unit a') = false) by (by rewrite <- Hu).
  split; [exact Hoff|].
  intros atan2 dts. apply frames_stuck.
  unfold allOnTrack. apply not_true_iff_false. intros Hall.
  rewrite forallb_forall in Hall.
  assert (Hin : In a' us')
    by (apply list_elem_of_In; by apply list_elem_of_lookup_2 with j).
  specialize (Hall a' Hin). congruence.
Qed.

End Orders.

Lemma moveSelectedUnits_dropped_witness :
  exists us',
    Main.moveSelectedUnits (F := float) (C := Pathfinder.floatCost) (fun _ => 0%Q) grid3 (10, 10)%Q
      [actorIdle; Main.mkActor unitA true] = Some us'
    /\ us' !! 1%nat = Some (Main.mkActor unitA true).
Proof.
  apply (moveSelectedUnits_dropped (F := float) (C := Pathfinder.floatCost) (fun _ => 0%Q) grid3
           (10, 10)%Q [actorIdle; Main.mkActor unitA true] 1
           (Main.mkActor unitA true)); [reflexivity | reflexivity |].
  right. left. vm_compute. reflexivity.
Defined.

Lemma moveSelectedUnits_own_cell_witness :
  exists us' a',
    Main.moveSelectedUnits (F := float) (C := Pathfinder.floatCost) (fun _ => 0%Q) grid3 (1, 1)%Q
      [actorIdle; Main.mkActor unitA true] = Some us'
    /\ us' !! 1%nat = Some a'
    /\ Main.unit a'
       = Unit.setPath unitA
           (Some [Main.waypoint (Pathfinder.center grid3 (1, 1))])
    /\ onTrack (Main.unit a') = false
    /\ forall atan2 dts, (Main.frames atan2 dts us').2 = O.
Proof.
  apply (moveSelectedUnits_own_cell (F := float) (C := Pathfinder.floatCost) (fun _ => 0%Q) grid3
           (1, 1)%Q [actorIdle; Main.mkActor unitA true] 1
           (Main.mkActor unitA true));
    [reflexivity | reflexivity | vm_compute; reflexivity
    | vm_compute; reflexivity | vm_compute; reflexivity].
Defined.

(** ** The grid: writes, reads and the coordinate mapping *)

Section GridMore.
Import Pathfinder.

Lemma flat_index_inj (w x y x' y' : Z) :
  0 <= x < w -> 0 <= x' < w -> y * w + x = y' * w + x' -> x = x' /\ y = y'.
Proof. intros Hx Hx' E. assert (y = y') by nia. subst. lia. Qed.

Lemma setObstacle_dims (g : t) (x z : Q) (b : bool) :
  width (setObstacle g x z b) = width g
  /\ height (setObstacle g x z b) = height g
  /\ scale (setObstacle g x z b) = scale g.
Proof. unfold setObstacle. by destruct (_ && _). Qed.

Lemma setObstacle_grid (g : t) (x z : Q) (b : bool) :
  grid (setObstacle g x z b)
  = if isValid g (cellOf g x z).1 (cellOf g x z).2
    then <[Z.to_nat ((cellOf g x z).2 * width g + (cellOf g x z).1)
           := if b then 1 else 0]> (grid g)
    else grid g.
Proof.
  unfold setObstacle, cellOf, isValid. cbn [fst snd]. by destruct (_ && _).
Qed.

Lemma new_binary (w h : Z) (s : Q) : binary (new w h s).
Proof.
  unfold binary, new. cbn [grid]. apply Forall_replicate. by left.
Qed.

Lemma setObstacle_binary (g : t) (x z : Q) (b : bool) :
  binary g -> binary (setObstacle g x z b).
Proof.
  unfold binary. rewrite setObstacle_grid. intros Hg.
  destruct (isValid _ _ _); [|exact Hg].
  apply Forall_insert; [exact Hg|]. destruct b; auto.
Qed.

Lemma Built_wf (g : t) : Built g -> wf g /\ binary g.
Proof.
  induction 1 as [w h s Hw Hh Hs|g x z b _ [IHwf IHbin]].
  - split; [by apply new_wf | apply new_binary].
  - split; [by apply setObstacle_wf | by apply setObstacle_binary].
Qed.

(** On a grid whose entries are 0 or 1 a point is walkable exactly when
    its cell is inside the grid and does not read as blocked. *)
Lemma binary_isWalkableAt (g : t) (x z : Q) :
  wf g -> binary g ->
  isWalkableAt g x z
  = inRange g x z && negb (isBlocked g (cellOf g x z).1 (cellOf g x z).2).
Proof.
  intros Hwf Hbin. unfold isWalkableAt, inRange, isBlocked, cellOf.
  cbn [fst snd]. rewrite outside_negb_isValid.
  destruct (isValid g _ _) eqn:Hv; cbn [negb andb]; [|reflexivity].
  destruct (gridAt_in_range g _ _ Hwf Hv) as (v & Hg). rewrite Hg.
  unfold gridAt in Hg. destruct (_ <? 0); [discriminate|].
  unfold binary in Hbin. rewrite Forall_lookup in Hbin.
  by destruct (Hbin _ _ Hg) as [->| ->].
Qed.

(** Every grid that the constructor and [setObstacle] make keeps the
    array at [width * height] entries, each 0 or 1; on it
    [isWalkableAt] holds of a point exactly when the cell of the point is
    inside the grid and [isBlocked] does not hold of it. *)
Theorem Built_isWalkableAt (g : t) :
  Built g ->
  wf g /\ binary g
  /\ forall x z : Q,
       isWalkableAt g x z
       = inRange g x z && negb (isBlocked g (cellOf g x z).1 (cellOf g x z).2).
Proof.
  intros Hb. destruct (Built_wf g Hb) as [Hwf Hbin].
  split; [exact Hwf|]. split; [exact Hbin|].
  intros x z. by apply binary_isWalkableAt.
Qed.

Lemma isWalkableAt_cell (g : t) (x z x' z' : Q) :
  cellOf g x z = cellOf g x' z' -> isWalkableAt g x z = isWalkableAt g x' z'.
Proof.
  unfold cellOf, isWalkableAt. intros [= -> ->]. reflexivity.
Qed.

(** [setObstacle] writes one cell: what [isWalkableAt] answers for a point
    of another cell is what it answered before. *)
Theorem setObstacle_other (g : t) (x z x' z' : Q) (b : bool) :
  wf g -> cellOf g x' z' <> cellOf g x z ->
  isWalkableAt (setObstacle g x z b) x' z' = isWalkableAt g x' z'.
Proof.
  intros (Hw & Hh & Hlen & _) Hne.
  destruct (setObstacle_dims g x z b) as (Ew & Eh & Es).
  unfold isWalkableAt. rewrite Ew, Eh, Es.
  rewrite !outside_negb_isValid.
  unfold cellOf in Hne.
  set (gx' := toCell (scale g) (width g) x') in *.
  set (gz' := toCell (scale g) (height g) z') in *.
  destruct (isValid g gx' gz') eqn:Hv'; cbn [negb]; [|reflexivity].
  unfold gridAt. rewrite setObstacle_grid. unfold cellOf. cbn [fst snd].
  set (gx := toCell (scale g) (width g) x) in *.
  set (gz := toCell (scale g) (height g) z) in *.
  destruct (isValid g gx gz) eqn:Hv; [|reflexivity].
  apply isValid_spec in Hv as [Hx Hz], Hv' as [Hx' Hz'].
  pose proof (flat_index_bounds _ _ _ _ Hx Hz).
  pose proof (flat_index_bounds _ _ _ _ Hx' Hz').
  destruct (Z.ltb_spec (gz' * width g + gx') 0); [lia|].
  rewrite list_lookup_insert_ne; [reflexivity|].
  intros E. apply Z2Nat.inj in E; [|lia|lia].
  destruct (flat_index_inj _ _ _ _ _ Hx Hx' E) as [-> ->]. by destruct Hne.
Qed.

(** Two calls of [setObstacle]: on one cell the later call wins, on two
    cells the order does not matter. *)
Theorem setObstacle_twice (g : t) (x z x' z' : Q) (b b' : bool) :
  wf g ->
  (cellOf g x z = cellOf g x' z' ->
   setObstacle (setObstacle g x z b) x' z' b' = setObstacle g x' z' b')
  /\ (cellOf g x z <> cellOf g x' z' ->
      setObstacle (setObstacle g x z b) x' z' b'
      = setObstacle (setObstacle g x' z' b') x z b).
Proof.
  intros (Hw & Hh & Hlen & _).
  assert (Hset : forall g x z b,
            setObstacle g x z b
            = {| width := width g; height := height g; scale := scale g;
                 grid := grid (setObstacle g x z b) |}).
  { intros g0 x0 z0 b0. unfold setObstacle.
    destruct (_ && _); [reflexivity | by destruct g0]. }
  destruct (setObstacle_dims g x z b) as (Ew & Eh & Es).
  destruct (setObstacle_dims g x' z' b') as (Ew' & Eh' & Es').
  assert (Hc : cellOf (setObstacle g x z b) x' z' = cellOf g x' z')
    by (unfold cellOf; by rewrite Ew, Eh, Es).
  assert (Hc' : cellOf (setObstacle g x' z' b') x z = cellOf g x z)
    by (unfold cellOf; by rewrite Ew', Eh', Es').
  assert (Hvalid : forall g0 : t, width g0 = width g -> height g0 = height g ->
            forall c : Z * Z, isValid g0 c.1 c.2 = isValid g c.1 c.2).
  { intros g0 E1 E2 c. unfold isValid. by rewrite E1, E2. }
  split.
  - intros Hsame.
    rewrite (Hset (setObstacle g x z b)), (Hset g x' z' b').
    rewrite Ew, Eh, Es. f_equal.
    rewrite !setObstacle_grid, Hc, Ew, (Hvalid _ Ew Eh), <- Hsame.
    destruct (isValid g _ _); [|reflexivity].
    apply list_insert_insert_eq.
  - intros Hdiff.
    rewrite (Hset (setObstacle g x z b)), (Hset (setObstacle g x' z' b')).
    rewrite Ew, Eh, Es, Ew', Eh', Es'. f_equal.
    rewrite !setObstacle_grid, Hc, Hc', Ew, Ew',
      (Hvalid _ Ew Eh), (Hvalid _ Ew' Eh').
    destruct (isValid g (cellOf g x z).1 (cellOf g x z).2) eqn:Hv,
      (isValid g (cellOf g x' z').1 (cellOf g x' z').2) eqn:Hv';
      try reflexivity.
    apply isValid_spec in Hv as [Hx Hz], Hv' as [Hx' Hz'].
    pose proof (flat_index_bounds _ _ _ _ Hx Hz).
    pose proof (flat_index_bounds _ _ _ _ Hx' Hz').
    apply list_insert_insert_ne. intros E.
    apply Z2Nat.inj in E; [|lia|lia].
    destruct (flat_index_inj _ _ _ _ _ Hx' Hx E) as [E1 E2].
    apply Hdiff. destruct (cellOf g x z), (cellOf g x' z').
    cbn [fst snd] in *. congruence.
Qed.

End GridMore.

(** ** Line of sight: direction and corners *)

Section Sight.
Import Pathfinder.



Lemma Pulled_direct (g : t) (a pl : Vector3) (mid out : list Vector3) :
  hasLineOfSight g a pl = true ->
  Pulled g a (mid ++ [pl]) out -> out = [pl].
Proof.
  intros Hlos HP.
  inversion HP as [|a0 b skipped rest' out' Hjump Hnone Hrest Ea E1 Eout];
    [by destruct mid|].
  clear Ea Eout. destruct rest' as [|r rs].
  - apply app_inj_tail in E1 as [_ ->].
    inversion Hrest as [|a1 b1 sk rest1 out1 Hj1 Hn1 Hr1 Ea1 E Eo1];
      [reflexivity|].
    by destruct sk.
  - assert (Hin : pl ∈ r :: rs).
    { apply last_Some_elem_of.
      rewrite <- (last_app_cons (skipped ++ [b]) rs r), <- app_assoc.
      cbn [app]. rewrite E1. apply last_snoc. }
    rewrite Forall_forall in Hnone. rewrite (Hnone pl Hin) in Hlos.
    discriminate.
Qed.


(** When the last point of a path of three or more points is seen from
    the first, [smoothPath] returns these two points alone, whatever lies
    between them. *)
Theorem smoothPath_direct (g : t) (p0 pl : Vector3) (mid : list Vector3) :
  mid <> [] -> hasLineOfSight g p0 pl = true ->
  smoothPath g (p0 :: mid ++ [pl]) = Some [p0; pl].
Proof.
  intros Hmid Hlos.
  destruct (smoothPath_long g p0 (mid ++ [pl])) as (out & -> & HP).
  { rewrite length_app. destruct mid; [done | simpl; lia]. }
  do 2 f_equal. exact (Pulled_direct g p0 pl mid out Hlos HP).
Qed.


Lemma Pulled_sublist (g : t) (a : Vector3) (rest out : list Vector3) :
  Pulled g a rest out -> out `sublist_of` rest.
Proof.
  induction 1 as [a|a b skipped rest' out _ _ _ IH]; [constructor|].
  apply sublist_inserts_l. by constructor.
Qed.


(** [smoothPath] only drops points: the path it returns is the input with
    some of its points left out, in the same order. *)
Theorem smoothPath_sublist (g : t) (p r : list Vector3) :
  smoothPath g p = Some r ->
  r `sublist_of` p /\ (forall q, q ∈ r -> q ∈ p) /\ (NoDup p -> NoDup r).
Proof.
  intros Hr.
  assert (Hsub : r `sublist_of` p).
  { destruct (Nat.le_gt_cases (length p) 2) as [Hshort|Hlong].
    - rewrite smoothPath_short in Hr by exact Hshort. by injection Hr as <-.
    - destruct p as [|p0 rest]; [simpl in Hlong; lia|].
      destruct (smoothPath_long g p0 rest) as (out & E & HP);
        [simpl in Hlong; lia|].
      rewrite E in Hr. injection Hr as <-.
      constructor. exact (Pulled_sublist g p0 _ _ HP). }
  split; [exact Hsub|]. split.
  - intros q Hq. exact (elem_of_sublist r p q Hq Hsub).
  - intros Hnd. by apply (sublist_NoDup r p).
Qed.

End Sight.

(** ** The search: a path without loops *)

Section SearchTidy.
Import Pathfinder.
Context {F : Type} {C : Cost F}.
Variable g : t.
Variables sx sy ex ey : Z.







End SearchTidy.

Section PlannerSimple.
Import Pathfinder.
Context {F : Type} {C : Cost F}.
Variable g : t.









End PlannerSimple.

(** ** The obstacle map and the spawning *)

Section Map.
Import Pathfinder.

Lemma blockedCount_insert (l : list Z) (i : nat) :
  l !! i = Some 0 ->
  length (filter (fun v => v = 1) (<[i := 1]> l))
  = S (length (filter (fun v => v = 1) l)).
Proof.
  intros Hi. pose proof (lookup_lt_Some _ _ _ Hi) as Hlt.
  rewrite insert_take_drop by exact Hlt.
  rewrite <- (take_drop_middle l i 0 Hi) at 3.
  rewrite !filter_app, !length_app, !filter_cons.
  destruct (decide (1 = 1)) as [_|H]; [|done].
  destruct (decide (0 = 1)) as [H|_]; [done|]. simpl. lia.
Qed.

Lemma isWalkableAt_true (g : t) (x z : Q) :
  isWalkableAt g x z = true ->
  isValid g (cellOf g x z).1 (cellOf g x z).2 = true
  /\ gridAt g ((cellOf g x z).2 * width g + (cellOf g x z).1) = Some 0.
Proof.
  unfold isWalkableAt, cellOf. cbn [fst snd]. rewrite outside_negb_isValid.
  destruct (isValid g _ _); cbn [negb]; [|discriminate].
  destruct (gridAt g _) as [v|]; [|discriminate].
  intros Hv. apply Z.eqb_eq in Hv as ->. done.
Qed.

(** Blocking a walkable point blocks one more cell. *)
Lemma setObstacle_blockedCount (g : t) (x z : Q) :
  isWalkableAt g x z = true ->
  blockedCount (setObstacle g x z true) = S (blockedCount g).
Proof.
  intros Hw. destruct (isWalkableAt_true g x z Hw) as [Hv Hg].
  unfold blockedCount. rewrite setObstacle_grid, Hv.
  apply blockedCount_insert. unfold gridAt in Hg.
  by destruct (_ <? 0).
Qed.

(** What [setObstacle] leaves blocked, and what it blocks. *)
Lemma setObstacle_isBlocked (g : t) (x z : Q) (gx gz : Z) :
  wf g -> isValid g (cellOf g x z).1 (cellOf g x z).2 = true ->
  isBlocked (setObstacle g x z true) gx gz
  = if decide (gz * width g + gx
               = (cellOf g x z).2 * width g + (cellOf g x z).1)
    then true else isBlocked g gx gz.
Proof.
  intros (Hw & Hh & Hlen & _) Hv. unfold isBlocked, gridAt.
  destruct (setObstacle_dims g x z true) as (-> & _ & _).
  rewrite setObstacle_grid, Hv.
  apply isValid_spec in Hv as [Hx Hz].
  pose proof (flat_index_bounds _ _ _ _ Hx Hz) as Hi.
  destruct (decide _) as [->|Hne].
  - destruct (Z.ltb_spec ((cellOf g x z).2 * width g + (cellOf g x z).1) 0);
      [lia|].
    rewrite list_lookup_insert_eq by lia. reflexivity.
  - destruct (Z.ltb_spec (gz * width g + gx) 0); [reflexivity|].
    rewrite list_lookup_insert_ne; [reflexivity|].
    intros E. apply Z2Nat.inj in E; [|lia|lia]. by destruct Hne.
Qed.

Lemma cellOf_integer (pf : t) (x z : Z) :
  width pf = Main.MAP_SIZE -> height pf = Main.MAP_SIZE ->
  scale pf = Main.GRID_SCALE ->
  cellOf pf (inject_Z x) (inject_Z z) = (x + 25, z + 25).
Proof.
  intros Hw Hh Hs. unfold cellOf, toCell. rewrite Hw, Hh, Hs.
  unfold Main.MAP_SIZE, Main.GRID_SCALE.
  assert (E : forall v : Z,
            (inject_Z v / 1 + inject_Z 50 / 2 == inject_Z (v + 25))%Q).
  { intros v. rewrite inject_Z_plus. change (inject_Z 50) with 50%Q.
    change (inject_Z 25) with 25%Q. field. }
  by rewrite !(Qfloor_comp _ _ (E _)), !Qfloor_Z.
Qed.

Lemma setObstacle_mapOK (pf : t) (x z : Q) (b : bool) :
  mapOK pf -> mapOK (setObstacle pf x z b).
Proof.
  intros (Hwf & Hbin & Hw & Hh & Hs).
  destruct (setObstacle_dims pf x z b) as (Ew & Eh & Es).
  split; [by apply setObstacle_wf|]. split; [by apply setObstacle_binary|].
  by rewrite Ew, Eh, Es.
Qed.

Lemma placed_setObstacle (pf : t) (x z : Q) (o : Vector3) :
  mapOK pf -> isValid pf (cellOf pf x z).1 (cellOf pf x z).2 = true ->
  placed pf o -> placed (setObstacle pf x z true) o.
Proof.
  intros (Hwf & _) Hv (ox & oz & Ho & Hmid & Hcell & Hvo & Hbo & Hcx & Hcz).
  destruct (setObstacle_dims pf x z true) as (Ew & Eh & Es).
  exists ox, oz. split; [exact Ho|]. split; [exact Hmid|].
  split; [by unfold cellOf; rewrite Ew, Eh, Es|].
  split; [by unfold isValid; rewrite Ew, Eh|].
  split; [|by unfold center; rewrite Ew, Eh, Es].
  rewrite setObstacle_isBlocked by assumption.
  by destruct (decide _).
Qed.

Section Generate.
Variable random : nat -> Q.

(** The loop of [generateMap]. *)
Lemma generateLoop_spec (n : nat) :
  forall (k : nat) (pf : t) (obs : list Vector3),
    mapOK pf -> Forall (placed pf) obs ->
    let r := Main.generateLoop random n k pf obs in
    mapOK r.1
    /\ (Built pf -> Built r.1)
    /\ (blockedCount r.1 + length obs = blockedCount pf + length r.2)%nat
    /\ (length r.2 <= length obs + n)%nat
    /\ Forall (placed r.1) r.2
    /\ (forall gx gz, isBlocked pf gx gz = true -> isBlocked r.1 gx gz = true)
    /\ (forall gx gz, middle gx gz ->
          isBlocked r.1 gx gz = isBlocked pf gx gz).
Proof.
  induction n as [|n IH]; intros k pf obs Hok Hobs; cbn [Main.generateLoop].
  - cbn [fst snd]. split; [exact Hok|]. split; [done|]. split; [lia|].
    split; [lia|]. split; [exact Hobs|]. split; done.
  - set (x := Main.randomCell random k).
    set (z := Main.randomCell random (S k)).
    destruct ((Z.abs x <? 5) && (Z.abs z <? 5)) eqn:Hmid.
    { destruct (IH (2 + k)%nat pf obs Hok Hobs) as (H1 & H2 & H3 & H4 & H5).
      cbn zeta. split; [exact H1|]. split; [exact H2|]. split; [exact H3|].
      split; [lia | exact H5]. }
    destruct (isWalkableAt pf (inject_Z x) (inject_Z z)) eqn:Hwalk.
    2:{ destruct (IH (2 + k)%nat pf obs Hok Hobs) as (H1 & H2 & H3 & H4 & H5).
        cbn zeta. split; [exact H1|]. split; [exact H2|]. split; [exact H3|].
        split; [lia | exact H5]. }
    pose proof Hok as (Hwf & Hbin & Hw & Hh & Hs).
    destruct (isWalkableAt_true pf _ _ Hwalk) as [Hv _].
    pose proof (cellOf_integer pf x z Hw Hh Hs) as Hcell.
    set (pf1 := setObstacle pf (inject_Z x) (inject_Z z) true).
    set (o := mkVector3 (inject_Z x * Main.GRID_SCALE) 1
                        (inject_Z z * Main.GRID_SCALE)).
    assert (Hok1 : mapOK pf1) by (by apply setObstacle_mapOK).
    assert (Hblocked : forall gx gz,
              isBlocked pf1 gx gz
              = if decide (gz * width pf + gx = (z + 25) * width pf + (x + 25))
                then true else isBlocked pf gx gz).
    { intros gx gz. unfold pf1. rewrite setObstacle_isBlocked by assumption.
      by rewrite Hcell. }
    assert (Ho : placed pf1 o).
    { destruct (setObstacle_dims pf (inject_Z x) (inject_Z z) true)
        as (Ew & Eh & Es).
      assert (Hco : cellOf pf1 (vx o) (vz o) = (x + 25, z + 25)).
      { unfold o, Main.GRID_SCALE. cbn [vx vz].
        unfold cellOf, pf1. rewrite Ew, Eh, Es.
        pose proof (cellOf_integer pf x z Hw Hh Hs) as E.
        unfold cellOf in E. injection E as E1 E2.
        unfold toCell in *.
        rewrite <- E1, <- E2. f_equal; apply Qfloor_comp.
        - by rewrite Qmult_1_r.
        - by rewrite Qmult_1_r. }
      exists x, z. split; [reflexivity|]. split.
      - unfold middle. intros [Hx Hz].
        apply andb_false_iff in Hmid as [H|H]; apply Z.ltb_ge in H; lia.
      - split; [exact Hco|]. rewrite Hcell in Hv. cbn [fst snd] in Hv.
        split; [by unfold isValid, pf1; rewrite Ew, Eh|].
        split; [rewrite Hblocked; by rewrite decide_True|].
        unfold center, pf1, o, toWorld. rewrite Ew, Eh, Es, Hw, Hh, Hs.
        unfold Main.MAP_SIZE, Main.GRID_SCALE. cbn [fst snd vx vz].
        rewrite !inject_Z_plus. change (inject_Z 50) with 50%Q.
        change (inject_Z 25) with 25%Q. split; field. }
    assert (Hobs1 : Forall (placed pf1) (obs ++ [o])).
    { apply Forall_app. split; [|by apply Forall_singleton].
      apply Forall_impl with (placed pf); [exact Hobs|].
      intros o' Ho'. by apply placed_setObstacle. }
    destruct (IH (2 + k)%nat pf1 (obs ++ [o]) Hok1 Hobs1)
      as (H1 & H2 & H3 & H4 & H5 & H6 & H7).
    cbn zeta. fold pf1 o.
    split; [exact H1|].
    split; [intros Hb; apply H2; by constructor|].
    split.
    { rewrite length_app in H3. cbn [length] in H3.
      unfold pf1 in H3 at 2. rewrite setObstacle_blockedCount in H3 by exact Hwalk.
      lia. }
    split; [rewrite length_app in H4; cbn [length] in H4; lia|].
    split; [exact H5|]. split.
    + intros gx gz Hb. apply H6. rewrite Hblocked, Hb. by destruct (decide _).
    + intros gx gz Hm. rewrite H7 by exact Hm. rewrite Hblocked.
      destruct (decide _) as [E|_]; [|reflexivity].
      exfalso. rewrite Hcell in Hv. cbn [fst snd] in Hv.
      apply isValid_spec in Hv as [Hx Hz]. unfold middle in Hm.
      rewrite Hw in *. unfold Main.MAP_SIZE in *.
      assert (gx = x + 25 /\ gz = z + 25) as [-> ->].
      { apply (flat_index_inj 50); [lia | lia | exact E]. }
      apply andb_false_iff in Hmid as [H|H]; apply Z.ltb_ge in H; lia.
Qed.

(** [generateMap] on a grid of the script: it only blocks cells, at most
    80 of them and none of the nine by nine cells in the middle; it draws
    one mesh for every cell it blocks; and every mesh stands on the corner
    of its cell, half a cell off the center of the cell along both
    axes. *)
Theorem generateMap_obstacles (k : nat) (pf : t) :
  mapOK pf ->
  let r := Main.generateMap random k pf in
  mapOK r.1
  /\ blockedCount r.1 = (blockedCount pf + length r.2)%nat
  /\ (length r.2 <= 80)%nat
  /\ Forall (placed r.1) r.2
  /\ (forall gx gz, isBlocked pf gx gz = true -> isBlocked r.1 gx gz = true)
  /\ (forall gx gz, middle gx gz -> isBlocked r.1 gx gz = isBlocked pf gx gz).
Proof.
  intros Hok.
  destruct (generateLoop_spec 80 k pf [] Hok (Forall_nil_2 _))
    as (H1 & _ & H3 & H4 & H5 & H6 & H7).
  cbn zeta. unfold Main.generateMap. cbn [length] in H3, H4.
  split; [exact H1|]. split; [lia|]. split; [lia|].
  split; [exact H5|]. split; [exact H6 | exact H7].
Qed.

(** The loop that spawns the units. *)
Lemma spawnLoop_spec (pf : t) (n : nat) :
  forall (k : nat) (us : list Main.actor),
    Forall (spawned pf) us ->
    (forall i a, us !! i = Some a -> Unit.ref (Main.unit a) = i) ->
    let r := Main.spawnLoop random n k pf us in
    Forall (spawned pf) r
    /\ (forall i a, r !! i = Some a -> Unit.ref (Main.unit a) = i)
    /\ (length r <= length us + n)%nat.
Proof.
  induction n as [|n IH]; intros k us Hus Href; cbn [Main.spawnLoop].
  - cbn zeta. split; [exact Hus|]. split; [exact Href | lia].
  - set (x := Main.randomSpawn random k).
    set (z := Main.randomSpawn random (S k)).
    destruct (isWalkableAt pf x z) eqn:Hwalk.
    + set (a := Main.mkActor _ _).
      destruct (IH (2 + k)%nat (us ++ [a])) as (H1 & H2 & H3).
      * apply Forall_app. split; [exact Hus|]. apply Forall_singleton.
        split; [reflexivity|]. by exists (length us), x, z.
      * intros i b Hb. apply lookup_app_Some in Hb as [Hb|[Hi Hb]];
          [by apply Href|].
        apply list_lookup_singleton_Some in Hb as [Hi0 <-].
        cbn. lia.
      * cbn zeta. split; [exact H1|]. split; [exact H2|].
        rewrite length_app in H3. cbn [length] in H3. lia.
    + destruct (IH (2 + k)%nat us Hus Href) as (H1 & H2 & H3).
      cbn zeta. split; [exact H1|]. split; [exact H2 | lia].
Qed.

(** The state that [resetScene] and [init] build, whatever the random
    draws are.  The grid has 50 by 50 cells of scale 1 with entries 0
    and 1; there are at most 80 obstacle meshes, as many as there are
    blocked cells and each on the corner of a blocked cell; the nine by
    nine cells in the middle of the grid are free; and there are at most
    10 units, each one a unit of its own, unselected, idle, at rest and
    on a point that [isWalkableAt] accepted. *)
Theorem resetScene_state (k : nat) :
  let st := Main.resetScene random k in
  let pf := Main.pathfinder st in
  Built pf /\ mapOK pf
  /\ blockedCount pf = length (Main.obstacles st)
  /\ (length (Main.obstacles st) <= 80)%nat
  /\ Forall (placed pf) (Main.obstacles st)
  /\ (forall gx gz, middle gx gz ->
        isValid pf gx gz = true /\ isBlocked pf gx gz = false)
  /\ (length (Main.units st) <= 10)%nat
  /\ Forall (spawned pf) (Main.units st)
  /\ NoDup (Unit.ref <$> (Main.unit <$> Main.units st))
  /\ allOnTrack (Main.units st) = true.
Proof.
  unfold Main.resetScene, Main.generateMap.
  set (pf0 := new Main.MAP_SIZE Main.MAP_SIZE Main.GRID_SCALE).
  assert (Hb0 : Built pf0) by (constructor; [done | done | discriminate]).
  assert (Hok0 : mapOK pf0).
  { destruct (Built_wf pf0 Hb0) as [Hwf Hbin]. by repeat split. }
  destruct (generateLoop_spec 80 k pf0 [] Hok0 (Forall_nil_2 _))
    as (H1 & H2 & H3 & H4 & H5 & _ & H7).
  destruct (Main.generateLoop random 80 k pf0 []) as [pf obs].
  cbn [fst snd] in H1, H2, H3, H4, H5, H7.
  cbn zeta. cbn [Main.pathfinder Main.obstacles Main.units].
  assert (Hcount0 : blockedCount pf0 = O).
  { unfold blockedCount, pf0, new. cbn [grid].
    induction (Z.to_nat _) as [|m IHm]; [reflexivity|].
    cbn [replicate]. rewrite filter_cons.
    by destruct (decide (0 = 1)). }
  rewrite Hcount0 in H3. cbn [length] in H3, H4.
  destruct (spawnLoop_spec pf 10 (160 + k)%nat [] (Forall_nil_2 _))
    as (Hs1 & Hs2 & Hs3); [done|].
  cbn zeta in Hs1, Hs2, Hs3. cbn [length] in Hs3.
  set (us := Main.spawnLoop random 10 (160 + k) pf []) in *. clearbody us.
  split; [by apply H2|]. split; [exact H1|]. split; [lia|]. split; [lia|].
  split; [exact H5|]. split; [|split; [lia|split; [exact Hs1|split]]].
  - intros gx gz Hmid. pose proof H1 as (Hwf & Hbin & Hw & Hh & Hs).
    split.
    + apply isValid_spec. unfold middle in Hmid. rewrite Hw, Hh.
      unfold Main.MAP_SIZE. lia.
    + rewrite (H7 _ _ Hmid).
      unfold isBlocked, gridAt, pf0, new. cbn [grid width].
      destruct (_ <? 0); [reflexivity|].
      destruct (replicate _ 0 !! _) as [v|] eqn:E; [|reflexivity].
      by apply lookup_replicate in E as [-> _].
  - apply NoDup_alt. intros i j r Hi Hj.
    rewrite !list_lookup_fmap in Hi, Hj.
    destruct (us !! i) as [a|] eqn:Ha; [|discriminate].
    destruct (us !! j) as [b|] eqn:Hb; [|discriminate].
    cbn in Hi, Hj. rewrite <- (Hs2 _ _ Ha), <- (Hs2 _ _ Hb). congruence.
  - apply allOnTrack_Forall. apply Forall_impl with (spawned pf); [exact Hs1|].
    intros a (_ & r & x & z & -> & _). reflexivity.
Qed.

End Generate.

End Map.

(** ** The group command on the grid of the script *)

Section DispatcherCells.
Import Pathfinder Dispatcher.

(** Points more than a cell apart along an axis map to different cells,
    at scale 1. *)
Lemma toCell_apart (dim : Z) (p q : Q) :
  (p + 1 <= q)%Q -> toCell 1 dim p < toCell 1 dim q.
Proof.
  intros Hpq. unfold toCell.
  set (h := (inject_Z dim / 2)%Q).
  assert (Ep : (p / 1 + h == p + h)%Q) by field.
  assert (Eq : (q / 1 + h == q + h)%Q) by field.
  rewrite Ep, Eq.
  pose proof (Qfloor_le (p + h)) as H1.
  pose proof (Qlt_floor (q + h)) as H2.
  assert (H3 : (inject_Z (Qfloor (p + h)) + 1 < inject_Z (Qfloor (q + h) + 1))%Q)
    by lra.
  change 1%Q with (inject_Z 1) in H3.
  rewrite <- inject_Z_plus, <- Zlt_Qlt in H3. lia.
Qed.

(** The columns, or the rows, of two lattice points that differ are a
    spacing and a half cell apart. *)
Lemma lattice_apart (t h : Q) (k l : Z) :
  k < l ->
  (t + (inject_Z k - h) * spacing + 1 <= t + (inject_Z l - h) * spacing)%Q.
Proof.
  intros Hkl. unfold spacing.
  assert (H : (inject_Z k + 1 <= inject_Z l)%Q).
  { change 1%Q with (inject_Z 1). rewrite <- inject_Z_plus, <- Zle_Qle. lia. }
  lra.
Qed.

(** The targets of two units of one command lie in different cells of
    the grid of the script: the lattice is 1.5 wide and a cell is 1
    wide, so that no two units are sent to the same final waypoint.  The
    sizes are such that the rounding of the doubles, far below the half
    cell to spare, does not matter. *)
Theorem unitTarget_cells_distinct (pf : Pathfinder.t) (n i j : Z) (target : Q * Q) :
  mapOK pf -> 1 <= n <= 2 ^ 20 ->
  (Qabs target.1 <= inject_Z (2 ^ 20))%Q ->
  (Qabs target.2 <= inject_Z (2 ^ 20))%Q ->
  0 <= i < n -> 0 <= j < n -> i <> j ->
  cellOf pf (unitTarget n target i).1 (unitTarget n target i).2
  <> cellOf pf (unitTarget n target j).1 (unitTarget n target j).2.
Proof.
  intros (_ & _ & Hw & Hh & Hs) Hn _ _ Hi Hj Hij Hcell.
  pose proof (Z.sqrt_up_spec n ltac:(lia)) as Hc. fold (cols n) in Hc.
  assert (Hcpos : 0 < cols n) by nia.
  unfold cellOf in Hcell. rewrite Hw, Hh, Hs in Hcell.
  unfold Main.GRID_SCALE in Hcell.
  injection Hcell as Hx Hz.
  unfold unitTarget, offset in Hx, Hz. cbn [fst snd] in Hx, Hz.
  set (h := (inject_Z (cols n) / 2)%Q) in *.
  assert (Hcol : i mod cols n = j mod cols n).
  { destruct (Z.lt_total (i mod cols n) (j mod cols n)) as [Hlt|[Heq|Hlt]];
      [|exact Heq|].
    - pose proof (toCell_apart Main.MAP_SIZE _ _
                    (lattice_apart target.1 h _ _ Hlt)). lia.
    - pose proof (toCell_apart Main.MAP_SIZE _ _
                    (lattice_apart target.1 h _ _ Hlt)). lia. }
  assert (Hrow : i / cols n = j / cols n).
  { destruct (Z.lt_total (i / cols n) (j / cols n)) as [Hlt|[Heq|Hlt]];
      [|exact Heq|].
    - pose proof (toCell_apart Main.MAP_SIZE _ _
                    (lattice_apart target.2 h _ _ Hlt)). lia.
    - pose proof (toCell_apart Main.MAP_SIZE _ _
                    (lattice_apart target.2 h _ _ Hlt)). lia. }
  apply Hij.
  rewrite (Z.div_mod i (cols n)), (Z.div_mod j (cols n)) by lia.
  by rewrite Hcol, Hrow.
Qed.

End DispatcherCells.

(** ** The theorems above at concrete inputs *)

Section Instances.
Import Pathfinder.




Lemma map0_ok : mapOK (new Main.MAP_SIZE Main.MAP_SIZE Main.GRID_SCALE).
Proof.
  split; [apply new_wf; [done | done | discriminate]|].
  split; [apply new_binary | done].
Defined.

Lemma unitTarget_cells_distinct_witness :
  cellOf (new Main.MAP_SIZE Main.MAP_SIZE Main.GRID_SCALE)
    (Dispatcher.unitTarget 4 (0, 0)%Q 0).1 (Dispatcher.unitTarget 4 (0, 0)%Q 0).2
  <> cellOf (new Main.MAP_SIZE Main.MAP_SIZE Main.GRID_SCALE)
       (Dispatcher.unitTarget 4 (0, 0)%Q 1).1 (Dispatcher.unitTarget 4 (0, 0)%Q 1).2.
Proof.
  apply (unitTarget_cells_distinct
           (new Main.MAP_SIZE Main.MAP_SIZE Main.GRID_SCALE) 4 0 1 (0, 0)%Q map0_ok);
    [lia | vm_compute; discriminate | vm_compute; discriminate | lia | lia | lia].
Defined.

Lemma Built_isWalkableAt_witness :
  wf grid2 /\ binary grid2
  /\ forall x z : Q,
       isWalkableAt grid2 x z
       = inRange grid2 x z
         && negb (isBlocked grid2 (cellOf grid2 x z).1 (cellOf grid2 x z).2).
Proof.
  apply (Built_isWalkableAt grid2). unfold grid2.
  constructor. constructor; [lia | lia | discriminate].
Defined.

Lemma setObstacle_other_witness :
  isWalkableAt (setObstacle grid3 0 0 true) (-1) (-1)
  = isWalkableAt grid3 (-1) (-1).
Proof.
  apply (setObstacle_other grid3 0 0 (-1) (-1) true grid3_wf).
  vm_compute. discriminate.
Defined.

Lemma setObstacle_twice_witness :
  (cellOf grid3 0 0 = cellOf grid3 1 1 ->
   setObstacle (setObstacle grid3 0 0 true) 1 1 false
   = setObstacle grid3 1 1 false)
  /\ (cellOf grid3 0 0 <> cellOf grid3 1 1 ->
      setObstacle (setObstacle grid3 0 0 true) 1 1 false
      = setObstacle (setObstacle grid3 1 1 false) 0 0 true).
Proof. exact (setObstacle_twice grid3 0 0 1 1 true false grid3_wf). Defined.


Lemma smoothPath_direct_witness :
  smoothPath grid3 (center grid3 (0, 0) :: [center grid3 (1, 1)]
                    ++ [center grid3 (2, 0)])
  = Some [center grid3 (0, 0); center grid3 (2, 0)].
Proof.
  apply (smoothPath_direct grid3 (center grid3 (0, 0)) (center grid3 (2, 0))
           [center grid3 (1, 1)]); [discriminate | reflexivity].
Defined.

Lemma smoothPath_sublist_witness :
  let p := [center grid3 (0, 0); center grid3 (1, 1); center grid3 (2, 0)] in
  let r := [center grid3 (0, 0); center grid3 (2, 0)] in
  r `sublist_of` p /\ (forall q, q ∈ r -> q ∈ p) /\ (NoDup p -> NoDup r).
Proof.
  apply (smoothPath_sublist grid3
           [center grid3 (0, 0); center grid3 (1, 1); center grid3 (2, 0)]).
  reflexivity.
Defined.




Lemma generateMap_obstacles_witness :
  let pf := new Main.MAP_SIZE Main.MAP_SIZE Main.GRID_SCALE in
  let r := Main.generateMap (fun k => inject_Z (Z.of_nat k) / 200)%Q 0 pf in
  mapOK r.1
  /\ blockedCount r.1 = (blockedCount pf + length r.2)%nat
  /\ (length r.2 <= 80)%nat
  /\ Forall (placed r.1) r.2
  /\ (forall gx gz, isBlocked pf gx gz = true -> isBlocked r.1 gx gz = true)
  /\ (forall gx gz, middle gx gz -> isBlocked r.1 gx gz = isBlocked pf gx gz).
Proof.
  exact (generateMap_obstacles (fun k => inject_Z (Z.of_nat k) / 200)%Q 0 _
           map0_ok).
Defined.

End Instances.
